(** * Ingress Inventory Viewer: the data pipeline of [js/utils.js] and [js/data.js]

    A shallow embedding of the container expander, the item filter, the
    grouping engine, the per-category sort comparators and the portal
    location decoder, with the properties the specification states
    about them.

    Modelling conventions.
    - A JavaScript string is a [string]: a sequence of code units, each
      below 256.
    - An optional object field is an [option]; [undefined] is [None].  A
      sub-record that is present is truthy, a string is truthy when it is
      not empty, a number when it is not zero.
    - Levels, timestamps and counts are integers ([Z]); degrees and
      kilometres are rationals ([Q]) standing for the double nearest to
      them; the infinities and NaN are explicit ([jsnum]).
    - [Map] keeps insertion order: it is an association list ([JsMap]);
      the id lookup of the expander, whose order is never observed, is a
      [gmap].
    - The object-literal tables of [js/constants.js] are looked up on
      their own keys.  Resource-type and rarity codes are the game's
      identifiers; none of them names a member of [Object.prototype].
    - [Array.prototype.sort] is a stable sort: [arraySort] is the stable
      insertion sort, which every conforming engine agrees with on a
      consistent comparator. *)

From stdpp Require Import base gmap strings list pretty sorting.
From Stdlib Require Import Ascii ZArith QArith Lia.

Local Open Scope string_scope.
Local Open Scope list_scope.
Local Open Scope Z_scope.

(** ** JavaScript numbers *)

Inductive jsnum (F : Type) : Type :=
  | Fin (x : F)
  | PosInf
  | NegInf
  | NaN.

Arguments Fin {F} x.
Arguments PosInf {F}.
Arguments NegInf {F}.
Arguments NaN {F}.

Module JsNum.

(** [isFinite(n)]. *)
Definition isFinite {F} (n : jsnum F) : bool :=
  match n with Fin _ => true | _ => false end.

(** [a - b] on doubles, the finite case computed by [sub]. *)
Definition minus {F} (sub : F -> F -> F) (a b : jsnum F) : jsnum F :=
  match a, b with
  | NaN, _ | _, NaN => NaN
  | PosInf, PosInf | NegInf, NegInf => NaN
  | PosInf, _ | _, NegInf => PosInf
  | NegInf, _ | _, PosInf => NegInf
  | Fin x, Fin y => Fin (sub x y)
  end.

(** The test [v > 0] that a sort applies to its comparator's result;
    NaN counts as zero. *)
Definition positiveQ (v : jsnum Q) : bool :=
  match v with
  | Fin q => 0 <? Qnum q
  | PosInf => true
  | NegInf | NaN => false
  end.

Definition positiveZ (v : Z) : bool := 0 <? v.

(** Nearest double of a non-negative integer, ties to even; from
    [2^1024 - 2^970] on the result is [Infinity]. *)
Definition roundMagnitude (z : Z) : jsnum Z :=
  let bits := Z.log2 z + 1 in
  if bits <=? 53 then Fin z
  else
    let e := bits - 53 in
    let q := Z.shiftr z e in
    let r := Z.land z (2 ^ e - 1) in
    let half := 2 ^ (e - 1) in
    let q' := if (half <? r) || ((r =? half) && Z.odd q) then q + 1 else q in
    let v := Z.shiftl q' e in
    if 2 ^ 1024 <=? v then PosInf else Fin v.

Definition negate (n : jsnum Z) : jsnum Z :=
  match n with
  | Fin z => Fin (- z)
  | PosInf => NegInf
  | NegInf => PosInf
  | NaN => NaN
  end.

(** Nearest double of an integer. *)
Definition round (z : Z) : jsnum Z :=
  if z <? 0 then negate (roundMagnitude (- z)) else roundMagnitude z.

(** [ToInt32] of an integer-valued double. *)
Definition toInt32 (z : Z) : Z :=
  let m := z mod 2 ^ 32 in
  if 2 ^ 31 <=? m then m - 2 ^ 32 else m.

(** [a & b]: both operands through [ToInt32]; NaN and the infinities
    convert to 0. *)
Definition bitAnd (a : jsnum Z) (b : Z) : Z :=
  match a with
  | Fin z => Z.land (toInt32 z) (toInt32 b)
  | _ => 0
  end.

End JsNum.

(** ** JavaScript strings and truthiness *)

Module JsString.

(** [s.split(sep)] for a one-character separator. *)
Fixpoint split (sep : ascii) (s : string) : list string :=
  match s with
  | EmptyString => [EmptyString]
  | String c s' =>
      if Ascii.eqb c sep then EmptyString :: split sep s'
      else match split sep s' with
           | [] => [String c EmptyString]
           | w :: ws => String c w :: ws
           end
  end.

(** [s.includes(c)] for a one-character needle. *)
Fixpoint includes (c : ascii) (s : string) : bool :=
  match s with
  | EmptyString => false
  | String c' s' => Ascii.eqb c' c || includes c s'
  end.

(** [parts[i]] of a split, as a string pattern binds it. *)
Definition part (i : nat) (parts : list string) : option string :=
  parts !! i.

(** Truthiness of an optional string. *)
Definition truthy (o : option string) : bool :=
  match o with
  | Some s => negb (String.eqb s EmptyString)
  | None => false
  end.

(** [a || b] on optional strings. *)
Definition orElse (a b : option string) : option string :=
  if truthy a then a else b.

(** [a || ''] . *)
Definition orEmpty (a : option string) : string :=
  match a with
  | Some s => s
  | None => EmptyString
  end.

(** [String(v)] of an optional string, as a template literal prints it. *)
Definition toString (o : option string) : string :=
  match o with
  | Some s => s
  | None => "undefined"
  end.

End JsString.

(** ** Insertion-ordered [Map] *)

Module JsMap.
Section Ops.
Context {K V : Type} `{EqDecision K}.

Fixpoint get (k : K) (m : list (K * V)) : option V :=
  match m with
  | [] => None
  | (k', v) :: m' => if decide (k = k') then Some v else get k m'
  end.

Definition has (k : K) (m : list (K * V)) : bool :=
  match get k m with Some _ => true | None => false end.

(** [m.set(k, v)]: a present key keeps its position. *)
Fixpoint set (k : K) (v : V) (m : list (K * V)) : list (K * V) :=
  match m with
  | [] => [(k, v)]
  | (k', v') :: m' =>
      if decide (k = k') then (k, v) :: m' else (k', v') :: set k v m'
  end.

(** In-place mutation of the value stored under [k]. *)
Fixpoint update (f : V -> V) (k : K) (m : list (K * V)) : list (K * V) :=
  match m with
  | [] => []
  | (k', v') :: m' =>
      if decide (k = k') then (k', f v') :: m' else (k', v') :: update f k m'
  end.
End Ops.
End JsMap.

(** ** Data model: the metadata variants of an inventory triple *)

Module Resource.
Record t := mk { resourceType : option string; resourceRarity : option string }.
End Resource.

Module ResourceWithLevels.
Record t := mk { resourceType : option string; level : option Z }.
End ResourceWithLevels.

Module ModResource.
Record t := mk { resourceType : option string; rarity : option string }.
End ModResource.

Module PortalCoupler.
Record t := mk { portalTitle : option string; portalLocation : option string }.
End PortalCoupler.

Module StoryItem.
Record t := mk { shortDescription : option string }.
End StoryItem.

Module FlipCard.
Record t := mk { flipCardType : option string }.
End FlipCard.

Module TimedPowerupResource.
Record t := mk { designation : option string }.
End TimedPowerupResource.

Module PlayerPowerupResource.
Record t := mk { playerPowerupEnum : option string }.
End PlayerPowerupResource.

Module StoredIn.
Record t := mk { containerId : string; containerType : string }.
End StoredIn.

(** The metadata object, its container sub-record and the stack
    descriptors, whose template entity is again a triple. *)
Inductive Meta := mkMeta {
  resource : option Resource.t;
  resourceWithLevels : option ResourceWithLevels.t;
  modResource : option ModResource.t;
  portalCoupler : option PortalCoupler.t;
  storyItem : option StoryItem.t;
  flipCard : option FlipCard.t;
  timedPowerupResource : option TimedPowerupResource.t;
  playerPowerupResource : option PlayerPowerupResource.t;
  container : option Container;
  _storedIn : option StoredIn.t }
with Container := mkContainer {
  stackableItems : option (list StackableItem) }
with StackableItem := mkStackableItem {
  itemGuids : option (list string);
  exampleGameEntity : option (string * Z * Meta) }.

(** A triple [[id, timestamp, meta]]. *)
Definition Item : Type := string * Z * Meta.

Definition itemId (item : Item) : string := item.1.1.
Definition itemTs (item : Item) : Z := item.1.2.
Definition itemMeta (item : Item) : Meta := item.2.

(** ** [js/constants.js] *)

Module CONSTANTS.

Module ITEM_TYPES.
Module DISPLAY_TYPES.
Definition RESONATORS := "Resonators".
Definition KEYS := "Keys".
Definition MEDIA := "Media".
Definition POWERUPS := "Powerups".
Definition CAPSULES := "Capsules".
Definition MODS := "Mods".
Definition WEAPONS := "Weapons".
Definition CUBES := "Cubes".
End DISPLAY_TYPES.

Definition MOD_TYPES : list string :=
  ["EXTRA_SHIELD"; "RES_SHIELD"; "HEATSINK"; "LINK_AMPLIFIER";
   "MULTIHACK"; "TRANSMUTER_ATTACK"; "TURRET"; "ULTRA_LINK_AMP"; "FORCE_AMP"].

Definition WEAPON_TYPES : list string := ["EMP_BURSTER"; "FLIP_CARD"; "ULTRA_STRIKE"].

Definition CUBE_TYPES : list string := ["POWER_CUBE"; "BOOSTED_POWER_CUBE"].

Definition CAPSULE_TYPES : list string :=
  ["CAPSULE"; "KEY_CAPSULE"; "KINETIC_CAPSULE"; "QUANTUM_CAPSULE"; "INTEREST_CAPSULE"].
End ITEM_TYPES.

Module RARITY.
Definition ABBREVIATIONS : list (string * string) :=
  [("VERY_RARE", "VR"); ("RARE", "R"); ("COMMON", "C")].

Definition SORT_ORDER : list (string * Z) :=
  [("VERY_RARE", 3); ("RARE", 2); ("COMMON", 1); (EmptyString, 0)].
End RARITY.

Module SORT_CONFIG.
Definition WEAPON_ORDER : list (string * Z) :=
  [("EMP_BURSTER", 0); ("ULTRA_STRIKE", 1); ("FLIP_CARD", 2)].

Definition MOD_ORDER : list (string * Z) :=
  [("RES_SHIELD", 0); ("EXTRA_SHIELD", 0); ("HEATSINK", 1); ("MULTIHACK", 2);
   ("LINK_AMPLIFIER", 3); ("TRANSMUTER_ATTACK", 4); ("TRANSMUTER_DEFENSE", 4);
   ("TURRET", 5); ("FORCE_AMP", 6)].
End SORT_CONFIG.

End CONSTANTS.

(** [table[key]] on an object literal; an [undefined] key reads the
    property named "undefined". *)
Definition tableGet {V} (table : list (string * V)) (key : option string) : option V :=
  JsMap.get (JsString.toString key) table.

(** [array.includes(x)] on an array of strings. *)
Definition arrayIncludes (array : list string) (x : option string) : bool :=
  match x with
  | Some s => bool_decide (s ∈ array)
  | None => false
  end.

(** [x === 'LITERAL']. *)
Definition strictEq (x : option string) (lit : string) : bool :=
  bool_decide (x = Some lit).

(** ** [js/utils.js] *)

(** [parseInt(s, 16)]. *)
Module ParseInt.

(** White space and line terminators among the code units below 256. *)
Definition isWhiteSpace (c : ascii) : bool :=
  let n := Z.of_N (N_of_ascii c) in
  (n =? 9) || (n =? 10) || (n =? 11) || (n =? 12) || (n =? 13) || (n =? 32) || (n =? 160).

Fixpoint trimStart (s : string) : string :=
  match s with
  | String c s' => if isWhiteSpace c then trimStart s' else s
  | EmptyString => s
  end.

Definition hexDigit (c : ascii) : option Z :=
  let n := Z.of_N (N_of_ascii c) in
  if (48 <=? n) && (n <=? 57) then Some (n - 48)
  else if (97 <=? n) && (n <=? 102) then Some (n - 87)
  else if (65 <=? n) && (n <=? 70) then Some (n - 55)
  else None.

(** Value of the longest prefix of hexadecimal digits; [None] when the
    prefix is empty. *)
Fixpoint digits (s : string) (acc : option Z) : option Z :=
  match s with
  | String c s' =>
      match hexDigit c with
      | Some d => digits s' (Some (16 * default 0 acc + d))
      | None => acc
      end
  | EmptyString => acc
  end.

Definition stripSign (s : string) : bool * string :=
  match s with
  | String "-" s' => (true, s')
  | String "+" s' => (false, s')
  | _ => (false, s)
  end.

Definition stripPrefix (s : string) : string :=
  match s with
  | String "0" (String "x" s') => s'
  | String "0" (String "X" s') => s'
  | _ => s
  end.

Definition parseInt16 (s : string) : jsnum Z :=
  let '(negative, s1) := stripSign (trimStart s) in
  match digits (stripPrefix s1) None with
  | None => NaN
  | Some mathInt =>
      if negative then JsNum.negate (JsNum.roundMagnitude mathInt)
      else JsNum.roundMagnitude mathInt
  end.

End ParseInt.

Module LatLon.
Record t := mk { lat : Q; lon : Q }.
End LatLon.

(** [n - 0x100000000] on an integer-valued double. *)
Definition minus2p32 (n : jsnum Z) : jsnum Z :=
  match JsNum.minus Z.sub n (Fin 4294967296) with
  | Fin z => JsNum.round z
  | v => v
  end.

(** [(n & 0x80000000) ? n - 0x100000000 : n]. *)
Definition toSigned (n : jsnum Z) : jsnum Z :=
  if negb (JsNum.bitAnd n 2147483648 =? 0) then minus2p32 n else n.

(** [n / 1e6] on a finite integer-valued double: the rational whose
    nearest double the division returns. *)
Definition overE6 (n : jsnum Z) : Q :=
  match n with
  | Fin z => z # 1000000
  | _ => 0 # 1
  end.

(** [decodePortalLocation(locationString)] on a string argument. *)
Definition decodePortalLocation (locationString : string) : option LatLon.t :=
  if negb (JsString.truthy (Some locationString))
     || negb (JsString.includes "," locationString)
  then None
  else
    let parts := JsString.split "," locationString in
    let latE6 := toSigned (ParseInt.parseInt16 (JsString.toString (JsString.part 0 parts))) in
    let lonE6 := toSigned (ParseInt.parseInt16 (JsString.toString (JsString.part 1 parts))) in
    if negb (JsNum.isFinite latE6) || negb (JsNum.isFinite lonE6) then None
    else Some (LatLon.mk (overE6 latE6) (overE6 lonE6)).

(** [abbreviateRarity(rarity)]. *)
Definition abbreviateRarity (rarity : string) : string :=
  match tableGet CONSTANTS.RARITY.ABBREVIATIONS (Some rarity) with
  | Some abbr => abbr
  | None => rarity
  end.

(** [getDisplayType(resourceType)]. *)
Definition getDisplayType (resourceType : option string) : option string :=
  if strictEq resourceType "EMITTER_A" then Some CONSTANTS.ITEM_TYPES.DISPLAY_TYPES.RESONATORS
  else if strictEq resourceType "PORTAL_LINK_KEY" then Some CONSTANTS.ITEM_TYPES.DISPLAY_TYPES.KEYS
  else if strictEq resourceType "MEDIA" then Some CONSTANTS.ITEM_TYPES.DISPLAY_TYPES.MEDIA
  else if strictEq resourceType "PORTAL_POWERUP" || strictEq resourceType "PLAYER_POWERUP"
  then Some CONSTANTS.ITEM_TYPES.DISPLAY_TYPES.POWERUPS
  else if arrayIncludes CONSTANTS.ITEM_TYPES.CAPSULE_TYPES resourceType
  then Some CONSTANTS.ITEM_TYPES.DISPLAY_TYPES.CAPSULES
  else if arrayIncludes CONSTANTS.ITEM_TYPES.MOD_TYPES resourceType
  then Some CONSTANTS.ITEM_TYPES.DISPLAY_TYPES.MODS
  else if arrayIncludes CONSTANTS.ITEM_TYPES.WEAPON_TYPES resourceType
  then Some CONSTANTS.ITEM_TYPES.DISPLAY_TYPES.WEAPONS
  else if arrayIncludes CONSTANTS.ITEM_TYPES.CUBE_TYPES resourceType
  then Some CONSTANTS.ITEM_TYPES.DISPLAY_TYPES.CUBES
  else resourceType.

(** [`${level || ''}`] for the level of a level-based resource. *)
Definition levelText (level : option Z) : string :=
  match level with
  | Some n => if n =? 0 then EmptyString else pretty n
  | None => EmptyString
  end.

(** [obj?.field] for a string field of an optional sub-record. *)
Definition field {R} (get : R -> option string) (o : option R) : option string :=
  match o with
  | Some r => get r
  | None => None
  end.

(** [displayTitle(id, meta)]. *)
Definition displayTitle (id : string) (meta : Meta) : string :=
  match modResource meta with
  | Some mr => abbreviateRarity (JsString.orEmpty (ModResource.rarity mr))
  | None =>
  if JsString.truthy (field PortalCoupler.portalTitle (portalCoupler meta))
  then JsString.orEmpty (field PortalCoupler.portalTitle (portalCoupler meta))
  else if JsString.truthy (field StoryItem.shortDescription (storyItem meta))
  then JsString.orEmpty (field StoryItem.shortDescription (storyItem meta))
  else if JsString.truthy (field ResourceWithLevels.resourceType (resourceWithLevels meta))
  then
    let type := field ResourceWithLevels.resourceType (resourceWithLevels meta) in
    let level := levelText (resourceWithLevels meta ≫= ResourceWithLevels.level) in
    if arrayIncludes ["EMITTER_A"; "POWER_CUBE"; "EMP_BURSTER"; "ULTRA_STRIKE"] type
    then "L" +:+ level
    else JsString.orEmpty type +:+ " L" +:+ level
  else if JsString.truthy (field Resource.resourceType (resource meta))
  then
    let type := field Resource.resourceType (resource meta) in
    if strictEq type "FLIP_CARD" && JsString.truthy (field FlipCard.flipCardType (flipCard meta))
    then JsString.orEmpty (field FlipCard.flipCardType (flipCard meta))
    else if strictEq type "BOOSTED_POWER_CUBE" then "Hyper"
    else if strictEq type "PORTAL_POWERUP"
            && JsString.truthy (field TimedPowerupResource.designation (timedPowerupResource meta))
    then JsString.orEmpty (field TimedPowerupResource.designation (timedPowerupResource meta))
    else if strictEq type "PLAYER_POWERUP"
            && JsString.truthy (field PlayerPowerupResource.playerPowerupEnum (playerPowerupResource meta))
    then JsString.orEmpty (field PlayerPowerupResource.playerPowerupEnum (playerPowerupResource meta))
    else JsString.orEmpty type
  else id
  end.

(** ** [js/data.js]: the container expander *)

(** First pass of [extractNestedItems]: the id lookup; a later duplicate
    id overwrites the earlier entry. *)
Definition buildItemMap (itemArray : list Item) : gmap string Item :=
  fold_left (fun itemMap item => <[itemId item := item]> itemMap) itemArray ∅.

(** [{ ...m, _storedIn: { containerId: id, containerType:
    meta.resource?.resourceType || 'CONTAINER' } }]. *)
Definition enrich (id : string) (meta : Meta) (m : Meta) : Meta :=
  mkMeta (resource m) (resourceWithLevels m) (modResource m) (portalCoupler m)
         (storyItem m) (flipCard m) (timedPowerupResource m)
         (playerPowerupResource m) (container m)
         (Some (StoredIn.mk id
            (JsString.orEmpty
               (JsString.orElse (field Resource.resourceType (resource meta))
                                (Some "CONTAINER"))))).

(** Body of the loop over [meta.container.stackableItems]: the pushes
    one stack descriptor makes onto [expandedItems]. *)
Definition expandStackable (itemMap : gmap string Item) (id : string) (meta : Meta)
    (expandedItems : list Item) (stackableItem : StackableItem) : list Item :=
  match itemGuids stackableItem, exampleGameEntity stackableItem with
  | Some guids, Some (templateId, templateTs, templateMeta) =>
      fold_left
        (fun expanded itemGuid =>
           expanded ++ [(itemGuid, templateTs, enrich id meta templateMeta)])
        guids expandedItems
  | None, Some (embeddedId, embeddedTs, embeddedMeta) =>
      expandedItems ++ [(embeddedId, embeddedTs, enrich id meta embeddedMeta)]
  | Some guids, None =>
      fold_left
        (fun expanded nestedId =>
           match itemMap !! nestedId with
           | Some (nestedItemId, nestedTs, nestedMeta) =>
               expanded ++ [(nestedItemId, nestedTs, enrich id meta nestedMeta)]
           | None => expanded
           end)
        guids expandedItems
  | None, None => expandedItems
  end.

(** Body of the second pass: push the item, then its nested contents. *)
Definition expandItem (itemMap : gmap string Item) (expandedItems : list Item)
    (item : Item) : list Item :=
  let '(id, timestamp, meta) := item in
  let expandedItems := expandedItems ++ [item] in
  match container meta ≫= stackableItems with
  | Some stack => fold_left (expandStackable itemMap id meta) stack expandedItems
  | None => expandedItems
  end.

(** [extractNestedItems(itemArray)]. *)
Definition extractNestedItems (itemArray : list Item) : list Item :=
  let itemMap := buildItemMap itemArray in
  fold_left (expandItem itemMap) itemArray [].

(** ** [js/data.js]: the item filter *)

Module Filters.
Record t := mk { rarity : option string }.
End Filters.

(** [(meta.resource || meta.resourceWithLevels || meta.modResource || {}).resourceType]. *)
Definition resolvedResourceType (meta : Meta) : option string :=
  match resource meta, resourceWithLevels meta, modResource meta with
  | Some r, _, _ => Resource.resourceType r
  | None, Some r, _ => ResourceWithLevels.resourceType r
  | None, None, Some r => ModResource.resourceType r
  | None, None, None => None
  end.

(** [(meta.resource || meta.resourceWithLevels || meta.modResource || {}).resourceRarity];
    only the generic resource record has the field. *)
Definition resourceLevelRarity (meta : Meta) : option string :=
  match resource meta with
  | Some r => Resource.resourceRarity r
  | None => None
  end.

(** [resource.resourceRarity || meta.modResource?.rarity]. *)
Definition resolvedRarity (meta : Meta) : option string :=
  JsString.orElse (resourceLevelRarity meta) (field ModResource.rarity (modResource meta)).

(** The predicate that [filterItems] passes to [Array.prototype.filter]. *)
Definition keepItem (filters : Filters.t) (item : Item) : bool :=
  let '(id, timestamp, meta) := item in
  if strictEq (resolvedResourceType meta) "DRONE" then false
  else if JsString.truthy (Filters.rarity filters)
          && negb (bool_decide (resolvedRarity meta = Filters.rarity filters))
  then false
  else true.

(** [filterItems(items, filters)]. *)
Definition filterItems (items : list Item) (filters : Filters.t) : list Item :=
  List.filter (keepItem filters) items.

(** ** [js/data.js]: the grouping engine *)

Module GroupMeta.
Record t := mk {
  displayType : option string;
  title : string;
  level : Z;
  weaponType : option string;
  cubeType : option string;
  modType : option string;
  rarity : option string }.
End GroupMeta.

Module GroupedItem.
Record t := mk { id : string; ts : Z; meta : Meta; item : Item }.
End GroupedItem.

Module Group.
Record t := mk { items : list GroupedItem.t; gmeta : GroupMeta.t }.
End Group.

(** The inner map of one display type, and the map of display types. *)
Definition Grouped : Type := list (string * Group.t).
Definition TypeBuckets : Type := list (option string * Grouped).

(** [meta.resourceWithLevels?.resourceType || meta.resource?.resourceType
    || meta.modResource?.resourceType]. *)
Definition rawTypeOf (meta : Meta) : option string :=
  JsString.orElse (field ResourceWithLevels.resourceType (resourceWithLevels meta))
    (JsString.orElse (field Resource.resourceType (resource meta))
       (field ModResource.resourceType (modResource meta))).

(** [['Weapons', 'Cubes', 'Mods'].includes(displayType)]. *)
Definition needsTypeInKey (displayType : option string) : bool :=
  arrayIncludes ["Weapons"; "Cubes"; "Mods"] displayType.

(** [needsTypeInKey ? `${title}|${rawType}` : title]. *)
Definition groupKeyOf (item : Item) : string :=
  let '(id, timestamp, meta) := item in
  let rawType := rawTypeOf meta in
  let title := displayTitle id meta in
  if needsTypeInKey (getDisplayType rawType)
  then title +:+ "|" +:+ JsString.toString rawType
  else title.

Definition displayTypeOf (item : Item) : option string :=
  getDisplayType (rawTypeOf (itemMeta item)).

(** [meta.resourceWithLevels?.level || 0]. *)
Definition levelOrZero (meta : Meta) : Z :=
  default 0 (resourceWithLevels meta ≫= ResourceWithLevels.level).

(** The [gmeta] object built when a group key is met for the first time. *)
Definition newGmeta (item : Item) : GroupMeta.t :=
  let '(id, timestamp, meta) := item in
  let rawType := rawTypeOf meta in
  let displayType := getDisplayType rawType in
  let title := displayTitle id meta in
  let gmeta := GroupMeta.mk displayType title 0 None None None None in
  if strictEq displayType "Weapons" then
    GroupMeta.mk displayType title (levelOrZero meta)
      (Some (JsString.orEmpty rawType)) None None None
  else if strictEq displayType "Cubes" then
    GroupMeta.mk displayType title (levelOrZero meta)
      None (Some (JsString.orEmpty rawType)) None None
  else if strictEq displayType "Resonators" then
    GroupMeta.mk displayType title (levelOrZero meta) None None None None
  else if strictEq displayType "Mods" then
    GroupMeta.mk displayType title 0 None None
      (Some (JsString.orEmpty rawType))
      (Some (JsString.orEmpty (field ModResource.rarity (modResource meta))))
  else gmeta.

(** [{ id, ts: timestamp, meta, item }]. *)
Definition groupedItem (item : Item) : GroupedItem.t :=
  GroupedItem.mk (itemId item) (itemTs item) (itemMeta item) item.

(** [group.items.push(x)]. *)
Definition pushItem (x : GroupedItem.t) (g : Group.t) : Group.t :=
  Group.mk (Group.items g ++ [x]) (Group.gmeta g).

(** Body of the loop of [groupItems].  The inner map is shared by
    reference in the source, so writing to it is writing to the entry of
    [typeBuckets]. *)
Definition groupStep (typeBuckets : TypeBuckets) (item : Item) : TypeBuckets :=
  let displayType := displayTypeOf item in
  let groupKey := groupKeyOf item in
  let typeBuckets :=
    if negb (JsMap.has displayType typeBuckets)
    then JsMap.set displayType [] typeBuckets
    else typeBuckets in
  let initGroup (grouped : Grouped) : Grouped :=
    if negb (JsMap.has groupKey grouped)
    then JsMap.set groupKey (Group.mk [] (newGmeta item)) grouped
    else grouped in
  JsMap.update
    (fun grouped => JsMap.update (pushItem (groupedItem item)) groupKey (initGroup grouped))
    displayType typeBuckets.

(** [groupItems(filteredItems)]. *)
Definition groupItems (filteredItems : list Item) : TypeBuckets :=
  fold_left groupStep filteredItems [].

(** [typeBuckets.get(displayType)?.get(groupKey)]. *)
Definition lookupGroup (displayType : option string) (groupKey : string)
    (typeBuckets : TypeBuckets) : option Group.t :=
  JsMap.get displayType typeBuckets ≫= JsMap.get groupKey.

(** ** [js/data.js]: the sort engine *)

(** [array.sort(comparefn)]: the stable insertion sort.  An element moves
    behind its neighbour only when [comparefn] is positive on the pair. *)
Section ArraySort.
Context {A N : Type} (positive : N -> bool) (comparefn : A -> A -> N).

Fixpoint insertSorted (x : A) (sorted : list A) : list A :=
  match sorted with
  | [] => [x]
  | y :: rest =>
      if positive (comparefn x y) then y :: insertSorted x rest
      else x :: y :: rest
  end.

Definition arraySort (array : list A) : list A :=
  fold_right insertSorted [] array.
End ArraySort.

(** An entry [[groupKey, groupValue]] of an inner map. *)
Definition Entry : Type := string * Group.t.

Module Directions.
Record t := mk { alpha : string; count : string; time : string; distance : string }.
End Directions.

Module SortConfig.
Record t := mk { mode : string; directions : Directions.t }.
End SortConfig.

(** [key.split('|')[0]]. *)
Definition titleOfKey (key : string) : string :=
  JsString.orEmpty (JsString.part 0 (JsString.split "|" key)).

(** [entry[1].items.length]. *)
Definition countOf (entry : Entry) : Z :=
  Z.of_nat (List.length (Group.items entry.2)).

(** [entry[1].items.reduce((max, item) => Math.max(max, Number(item.ts) || 0), 0)]. *)
Definition latestOf (entry : Entry) : Z :=
  fold_left (fun max item => Z.max max (GroupedItem.ts item)) (Group.items entry.2) 0.

Section SortEngine.

(** [String.prototype.localeCompare] of the host, and [haversineKm],
    whose floating-point trigonometry is left abstract. *)
Variable localeCompare : string -> string -> Z.
Variable haversineKm : Q -> Q -> Q -> Q -> jsnum Q.

Definition titleCompare (a b : Entry) : Z :=
  let titleA := titleOfKey a.1 in
  let titleB := titleOfKey b.1 in
  localeCompare titleA titleB.

Definition weaponsCompare (a b : Entry) : Z :=
  let gmA := Group.gmeta a.2 in
  let gmB := Group.gmeta b.2 in
  let orderA := default 9 (tableGet CONSTANTS.SORT_CONFIG.WEAPON_ORDER (GroupMeta.weaponType gmA)) in
  let orderB := default 9 (tableGet CONSTANTS.SORT_CONFIG.WEAPON_ORDER (GroupMeta.weaponType gmB)) in
  if negb (orderA =? orderB) then orderA - orderB
  else
    let levelA := GroupMeta.level gmA in
    let levelB := GroupMeta.level gmB in
    if negb (levelA =? levelB) then levelB - levelA
    else titleCompare a b.

Definition resonatorsCompare (a b : Entry) : Z :=
  let levelA := GroupMeta.level (Group.gmeta a.2) in
  let levelB := GroupMeta.level (Group.gmeta b.2) in
  levelB - levelA.

Definition cubesCompare (a b : Entry) : Z :=
  let typeA := JsString.orEmpty (GroupMeta.cubeType (Group.gmeta a.2)) in
  let typeB := JsString.orEmpty (GroupMeta.cubeType (Group.gmeta b.2)) in
  if negb (String.eqb typeA typeB) then localeCompare typeA typeB
  else
    let levelA := GroupMeta.level (Group.gmeta a.2) in
    let levelB := GroupMeta.level (Group.gmeta b.2) in
    levelB - levelA.

Definition modsCompare (a b : Entry) : Z :=
  let typeA := JsString.orEmpty (GroupMeta.modType (Group.gmeta a.2)) in
  let typeB := JsString.orEmpty (GroupMeta.modType (Group.gmeta b.2)) in
  let orderA := default 9 (tableGet CONSTANTS.SORT_CONFIG.MOD_ORDER (Some typeA)) in
  let orderB := default 9 (tableGet CONSTANTS.SORT_CONFIG.MOD_ORDER (Some typeB)) in
  if negb (orderA =? orderB) then orderA - orderB
  else
    let rarityA := JsString.orEmpty (GroupMeta.rarity (Group.gmeta a.2)) in
    let rarityB := JsString.orEmpty (GroupMeta.rarity (Group.gmeta b.2)) in
    let rarityOrderA := default 0 (tableGet CONSTANTS.RARITY.SORT_ORDER (Some rarityB)) in
    let rarityOrderB := default 0 (tableGet CONSTANTS.RARITY.SORT_ORDER (Some rarityA)) in
    if negb (rarityOrderA =? rarityOrderB) then rarityOrderA - rarityOrderB
    else if negb (String.eqb typeA typeB) then localeCompare typeA typeB
    else titleCompare a b.

Definition powerupsCompare (a b : Entry) : Z :=
  let countA := countOf a in
  let countB := countOf b in
  if negb (countA =? countB) then countB - countA
  else titleCompare a b.

Definition keysCountCompare (directions : Directions.t) (a b : Entry) : Z :=
  let countA := countOf a in
  let countB := countOf b in
  if String.eqb (Directions.count directions) "desc" then countB - countA
  else countA - countB.

Definition keysTimeCompare (directions : Directions.t) (a b : Entry) : Z :=
  let timeA := latestOf a in
  let timeB := latestOf b in
  if String.eqb (Directions.time directions) "desc" then timeB - timeA
  else timeA - timeB.

(** The closure [getDistance] of the distance mode. *)
Definition getDistance (userLocation : LatLon.t) (entry : Entry) : jsnum Q :=
  let firstItem := head (Group.items entry.2) in
  let locationString :=
    field PortalCoupler.portalLocation (firstItem ≫= (fun i => portalCoupler (GroupedItem.meta i))) in
  let location :=
    if JsString.truthy locationString
    then decodePortalLocation (JsString.orEmpty locationString)
    else None in
  match location with
  | None => PosInf
  | Some location =>
      let km := haversineKm (LatLon.lat userLocation) (LatLon.lon userLocation)
                            (LatLon.lat location) (LatLon.lon location) in
      if JsNum.isFinite km then km else PosInf
  end.

Definition keysDistanceCompare (directions : Directions.t) (userLocation : LatLon.t)
    (a b : Entry) : jsnum Q :=
  let distA := getDistance userLocation a in
  let distB := getDistance userLocation b in
  if String.eqb (Directions.distance directions) "desc"
  then JsNum.minus Qminus distB distA
  else JsNum.minus Qminus distA distB.

Definition keysAlphaCompare (directions : Directions.t) (a b : Entry) : Z :=
  let titleA := titleOfKey a.1 in
  let titleB := titleOfKey b.1 in
  if String.eqb (Directions.alpha directions) "desc"
  then localeCompare titleB titleA
  else localeCompare titleA titleB.

(** [sortKeys(entries, sortConfig, userLocation)]. *)
Definition sortKeys (entries : list Entry) (sortConfig : SortConfig.t)
    (userLocation : option LatLon.t) : list Entry :=
  let mode := SortConfig.mode sortConfig in
  let directions := SortConfig.directions sortConfig in
  if String.eqb mode "count" then
    arraySort JsNum.positiveZ (keysCountCompare directions) entries
  else if String.eqb mode "time" then
    arraySort JsNum.positiveZ (keysTimeCompare directions) entries
  else
    match String.eqb mode "distance", userLocation with
    | true, Some location =>
        arraySort JsNum.positiveQ (keysDistanceCompare directions location) entries
    | _, _ =>
        arraySort JsNum.positiveZ (keysAlphaCompare directions) entries
    end.

(** [sortTypeGroups(entries, displayType, sortConfig, userLocation)]. *)
Definition sortTypeGroups (entries : list Entry) (displayType : string)
    (sortConfig : SortConfig.t) (userLocation : option LatLon.t) : list Entry :=
  if String.eqb displayType "Keys" then sortKeys entries sortConfig userLocation
  else if String.eqb displayType "Weapons" then arraySort JsNum.positiveZ weaponsCompare entries
  else if String.eqb displayType "Resonators" then arraySort JsNum.positiveZ resonatorsCompare entries
  else if String.eqb displayType "Cubes" then arraySort JsNum.positiveZ cubesCompare entries
  else if String.eqb displayType "Mods" then arraySort JsNum.positiveZ modsCompare entries
  else if String.eqb displayType "Powerups" then arraySort JsNum.positiveZ powerupsCompare entries
  else arraySort JsNum.positiveZ titleCompare entries.

End SortEngine.

(** ** Vocabulary of the specification *)

(** The triples synthesized from one stack descriptor of the container
    [(id, _, meta)], in the three encodings: GUID list with template,
    template alone, GUID list alone. *)
Definition nestedOfStack (itemMap : gmap string Item) (id : string) (meta : Meta)
    (stackableItem : StackableItem) : list Item :=
  match itemGuids stackableItem, exampleGameEntity stackableItem with
  | Some guids, Some (_, templateTs, templateMeta) =>
      (fun guid => (guid, templateTs, enrich id meta templateMeta)) <$> guids
  | None, Some (embeddedId, embeddedTs, embeddedMeta) =>
      [(embeddedId, embeddedTs, enrich id meta embeddedMeta)]
  | Some guids, None =>
      omap (fun guid =>
              (fun found : Item => (itemId found, itemTs found, enrich id meta (itemMeta found)))
                <$> itemMap !! guid)
           guids
  | None, None => []
  end.

(** The triples synthesized from one original triple. *)
Definition nestedOf (itemMap : gmap string Item) (item : Item) : list Item :=
  match container (itemMeta item) ≫= stackableItems with
  | Some stack =>
      concat (nestedOfStack itemMap (itemId item) (itemMeta item) <$> stack)
  | None => []
  end.

(** An original triple followed by what was synthesized from it. *)
Definition blockOf (itemMap : gmap string Item) (item : Item) : list Item :=
  item :: nestedOf itemMap item.

(** The reading of the ordering claim: the output is the input followed
    by some list of synthesized triples. *)
Definition OriginalsFirst (itemArray : list Item) : Prop :=
  exists synthesized, extractNestedItems itemArray = itemArray ++ synthesized.

(** ** Sample inventories *)

Definition noMeta : Meta :=
  mkMeta None None None None None None None None None None.

Definition keyMeta (portalTitle : string) (portalLocation : option string) : Meta :=
  mkMeta (Some (Resource.mk (Some "PORTAL_LINK_KEY") None)) None None
         (Some (PortalCoupler.mk (Some portalTitle) portalLocation))
         None None None None None None.

Definition levelMeta (resourceType : string) (level : Z) : Meta :=
  mkMeta None (Some (ResourceWithLevels.mk (Some resourceType) (Some level)))
         None None None None None None None None.

Definition capsuleMeta (resourceType : string) (stack : list StackableItem) : Meta :=
  mkMeta (Some (Resource.mk (Some resourceType) (Some "RARE"))) None None None
         None None None None (Some (mkContainer (Some stack))) None.

(** A capsule holding one embedded key, followed by a loose burster. *)
Definition sampleCapsule : Item :=
  ("capsule-1", 100,
   capsuleMeta "CAPSULE"
     [mkStackableItem None (Some ("key-1", 50, keyMeta "Town Hall" None))]).

Definition sampleBurster : Item := ("burster-1", 200, levelMeta "EMP_BURSTER" 8).

Definition sampleInventory : list Item := [sampleCapsule; sampleBurster].

(** Number of triples synthesized from the members of [items]. *)
Definition nestedCount (itemMap : gmap string Item) (items : list Item) : nat :=
  sum_list ((fun item => List.length (nestedOf itemMap item)) <$> items).

(** [a] may stay in front of [b]: the comparator is not positive on
    the pair. *)
Definition staysBefore {A N : Type} (positive : N -> bool) (comparefn : A -> A -> N)
    (a b : A) : Prop :=
  positive (comparefn a b) = false.

(** A comparison of code units, one admissible [localeCompare]. *)
Fixpoint codeUnitCompare (a b : string) : Z :=
  match a, b with
  | EmptyString, EmptyString => 0
  | EmptyString, String _ _ => -1
  | String _ _, EmptyString => 1
  | String x a', String y b' =>
      let d := Z.of_N (N_of_ascii x) - Z.of_N (N_of_ascii y) in
      if d =? 0 then codeUnitCompare a' b' else d
  end.

(** A distance function for the samples: the squared planar distance
    in degrees. *)
Definition flatKm (lat1 lon1 lat2 lon2 : Q) : jsnum Q :=
  Fin (Qplus (Qmult (Qminus lat2 lat1) (Qminus lat2 lat1))
             (Qmult (Qminus lon2 lon1) (Qminus lon2 lon1))).

(** What a consistent [localeCompare] provides. *)
Definition ConsistentCompare (localeCompare : string -> string -> Z) : Prop :=
  (forall a b, 0 < localeCompare a b -> localeCompare b a <= 0)
  /\ (forall a b c, localeCompare a b <= 0 -> localeCompare b c <= 0 ->
                    localeCompare a c <= 0).

(** Rank of a weapon type in the fixed table. *)
Definition weaponRank (weaponType : option string) : Z :=
  if strictEq weaponType "EMP_BURSTER" then 0
  else if strictEq weaponType "ULTRA_STRIKE" then 1
  else if strictEq weaponType "FLIP_CARD" then 2
  else 9.

(** Weapons order: rank ascending, then level descending, then title
    ascending. *)
Definition weaponsOrder (localeCompare : string -> string -> Z) (a b : Entry) : Prop :=
  let rankA := weaponRank (GroupMeta.weaponType (Group.gmeta a.2)) in
  let rankB := weaponRank (GroupMeta.weaponType (Group.gmeta b.2)) in
  let levelA := GroupMeta.level (Group.gmeta a.2) in
  let levelB := GroupMeta.level (Group.gmeta b.2) in
  rankA < rankB
  \/ (rankA = rankB
      /\ (levelB < levelA
          \/ (levelA = levelB
              /\ localeCompare (titleOfKey a.1) (titleOfKey b.1) <= 0))).

(** The three weapon stacks of the scenario, in input order. *)
Definition weaponItems : list Item :=
  [ ("w-1", 10, levelMeta "EMP_BURSTER" 3);
    ("w-2", 20, levelMeta "EMP_BURSTER" 5);
    ("w-3", 30, levelMeta "ULTRA_STRIKE" 1) ].

(** [Array.from(typeBuckets.get(displayType).entries())]. *)
Definition entriesOf (displayType : string) (typeBuckets : TypeBuckets) : list Entry :=
  default [] (JsMap.get (Some displayType) typeBuckets).

Definition sampleDirections : Directions.t := Directions.mk "asc" "asc" "asc" "asc".

Definition sampleConfig (mode : string) : SortConfig.t :=
  SortConfig.mk mode sampleDirections.

(** The items of the input that belong under group key [groupKey] of
    display type [displayType], in input order. *)
Definition membersOf (displayType : option string) (groupKey : string)
    (items : list Item) : list Item :=
  List.filter
    (fun item => bool_decide (displayTypeOf item = displayType /\ groupKeyOf item = groupKey))
    items.

Definition modMeta (resourceType rarity : string) : Meta :=
  mkMeta None None (Some (ModResource.mk (Some resourceType) (Some rarity)))
         None None None None None None None.

Definition portalPowerupMeta (designation : string) : Meta :=
  mkMeta (Some (Resource.mk (Some "PORTAL_POWERUP") None)) None None None None None
         (Some (TimedPowerupResource.mk (Some designation))) None None None.

Definition playerPowerupMeta (playerPowerupEnum : string) : Meta :=
  mkMeta (Some (Resource.mk (Some "PLAYER_POWERUP") None)) None None None None None
         None (Some (PlayerPowerupResource.mk (Some playerPowerupEnum))) None None.

(** Two very rare mods of different types, and two powerups of
    different types that show the same title. *)
Definition sampleHeatsink : Item := ("m-1", 1, modMeta "HEATSINK" "VERY_RARE").
Definition sampleMultihack : Item := ("m-2", 2, modMeta "MULTIHACK" "VERY_RARE").
Definition samplePortalPowerup : Item := ("p-1", 3, portalPowerupMeta "APEX").
Definition samplePlayerPowerup : Item := ("p-2", 4, playerPowerupMeta "APEX").

Definition sampleMixed : list Item :=
  [sampleHeatsink; samplePortalPowerup; sampleMultihack; samplePlayerPowerup].

(** A weapon stack that shows a portal title, met at level 3 first and
    at level 5 afterwards. *)
Definition titledWeaponMeta (portalTitle : string) (level : Z) : Meta :=
  mkMeta None (Some (ResourceWithLevels.mk (Some "EMP_BURSTER") (Some level))) None
         (Some (PortalCoupler.mk (Some portalTitle) None))
         None None None None None None.

Definition sampleTitled : list Item :=
  [ ("t-1", 1, titledWeaponMeta "Depot" 3); ("t-2", 2, titledWeaponMeta "Depot" 5) ].

(** Value of a string of hexadecimal digits, most significant first. *)
Fixpoint hexValueFrom (acc : Z) (s : string) : Z :=
  match s with
  | EmptyString => acc
  | String c s' => hexValueFrom (16 * acc + default 0 (ParseInt.hexDigit c)) s'
  end.

Definition hexValue (s : string) : Z := hexValueFrom 0 s.

Fixpoint allHexDigits (s : string) : bool :=
  match s with
  | EmptyString => true
  | String c s' => bool_decide (is_Some (ParseInt.hexDigit c)) && allHexDigits s'
  end.

(** A 32-bit pattern written in hexadecimal: one to eight digits. *)
Definition hexPattern32 (s : string) : bool :=
  allHexDigits s && (1 <=? Z.of_nat (String.length s)) && (Z.of_nat (String.length s) <=? 8).

(** Two's-complement reading of a 32-bit pattern. *)
Definition signed32 (pattern : Z) : Z :=
  if pattern <? 2 ^ 31 then pattern else pattern - 2 ^ 32.

(** The first two fields of [locationString.split(',')], as [parseInt]
    receives them. *)
Definition latHexOf (locationString : string) : string :=
  JsString.toString (JsString.part 0 (JsString.split "," locationString)).

Definition lonHexOf (locationString : string) : string :=
  JsString.toString (JsString.part 1 (JsString.split "," locationString)).

(** [entry[1].items[0]?.meta?.portalCoupler?.portalLocation]. *)
Definition firstLocationString (entry : Entry) : option string :=
  field PortalCoupler.portalLocation
    (head (Group.items entry.2) ≫= (fun i => portalCoupler (GroupedItem.meta i))).

(** The first key of the group has no portal location, or one that does
    not decode. *)
Definition unlocated (entry : Entry) : Prop :=
  JsString.truthy (firstLocationString entry) = false
  \/ decodePortalLocation (JsString.orEmpty (firstLocationString entry)) = None.

(** Order of the distances [getDistance] returns: the rationals, with
    [Infinity] on top. *)
Definition distanceLe (a b : jsnum Q) : Prop :=
  match a, b with
  | Fin x, Fin y => Qle x y
  | Fin _, PosInf => True
  | PosInf, PosInf => True
  | _, _ => False
  end.

(** Three keys: a located portal, a portal without location, a portal
    whose location does not decode. *)
Definition keyItems : list Item :=
  [ ("k-1", 1, keyMeta "Alpha" (Some "0000000a,fffffff6"));
    ("k-2", 2, keyMeta "Beta" None);
    ("k-3", 3, keyMeta "Gamma" (Some "zz,11")) ].

Definition keyEntries : list Entry := entriesOf "Keys" (groupItems keyItems).

Definition descending : Directions.t := Directions.mk "asc" "asc" "asc" "desc".

Definition origin : LatLon.t := LatLon.mk (0 # 1) (0 # 1).

(** The entry of the key without location. *)
Definition betaEntry : Entry :=
  ("Beta",
   Group.mk [groupedItem ("k-2", 2, keyMeta "Beta" None)]
            (newGmeta ("k-2", 2, keyMeta "Beta" None))).

(** The reading of the tie-break claim for one comparator: a result of
    zero is possible only when the titles, and then the group keys
    themselves, compare equal. *)
Definition FallsBackToTitle (localeCompare : string -> string -> Z)
    (compare : Entry -> Entry -> Z) : Prop :=
  forall a b,
    compare a b = 0 ->
    localeCompare (titleOfKey a.1) (titleOfKey b.1) = 0
    /\ localeCompare a.1 b.1 = 0.

(** Rank of a mod type and of a rarity in the tables of the Mods
    comparator. *)
Definition modRank (entry : Entry) : Z :=
  default 9 (tableGet CONSTANTS.SORT_CONFIG.MOD_ORDER
               (Some (JsString.orEmpty (GroupMeta.modType (Group.gmeta entry.2))))).

Definition rarityRank (entry : Entry) : Z :=
  default 0 (tableGet CONSTANTS.RARITY.SORT_ORDER
               (Some (JsString.orEmpty (GroupMeta.rarity (Group.gmeta entry.2))))).

(** The entry of the located key, and two weapon groups of equal type
    and level that differ in their title. *)
Definition alphaEntry : Entry :=
  ("Alpha",
   Group.mk [groupedItem ("k-1", 1, keyMeta "Alpha" (Some "0000000a,fffffff6"))]
            (newGmeta ("k-1", 1, keyMeta "Alpha" (Some "0000000a,fffffff6")))).

Definition depotEntry : Entry :=
  ("Depot|EMP_BURSTER",
   Group.mk [groupedItem ("t-1", 1, titledWeaponMeta "Depot" 3)]
            (newGmeta ("t-1", 1, titledWeaponMeta "Depot" 3))).

Definition arenaEntry : Entry :=
  ("Arena|EMP_BURSTER",
   Group.mk [groupedItem ("t-3", 3, titledWeaponMeta "Arena" 3)]
            (newGmeta ("t-3", 3, titledWeaponMeta "Arena" 3))).

(** ** Further functions of [js/utils.js] and [js/data.js] *)

(** [isCapsuled(meta)]. *)
Definition isCapsuled (meta : Meta) : bool :=
  let containerType := StoredIn.containerType <$> _storedIn meta in
  if negb (JsString.truthy containerType) then false
  else arrayIncludes CONSTANTS.ITEM_TYPES.CAPSULE_TYPES containerType.

(** A [Set] of strings: insertion order, no duplicates. *)
Module JsSet.
Definition add {A} `{EqDecision A} (x : A) (s : list A) : list A :=
  if bool_decide (x ∈ s) then s else s ++ [x].
End JsSet.

Module FilterOptions.
Record t := mk { types : list (option string); rarities : list string }.
End FilterOptions.

(** [set.add(value)] guarded by [if (value)]. *)
Definition addIfTruthy (value : option string) (s : list string) : list string :=
  if JsString.truthy value then JsSet.add (JsString.orEmpty value) s else s.

(** Body of the loop of [populateFilterOptions]; a drone is skipped by
    [continue] before its rarities are read. *)
Definition populateStep (options : FilterOptions.t) (item : Item) : FilterOptions.t :=
  let meta := itemMeta item in
  let resourceType := resolvedResourceType meta in
  if JsString.truthy resourceType && strictEq resourceType "DRONE" then options
  else
    let types :=
      if JsString.truthy resourceType
      then JsSet.add (getDisplayType resourceType) (FilterOptions.types options)
      else FilterOptions.types options in
    let rarities := addIfTruthy (resourceLevelRarity meta) (FilterOptions.rarities options) in
    let rarities := addIfTruthy (field ModResource.rarity (modResource meta)) rarities in
    FilterOptions.mk types rarities.

(** [populateFilterOptions(expandedData)]. *)
Definition populateFilterOptions (expandedData : list Item) : FilterOptions.t :=
  fold_left populateStep expandedData (FilterOptions.mk [] []).

(** [CONSTANTS.JSON_VALIDATION]. *)
Module JSON_VALIDATION.
Definition VALID_CONTROL_CHARS : list Z := [9; 10; 13].
Definition MIN_PRINTABLE_CHAR : Z := 32.
End JSON_VALIDATION.

(** [charCode >= minPrintable || validControlChars.has(charCode)]. *)
Definition keepsChar (c : ascii) : bool :=
  let charCode := Z.of_N (N_of_ascii c) in
  (JSON_VALIDATION.MIN_PRINTABLE_CHAR <=? charCode)
  || bool_decide (charCode ∈ JSON_VALIDATION.VALID_CONTROL_CHARS).

(** The loop of [cleanJsonString] from position [i] on, with its two
    accumulators. *)
Fixpoint cleanJsonScan (rest : string) (cleaned : string) (removedCount : Z)
    : string * Z :=
  match rest with
  | EmptyString => (cleaned, removedCount)
  | String c rest' =>
      if keepsChar c
      then cleanJsonScan rest' (cleaned +:+ String c EmptyString) removedCount
      else cleanJsonScan rest' cleaned (removedCount + 1)
  end.

(** [cleanJsonString(jsonString)]; the count only feeds a log line. *)
Definition cleanJsonString (jsonString : string) : string :=
  (cleanJsonScan jsonString EmptyString 0).1.

(** The literal fallback of the provenance tag, or the container's own
    resource type. *)
Definition containerTypeOf (meta : Meta) : string :=
  match field Resource.resourceType (resource meta) with
  | Some type => if String.eqb type EmptyString then "CONTAINER" else type
  | None => "CONTAINER"
  end.

(** The last triple of the input that carries the id [guid]. *)
Definition lastWithId (guid : string) (itemArray : list Item) : option Item :=
  last (List.filter (fun item => bool_decide (itemId item = guid)) itemArray).

(** A triple of the output that carries the provenance tag of a
    container of the input. *)
Definition synthesizedFrom (itemArray : list Item) (triple : Item) : Prop :=
  exists source,
    In source itemArray
    /\ is_Some (container (itemMeta source) ≫= stackableItems)
    /\ _storedIn (itemMeta triple)
       = Some (StoredIn.mk (itemId source) (containerTypeOf (itemMeta source))).

(** The display categories with a name of their own. *)
Definition namedCategories : list (option string) :=
  Some <$> ["Resonators"; "Keys"; "Media"; "Powerups"; "Capsules"; "Mods"; "Weapons"; "Cubes"].

(** The drone test shared by the filter and by the filter options. *)
Definition isDrone (item : Item) : bool :=
  strictEq (resolvedResourceType (itemMeta item)) "DRONE".

(** An inventory with a drone in it. *)
Definition droneMeta : Meta :=
  mkMeta (Some (Resource.mk (Some "DRONE") (Some "VERY_RARE"))) None None None
         None None None None None None.

Definition sampleWithDrone : list Item :=
  [sampleHeatsink; ("d-1", 9, droneMeta); sampleCapsule].

(** Where the entries of the filter options come from: each type is the
    category of a triple seen that is no drone, each rarity is the
    resource rarity or the mod rarity of such a triple. *)
Definition optionsFrom (seen : list Item) (options : FilterOptions.t) : Prop :=
  NoDup (FilterOptions.types options)
  /\ NoDup (FilterOptions.rarities options)
  /\ (forall type, type ∈ FilterOptions.types options ->
        exists item,
          In item seen /\ isDrone item = false
          /\ JsString.truthy (resolvedResourceType (itemMeta item)) = true
          /\ type = getDisplayType (resolvedResourceType (itemMeta item)))
  /\ (forall rarity, rarity ∈ FilterOptions.rarities options ->
        exists item,
          In item seen /\ isDrone item = false
          /\ rarity <> EmptyString
          /\ (resourceLevelRarity (itemMeta item) = Some rarity
              \/ field ModResource.rarity (modResource (itemMeta item)) = Some rarity)).

(** The distinct members of a list, each at its first occurrence. *)
Definition firstSeen {A} `{EqDecision A} (l : list A) : list A :=
  fold_left (fun seen x => JsSet.add x seen) l [].

(** [entries.reduce((sum, entry) => sum + entry[1].items.length, 0)],
    the count that heads a section, and the sum over all sections. *)
Definition sectionCount (entries : list Entry) : nat :=
  sum_list ((fun entry : Entry => List.length (Group.items entry.2)) <$> entries).

Definition groupedCount (typeBuckets : TypeBuckets) : nat :=
  sum_list ((fun bucket : option string * Grouped => sectionCount bucket.2) <$> typeBuckets).

(** The items of display type [displayType], in input order. *)
Definition itemsOfType (displayType : option string) (items : list Item) : list Item :=
  List.filter (fun item => bool_decide (displayTypeOf item = displayType)) items.

(** A [localeCompare] that also tells distinct strings apart. *)
Definition StrictCompare (localeCompare : string -> string -> Z) : Prop :=
  ConsistentCompare localeCompare
  /\ (forall a b, localeCompare a b <= 0 -> localeCompare b a <= 0 -> a = b).

(** The orders the remaining comparators sort by. *)
Definition titleOrder (localeCompare : string -> string -> Z) (a b : Entry) : Prop :=
  localeCompare (titleOfKey a.1) (titleOfKey b.1) <= 0.

Definition levelDescending (a b : Entry) : Prop :=
  GroupMeta.level (Group.gmeta b.2) <= GroupMeta.level (Group.gmeta a.2).

Definition powerupsOrder (localeCompare : string -> string -> Z) (a b : Entry) : Prop :=
  countOf b < countOf a
  \/ (countOf a = countOf b /\ titleOrder localeCompare a b).

Definition cubeTypeOf (entry : Entry) : string :=
  JsString.orEmpty (GroupMeta.cubeType (Group.gmeta entry.2)).

Definition modTypeOf (entry : Entry) : string :=
  JsString.orEmpty (GroupMeta.modType (Group.gmeta entry.2)).

Definition cubesOrder (localeCompare : string -> string -> Z) (a b : Entry) : Prop :=
  if decide (cubeTypeOf a = cubeTypeOf b)
  then levelDescending a b
  else localeCompare (cubeTypeOf a) (cubeTypeOf b) <= 0.

Definition modsOrder (localeCompare : string -> string -> Z) (a b : Entry) : Prop :=
  modRank a < modRank b
  \/ (modRank a = modRank b
      /\ (rarityRank b < rarityRank a
          \/ (rarityRank a = rarityRank b
              /\ if decide (modTypeOf a = modTypeOf b)
                 then titleOrder localeCompare a b
                 else localeCompare (modTypeOf a) (modTypeOf b) <= 0))).

(** Ascending or descending order of an integer key, as a key mode
    selects it. *)
Definition directed (direction : string) (key : Entry -> Z) (a b : Entry) : Prop :=
  if String.eqb direction "desc" then key b <= key a else key a <= key b.

(** The display types that [sortTypeGroups] treats specially. *)
Definition specialTypes : list string :=
  ["Keys"; "Weapons"; "Resonators"; "Cubes"; "Mods"; "Powerups"].

(** Sample entries for the sort: resonator groups, and two mod groups. *)
Definition resonatorEntry (key : string) (level : Z) : Entry :=
  (key, Group.mk [groupedItem (key, 0, levelMeta "EMITTER_A" level)]
                 (newGmeta (key, 0, levelMeta "EMITTER_A" level))).

Definition resonatorEntries : list Entry :=
  [resonatorEntry "L4" 4; resonatorEntry "L8" 8; resonatorEntry "L4 again" 4].

Definition modEntries : list Entry := entriesOf "Mods" (groupItems sampleMixed).

(** The characters the cleaner is to keep, by their code: 32 and above,
    and the tab (9), the line feed (10) and the carriage return (13). *)
Definition allowedCode (c : ascii) : bool :=
  let code := N_of_ascii c in
  ((32 <=? code) || (code =? 9) || (code =? 10) || (code =? 13))%N.

(** The allowed characters of a string, in order, and the number of the
    others. *)
Fixpoint keptChars (s : string) : string :=
  match s with
  | EmptyString => EmptyString
  | String c s' => if allowedCode c then String c (keptChars s') else keptChars s'
  end.

Fixpoint droppedCount (s : string) : Z :=
  match s with
  | EmptyString => 0
  | String c s' => if allowedCode c then droppedCount s' else droppedCount s' + 1
  end.

Fixpoint allKept (s : string) : bool :=
  match s with
  | EmptyString => true
  | String c s' => allowedCode c && allKept s'
  end.

(** A text with a control character of code 1 in front, a tab in the
    middle and a control character of code 31 at the end. *)
Definition dirtyJson : string :=
  String (ascii_of_N 1) ("[1," +:+ String (ascii_of_N 9) ("2]" +:+ String (ascii_of_N 31) EmptyString)).

Definition cleanedJson : string := "[1," +:+ String (ascii_of_N 9) "2]".

(** At most one of the three resource sub-records is populated. *)
Definition singleResource (meta : Meta) : Prop :=
  match resource meta, resourceWithLevels meta, modResource meta with
  | Some _, None, None | None, Some _, None | None, None, Some _ | None, None, None => True
  | _, _, _ => False
  end.

(** Two power cube stacks. *)
Definition cubeEntries : list Entry :=
  entriesOf "Cubes"
    (groupItems [("c-1", 1, levelMeta "POWER_CUBE" 3); ("c-2", 2, levelMeta "POWER_CUBE" 7)]).

(** Two entries with the same title and the same group; their keys may
    differ after the first bar. *)
Definition sameTitleAndGroup (a a' : Entry) : Prop :=
  titleOfKey a.1 = titleOfKey a'.1 /\ a.2 = a'.2.

(** An entry whose distance from the user is unknown. *)
Definition unknownDistance (haversineKm : Q -> Q -> Q -> Q -> jsnum Q)
    (userLocation : LatLon.t) (entry : Entry) : bool :=
  negb (JsNum.isFinite (getDistance haversineKm userLocation entry)).

(** * Properties *)

(** ** The container expander *)

Section Expander.

Variable itemMap : gmap string Item.

Lemma expandStackable_spec id meta expanded stackableItem :
  expandStackable itemMap id meta expanded stackableItem
  = expanded ++ nestedOfStack itemMap id meta stackableItem.
Proof.
  unfold expandStackable, nestedOfStack.
  destruct (itemGuids stackableItem) as [guids|],
           (exampleGameEntity stackableItem) as [[[tid tts] tmeta]|];
    try reflexivity.
  - revert expanded. induction guids as [|g guids IH]; intros expanded; simpl.
    + by rewrite app_nil_r.
    + rewrite IH. by rewrite <- app_assoc.
  - revert expanded. induction guids as [|g guids IH]; intros expanded; simpl.
    + by rewrite app_nil_r.
    + rewrite IH. destruct (itemMap !! g) as [[[nid nts] nmeta]|]; simpl.
      * by rewrite <- app_assoc.
      * reflexivity.
  - by rewrite app_nil_r.
Qed.

Lemma fold_expandStackable id meta stack expanded :
  fold_left (expandStackable itemMap id meta) stack expanded
  = expanded ++ concat (nestedOfStack itemMap id meta <$> stack).
Proof.
  revert expanded. induction stack as [|s stack IH]; intros expanded; simpl.
  - by rewrite app_nil_r.
  - rewrite IH, expandStackable_spec. by rewrite <- app_assoc.
Qed.

Lemma expandItem_spec expanded item :
  expandItem itemMap expanded item = expanded ++ blockOf itemMap item.
Proof.
  destruct item as [[id ts] meta].
  unfold expandItem, blockOf, nestedOf. simpl.
  destruct (container meta ≫= stackableItems) as [stack|].
  - rewrite fold_expandStackable. by rewrite <- app_assoc.
  - reflexivity.
Qed.

Lemma fold_expandItem items expanded :
  fold_left (expandItem itemMap) items expanded
  = expanded ++ concat (blockOf itemMap <$> items).
Proof.
  revert expanded. induction items as [|item items IH]; intros expanded; simpl.
  - by rewrite app_nil_r.
  - rewrite IH, expandItem_spec. by rewrite <- app_assoc.
Qed.

End Expander.

Lemma extractNestedItems_blocks itemArray :
  extractNestedItems itemArray
  = concat (blockOf (buildItemMap itemArray) <$> itemArray).
Proof. unfold extractNestedItems. by rewrite fold_expandItem. Qed.

Lemma blocks_sublist (itemMap : gmap string Item) (items : list Item) :
  items `sublist_of` concat (blockOf itemMap <$> items).
Proof.
  induction items as [|item items IH]; simpl.
  - constructor.
  - apply sublist_skip. by apply sublist_inserts_l.
Qed.

(** C1, amended.  The expanded list is the concatenation, in input order,
    of one block per original triple: the triple itself, immediately
    followed by the triples synthesized from its own stack descriptors
    (descriptor order, GUID order inside a descriptor).  The original
    triples therefore all occur, in their original order, but interleaved
    with the synthesized ones. *)
Theorem extractNestedItems_interleaved (itemArray : list Item) :
  extractNestedItems itemArray
  = concat (blockOf (buildItemMap itemArray) <$> itemArray)
  /\ itemArray `sublist_of` extractNestedItems itemArray.
Proof.
  split.
  - apply extractNestedItems_blocks.
  - rewrite extractNestedItems_blocks. apply blocks_sublist.
Qed.

(** C1, as stated, fails: the key synthesized from the capsule sits
    between the capsule and the burster that follows it in the input. *)
Lemma extractNestedItems_not_originals_first :
  extractNestedItems sampleInventory
  = [ sampleCapsule;
      ("key-1", 50, enrich "capsule-1" (itemMeta sampleCapsule) (keyMeta "Town Hall" None));
      sampleBurster ]
  /\ ~ OriginalsFirst sampleInventory.
Proof.
  assert (E : extractNestedItems sampleInventory
              = [ sampleCapsule;
                  ("key-1", 50,
                   enrich "capsule-1" (itemMeta sampleCapsule) (keyMeta "Town Hall" None));
                  sampleBurster ]) by reflexivity.
  split; [exact E|].
  intros [synthesized H]. rewrite E in H.
  unfold sampleInventory in H. simpl in H.
  injection H as H _. discriminate H.
Qed.

(** *** Re-running the expander *)

Lemma buildItemMap_fold (items : list Item) (m : gmap string Item) (k : string) :
  is_Some (fold_left (fun itemMap item => <[itemId item := item]> itemMap) items m !! k)
  <-> is_Some (m !! k) \/ k ∈ itemId <$> items.
Proof.
  revert m. induction items as [|item items IH]; intros m; simpl.
  - rewrite elem_of_nil. tauto.
  - rewrite IH, elem_of_cons, lookup_insert_is_Some. 
    destruct (decide (itemId item = k)) as [->|Hne]; [tauto|].
    split; [intros [[H|[_ H]]|H]|intros [H|[H|H]]]; try tauto; congruence.
Qed.

Lemma buildItemMap_dom (items : list Item) (k : string) :
  is_Some (buildItemMap items !! k) <-> k ∈ itemId <$> items.
Proof.
  unfold buildItemMap. rewrite buildItemMap_fold, lookup_empty.
  split; [intros [H|H]; [by destruct H|done]|by right].
Qed.

Lemma nestedOfStack_mono (m m' : gmap string Item) id meta s :
  (forall k, is_Some (m !! k) -> is_Some (m' !! k)) ->
  (List.length (nestedOfStack m id meta s) <= List.length (nestedOfStack m' id meta s))%nat.
Proof.
  intros Hsub. unfold nestedOfStack.
  destruct (itemGuids s) as [guids|], (exampleGameEntity s) as [[[tid tts] tmeta]|];
    try reflexivity.
  induction guids as [|g guids IH]; simpl; [lia|].
  destruct (m !! g) as [found|] eqn:Hg; simpl.
  - destruct (Hsub g) as [found' ->]; [by rewrite Hg|]. simpl. apply le_n_S, IH.
  - destruct (m' !! g); simpl; [apply Nat.le_le_succ_r|]; apply IH.
Qed.

Lemma nestedOf_mono (m m' : gmap string Item) item :
  (forall k, is_Some (m !! k) -> is_Some (m' !! k)) ->
  (List.length (nestedOf m item) <= List.length (nestedOf m' item))%nat.
Proof.
  intros Hsub. unfold nestedOf.
  destruct (container (itemMeta item) ≫= stackableItems) as [stack|]; [|reflexivity].
  induction stack as [|s stack IH]; [reflexivity|].
  rewrite !fmap_cons. simpl. rewrite !length_app.
  pose proof (nestedOfStack_mono m m' (itemId item) (itemMeta item) s Hsub). lia.
Qed.

Lemma nestedCount_mono (m m' : gmap string Item) items :
  (forall k, is_Some (m !! k) -> is_Some (m' !! k)) ->
  (nestedCount m items <= nestedCount m' items)%nat.
Proof.
  intros Hsub. unfold nestedCount.
  induction items as [|item items IH]; csimpl; [done|].
  pose proof (nestedOf_mono m m' item Hsub). lia.
Qed.

Lemma nestedCount_sublist (m : gmap string Item) (l1 l2 : list Item) :
  l1 `sublist_of` l2 -> (nestedCount m l1 <= nestedCount m l2)%nat.
Proof.
  unfold nestedCount. induction 1; csimpl; lia.
Qed.

Lemma blocks_length (m : gmap string Item) (items : list Item) :
  List.length (concat (blockOf m <$> items))
  = (List.length items + nestedCount m items)%nat.
Proof.
  unfold nestedCount. induction items as [|item items IH]; csimpl; [reflexivity|].
  rewrite length_app, IH. lia.
Qed.

Lemma blocks_no_growth (m : gmap string Item) (items : list Item) :
  nestedCount m items = 0%nat -> concat (blockOf m <$> items) = items.
Proof.
  unfold nestedCount. induction items as [|item items IH]; csimpl; [reflexivity|].
  intros H. unfold blockOf at 1.
  destruct (nestedOf m item) as [|x l] eqn:E; simpl in *; [|discriminate].
  f_equal. by apply IH.
Qed.

Lemma extractNestedItems_length (itemArray : list Item) :
  List.length (extractNestedItems itemArray)
  = (List.length itemArray + nestedCount (buildItemMap itemArray) itemArray)%nat.
Proof. rewrite extractNestedItems_blocks. apply blocks_length. Qed.

Lemma rerun_growth (itemArray : list Item) :
  (nestedCount (buildItemMap itemArray) itemArray
   <= nestedCount (buildItemMap (extractNestedItems itemArray))
                  (extractNestedItems itemArray))%nat.
Proof.
  etrans; [|apply nestedCount_sublist; rewrite extractNestedItems_blocks; apply blocks_sublist].
  apply nestedCount_mono. intros k. rewrite !buildItemMap_dom.
  intros Hk. eapply elem_of_sublist; [exact Hk|].
  apply fmap_sublist. rewrite extractNestedItems_blocks. apply blocks_sublist.
Qed.

(** C3, amended.  A second run of the expander over its own output adds
    no triple exactly when the first run synthesized none, that is when
    the output equals the input.  Otherwise the original containers, which
    stay in the output with their [container] sub-record, are expanded
    again: the second run adds at least as many triples as the first. *)
Theorem extractNestedItems_rerun (itemArray : list Item) :
  (List.length (extractNestedItems (extractNestedItems itemArray))
   = List.length (extractNestedItems itemArray)
   <-> extractNestedItems itemArray = itemArray)
  /\ (List.length (extractNestedItems itemArray) - List.length itemArray
      <= List.length (extractNestedItems (extractNestedItems itemArray))
         - List.length (extractNestedItems itemArray))%nat.
Proof.
  pose proof (rerun_growth itemArray) as Hgrow.
  pose proof (extractNestedItems_length itemArray) as H1.
  pose proof (extractNestedItems_length (extractNestedItems itemArray)) as H2.
  split; [split|].
  - intros Heq. rewrite extractNestedItems_blocks.
    apply blocks_no_growth. lia.
  - intros Heq. by rewrite !Heq.
  - lia.
Qed.

(** C3, as stated, fails: the capsule is still a container in the output
    of the first run, so the second run synthesizes its key once more. *)
Lemma extractNestedItems_rerun_grows :
  List.length (extractNestedItems sampleInventory) = 3%nat
  /\ List.length (extractNestedItems (extractNestedItems sampleInventory)) = 4%nat
  /\ List.length (extractNestedItems (extractNestedItems sampleInventory))
     <> List.length (extractNestedItems sampleInventory).
Proof. repeat split; vm_compute; congruence. Qed.

(** ** The stable sort *)

Section ArraySortFacts.
Context {A N : Type} (positive : N -> bool) (comparefn : A -> A -> N).

Lemma insertSorted_perm (x : A) (l : list A) :
  insertSorted positive comparefn x l ≡ₚ x :: l.
Proof.
  induction l as [|y l IH]; simpl; [reflexivity|].
  destruct (positive (comparefn x y)); [|reflexivity].
  rewrite IH. apply Permutation_swap.
Qed.

Lemma arraySort_perm (l : list A) : arraySort positive comparefn l ≡ₚ l.
Proof.
  induction l as [|x l IH]; simpl; [reflexivity|].
  by rewrite insertSorted_perm, IH.
Qed.

Lemma arraySort_length (l : list A) :
  List.length (arraySort positive comparefn l) = List.length l.
Proof. apply Permutation_length, arraySort_perm. Qed.

(** A list that is already in order is returned unchanged: entries on
    which the comparator ties keep their input order. *)
Lemma arraySort_fixed (l : list A) :
  StronglySorted (staysBefore positive comparefn) l -> arraySort positive comparefn l = l.
Proof.
  induction 1 as [|x l Hl IH Hx]; simpl; [reflexivity|].
  rewrite IH. destruct l as [|y l]; [reflexivity|]. simpl.
  apply Forall_cons in Hx as [Hxy _]. by rewrite Hxy.
Qed.

Section Consistent.
Hypothesis total : forall a b, positive (comparefn a b) = true -> (staysBefore positive comparefn) b a.
Hypothesis trans : forall a b c, (staysBefore positive comparefn) a b -> (staysBefore positive comparefn) b c -> (staysBefore positive comparefn) a c.

Lemma insertSorted_sorted (x : A) (l : list A) :
  StronglySorted (staysBefore positive comparefn) l -> StronglySorted (staysBefore positive comparefn) (insertSorted positive comparefn x l).
Proof.
  induction 1 as [|y l Hl IH Hy]; simpl.
  - repeat constructor.
  - destruct (positive (comparefn x y)) eqn:Hxy.
    + constructor; [exact IH|].
      rewrite insertSorted_perm. constructor; [by apply total|exact Hy].
    + constructor; [by constructor|].
      constructor; [exact Hxy|].
      eapply Forall_impl; [exact Hy|]. intros z Hz. by eapply trans.
Qed.

Lemma arraySort_sorted (l : list A) :
  StronglySorted (staysBefore positive comparefn) (arraySort positive comparefn l).
Proof.
  induction l as [|x l IH]; simpl; [constructor|].
  by apply insertSorted_sorted.
Qed.
End Consistent.

End ArraySortFacts.

(** Stability: the members of any class of entries that the comparator
    never orders among themselves keep their input order. *)
Section Stability.
Context {A N : Type} (positive : N -> bool) (comparefn : A -> A -> N).
Variable P : A -> bool.
Hypothesis ties : forall a b, P a = true -> P b = true -> positive (comparefn a b) = false.

Lemma insertSorted_filter (x : A) (l : list A) :
  List.filter P (insertSorted positive comparefn x l) = List.filter P (x :: l).
Proof.
  induction l as [|y l IH]; [reflexivity|].
  simpl insertSorted. destruct (positive (comparefn x y)) eqn:Hpos; [|reflexivity].
  simpl. simpl in IH. rewrite IH.
  destruct (P x) eqn:Hx, (P y) eqn:Hy; try reflexivity.
  by rewrite ties in Hpos.
Qed.

Lemma arraySort_filter (l : list A) :
  List.filter P (arraySort positive comparefn l) = List.filter P l.
Proof.
  induction l as [|x l IH]; [reflexivity|].
  simpl arraySort. rewrite insertSorted_filter. simpl. by rewrite IH.
Qed.
End Stability.

(** In a strongly sorted list, whatever comes later is related to
    whatever comes earlier. *)
Lemma StronglySorted_split {A} (R : A -> A -> Prop) (l1 l2 : list A) (x y : A) :
  StronglySorted R (l1 ++ x :: l2) -> In y l2 -> R x y.
Proof.
  induction l1 as [|z l1 IH]; simpl; intros Hs Hy.
  - apply StronglySorted_inv in Hs as [_ Hx].
    rewrite Forall_forall in Hx. apply Hx. by apply list_elem_of_In.
  - apply StronglySorted_inv in Hs as [Hs _]. by apply IH.
Qed.

Lemma StronglySorted_weaken {A} (R S : A -> A -> Prop) (l : list A) :
  (forall a b, R a b -> S a b) -> StronglySorted R l -> StronglySorted S l.
Proof.
  intros HRS. induction 1 as [|x l Hl IH Hx]; constructor; [exact IH|].
  eapply Forall_impl; [exact Hx|]. intros y. apply HRS.
Qed.

(** ** The weapons comparator *)

Lemma weaponRank_table (weaponType : option string) :
  default 9 (tableGet CONSTANTS.SORT_CONFIG.WEAPON_ORDER weaponType)
  = weaponRank weaponType.
Proof.
  unfold weaponRank, strictEq, tableGet, CONSTANTS.SORT_CONFIG.WEAPON_ORDER.
  destruct weaponType as [t|]; simpl; [|reflexivity].
  repeat case_decide; repeat case_bool_decide; simplify_eq; reflexivity.
Qed.

Section WeaponsOrder.

Variable localeCompare : string -> string -> Z.
Hypothesis consistent : ConsistentCompare localeCompare.

Lemma weaponsCompare_order (a b : Entry) :
  staysBefore JsNum.positiveZ (weaponsCompare localeCompare) a b
  <-> weaponsOrder localeCompare a b.
Proof.
  unfold staysBefore, JsNum.positiveZ, weaponsCompare, weaponsOrder, titleCompare.
  rewrite !weaponRank_table.
  set (rankA := weaponRank _). set (rankB := weaponRank _).
  set (levelA := GroupMeta.level _). set (levelB := GroupMeta.level _).
  cbv zeta.
  destruct (Z.eqb_spec rankA rankB) as [Hr|Hr]; simpl.
  - destruct (Z.eqb_spec levelA levelB) as [Hl|Hl]; simpl;
      rewrite Z.ltb_ge; lia.
  - rewrite Z.ltb_ge. lia.
Qed.

Lemma weaponsOrder_total (a b : Entry) :
  JsNum.positiveZ (weaponsCompare localeCompare a b) = true ->
  staysBefore JsNum.positiveZ (weaponsCompare localeCompare) b a.
Proof.
  destruct consistent as [Htotal _].
  intros Hpos. apply weaponsCompare_order.
  assert (Hnot : ~ weaponsOrder localeCompare a b).
  { rewrite <- weaponsCompare_order. unfold staysBefore. by rewrite Hpos. }
  unfold weaponsOrder in *. cbv zeta in *.
  pose proof (Htotal (titleOfKey a.1) (titleOfKey b.1)). lia.
Qed.

Lemma weaponsOrder_trans (a b c : Entry) :
  staysBefore JsNum.positiveZ (weaponsCompare localeCompare) a b ->
  staysBefore JsNum.positiveZ (weaponsCompare localeCompare) b c ->
  staysBefore JsNum.positiveZ (weaponsCompare localeCompare) a c.
Proof.
  destruct consistent as [_ Htrans].
  rewrite !weaponsCompare_order. unfold weaponsOrder. cbv zeta.
  pose proof (Htrans (titleOfKey a.1) (titleOfKey b.1) (titleOfKey c.1)). lia.
Qed.

Lemma weapons_sorted (entries : list Entry) :
  StronglySorted (weaponsOrder localeCompare)
    (arraySort JsNum.positiveZ (weaponsCompare localeCompare) entries).
Proof.
  eapply StronglySorted_weaken; [|apply arraySort_sorted].
  - intros a b. apply weaponsCompare_order.
  - apply weaponsOrder_total.
  - apply weaponsOrder_trans.
Qed.

End WeaponsOrder.

Lemma codeUnitCompare_antisym (a b : string) :
  codeUnitCompare b a = - codeUnitCompare a b.
Proof.
  revert b. induction a as [|x a IH]; intros [|y b]; simpl; try reflexivity.
  rewrite IH.
  destruct (Z.eqb_spec (Z.of_N (N_of_ascii y) - Z.of_N (N_of_ascii x)) 0),
           (Z.eqb_spec (Z.of_N (N_of_ascii x) - Z.of_N (N_of_ascii y)) 0); lia.
Qed.

Lemma codeUnitCompare_trans (a b c : string) :
  codeUnitCompare a b <= 0 -> codeUnitCompare b c <= 0 -> codeUnitCompare a c <= 0.
Proof.
  revert b c. induction a as [|x a IH]; intros [|y b] [|z c]; simpl; try lia.
  destruct (Z.eqb_spec (Z.of_N (N_of_ascii x) - Z.of_N (N_of_ascii y)) 0),
           (Z.eqb_spec (Z.of_N (N_of_ascii y) - Z.of_N (N_of_ascii z)) 0),
           (Z.eqb_spec (Z.of_N (N_of_ascii x) - Z.of_N (N_of_ascii z)) 0);
    try lia.
  apply IH.
Qed.

Lemma codeUnitCompare_consistent : ConsistentCompare codeUnitCompare.
Proof.
  split.
  - intros a b. rewrite (codeUnitCompare_antisym a b). lia.
  - apply codeUnitCompare_trans.
Qed.

(** C9.  For the Weapons category [sortTypeGroups] returns the entries it
    was given, ordered by the rank of the weapon type in the fixed table
    ascending (a type outside the table has rank 9), then by level
    descending, then by title ascending; and the stacks EMP_BURSTER L3,
    EMP_BURSTER L5, ULTRA_STRIKE L1 come out as EMP_BURSTER L5,
    EMP_BURSTER L3, ULTRA_STRIKE L1. *)
Theorem sortTypeGroups_weapons
    (localeCompare : string -> string -> Z) (haversineKm : Q -> Q -> Q -> Q -> jsnum Q)
    (entries : list Entry) (sortConfig : SortConfig.t) (userLocation : option LatLon.t) :
  ConsistentCompare localeCompare ->
  let sort := fun entries =>
    sortTypeGroups localeCompare haversineKm entries "Weapons" sortConfig userLocation in
  sort entries ≡ₚ entries
  /\ StronglySorted (weaponsOrder localeCompare) (sort entries)
  /\ (forall weaponType,
        weaponType ∉ ["EMP_BURSTER"; "ULTRA_STRIKE"; "FLIP_CARD"] ->
        default 9 (tableGet CONSTANTS.SORT_CONFIG.WEAPON_ORDER (Some weaponType)) = 9)
  /\ fst <$> entriesOf "Weapons" (groupItems weaponItems)
     = ["L3|EMP_BURSTER"; "L5|EMP_BURSTER"; "L1|ULTRA_STRIKE"]
  /\ fst <$> sort (entriesOf "Weapons" (groupItems weaponItems))
     = ["L5|EMP_BURSTER"; "L3|EMP_BURSTER"; "L1|ULTRA_STRIKE"].
Proof.
  intros Hlc sort.
  assert (Hsort : forall l, sort l = arraySort JsNum.positiveZ (weaponsCompare localeCompare) l)
    by reflexivity.
  split; [|split; [|split; [|split]]].
  - rewrite Hsort. apply arraySort_perm.
  - rewrite Hsort. by apply weapons_sorted.
  - intros weaponType Hnot. rewrite weaponRank_table.
    unfold weaponRank, strictEq.
    repeat case_bool_decide; simplify_eq; try reflexivity;
      exfalso; apply Hnot; set_solver.
  - reflexivity.
  - rewrite Hsort. reflexivity.
Qed.

Lemma sortTypeGroups_weapons_witness :
  ConsistentCompare codeUnitCompare
  /\ fst <$> sortTypeGroups codeUnitCompare flatKm
               (entriesOf "Weapons" (groupItems weaponItems))
               "Weapons" (sampleConfig "alpha") None
     = ["L5|EMP_BURSTER"; "L3|EMP_BURSTER"; "L1|ULTRA_STRIKE"].
Proof.
  split; [exact codeUnitCompare_consistent|].
  apply (sortTypeGroups_weapons codeUnitCompare flatKm
           (entriesOf "Weapons" (groupItems weaponItems))
           (sampleConfig "alpha") None codeUnitCompare_consistent).
Defined.

(** ** The key sort modes *)

Lemma keysAlphaCompare_order (localeCompare : string -> string -> Z)
    (directions : Directions.t) (a b : Entry) :
  staysBefore JsNum.positiveZ (keysAlphaCompare localeCompare directions) a b
  <-> if String.eqb (Directions.alpha directions) "desc"
      then localeCompare (titleOfKey b.1) (titleOfKey a.1) <= 0
      else localeCompare (titleOfKey a.1) (titleOfKey b.1) <= 0.
Proof.
  unfold staysBefore, JsNum.positiveZ, keysAlphaCompare. cbv zeta.
  destruct (String.eqb (Directions.alpha directions) "desc"); apply Z.ltb_ge.
Qed.

Lemma keysAlpha_sorted (localeCompare : string -> string -> Z)
    (directions : Directions.t) (entries : list Entry) :
  ConsistentCompare localeCompare ->
  StronglySorted
    (fun a b => if String.eqb (Directions.alpha directions) "desc"
                then localeCompare (titleOfKey b.1) (titleOfKey a.1) <= 0
                else localeCompare (titleOfKey a.1) (titleOfKey b.1) <= 0)
    (arraySort JsNum.positiveZ (keysAlphaCompare localeCompare directions) entries).
Proof.
  intros [Htotal Htrans].
  eapply StronglySorted_weaken; [|apply arraySort_sorted].
  - intros a b. apply keysAlphaCompare_order.
  - intros a b Hpos. apply keysAlphaCompare_order.
    assert (Hnot : ~ staysBefore JsNum.positiveZ
                       (keysAlphaCompare localeCompare directions) a b)
      by (unfold staysBefore; by rewrite Hpos).
    rewrite keysAlphaCompare_order in Hnot.
    pose proof (Htotal (titleOfKey a.1) (titleOfKey b.1)).
    destruct (String.eqb (Directions.alpha directions) "desc"); lia.
  - intros a b c. rewrite !keysAlphaCompare_order.
    destruct (String.eqb (Directions.alpha directions) "desc").
    + intros Hab Hbc. by apply (Htrans _ (titleOfKey b.1)).
    + apply Htrans.
Qed.

(** C10.  In distance mode without a user location [sortKeys] takes its
    default branch and returns the entries sorted alphabetically by
    title: the result is a permutation of the entries, ordered by title
    ascending, or descending when [directions.alpha] is desc; it is the
    list the alphabetical mode returns, and it depends neither on the
    distance function nor on the directions of the other modes. *)
Theorem sortKeys_distance_without_location
    (localeCompare : string -> string -> Z) (haversineKm : Q -> Q -> Q -> Q -> jsnum Q)
    (entries : list Entry) (directions : Directions.t) :
  let sorted :=
    sortKeys localeCompare haversineKm entries (SortConfig.mk "distance" directions) None in
  sorted ≡ₚ entries
  /\ (ConsistentCompare localeCompare ->
      StronglySorted
        (fun a b => if String.eqb (Directions.alpha directions) "desc"
                    then titleOrder localeCompare b a
                    else titleOrder localeCompare a b)
        sorted)
  /\ sorted = arraySort JsNum.positiveZ (keysAlphaCompare localeCompare directions) entries
  /\ (forall userLocation,
        sorted
        = sortKeys localeCompare haversineKm entries (SortConfig.mk "alpha" directions)
            userLocation)
  /\ (forall otherKm,
        sorted
        = sortKeys localeCompare otherKm entries (SortConfig.mk "distance" directions) None)
  /\ (forall count time distance,
        sorted
        = sortKeys localeCompare haversineKm entries
            (SortConfig.mk "distance"
               (Directions.mk (Directions.alpha directions) count time distance))
            None)
  /\ (forall a b,
        keysAlphaCompare localeCompare directions a b
        = if String.eqb (Directions.alpha directions) "desc"
          then localeCompare (titleOfKey b.1) (titleOfKey a.1)
          else localeCompare (titleOfKey a.1) (titleOfKey b.1)).
Proof.
  intros sorted.
  assert (Hs : sorted
               = arraySort JsNum.positiveZ (keysAlphaCompare localeCompare directions) entries)
    by reflexivity.
  split; [rewrite Hs; apply arraySort_perm|].
  split; [intros Hlc; rewrite Hs; by apply keysAlpha_sorted|].
  split; [exact Hs|].
  split; [|split; [reflexivity|split; [reflexivity|reflexivity]]].
  intros userLocation. unfold sorted, sortKeys. simpl. by destruct userLocation.
Qed.

Lemma sortKeys_distance_without_location_witness :
  ConsistentCompare codeUnitCompare
  /\ fst <$> rev keyEntries = ["Gamma"; "Beta"; "Alpha"]
  /\ fst <$> sortKeys codeUnitCompare flatKm (rev keyEntries)
               (SortConfig.mk "distance" sampleDirections) None
     = ["Alpha"; "Beta"; "Gamma"]
  /\ StronglySorted (titleOrder codeUnitCompare)
       (sortKeys codeUnitCompare flatKm (rev keyEntries)
          (SortConfig.mk "distance" sampleDirections) None).
Proof.
  split; [exact codeUnitCompare_consistent|].
  split; [reflexivity|]. split; [reflexivity|].
  destruct (sortKeys_distance_without_location codeUnitCompare flatKm (rev keyEntries)
              sampleDirections) as (_ & Hsorted & _).
  exact (Hsorted codeUnitCompare_consistent).
Defined.

(** ** The item filter *)

Lemma keepItem_rarity (filters : Filters.t) (item : Item) :
  JsString.truthy (Filters.rarity filters) = true ->
  keepItem filters item = true ->
  resolvedRarity (itemMeta item) = Filters.rarity filters.
Proof.
  intros Hset. destruct item as [[id ts] meta]. unfold keepItem, itemMeta. simpl.
  rewrite Hset. simpl.
  destruct (strictEq (resolvedResourceType meta) "DRONE"); [discriminate|].
  case_bool_decide; [done|discriminate].
Qed.

(** C7.  With a rarity filter set, [filterItems] keeps only items whose
    resolved rarity is exactly the requested value: an item of another
    rarity is excluded, and so is every item whose rarity does not
    resolve. *)
Theorem filterItems_rarity (items : list Item) (filters : Filters.t) (requested : string) :
  Filters.rarity filters = Some requested ->
  JsString.truthy (Filters.rarity filters) = true ->
  (forall item, In item (filterItems items filters) ->
                resolvedRarity (itemMeta item) = Some requested)
  /\ (forall item, resolvedRarity (itemMeta item) <> Some requested ->
                   ~ In item (filterItems items filters))
  /\ (forall item, JsString.truthy (resolvedRarity (itemMeta item)) = false ->
                   ~ In item (filterItems items filters)).
Proof.
  intros Hreq Hset.
  assert (Hkept : forall item, In item (filterItems items filters) ->
                               resolvedRarity (itemMeta item) = Some requested).
  { intros item Hin. unfold filterItems in Hin. apply filter_In in Hin as [_ Hkeep].
    rewrite <- Hreq. by apply keepItem_rarity. }
  split; [exact Hkept|]. split.
  - intros item Hne Hin. apply Hne. by apply Hkept.
  - intros item Hnone Hin. apply Hkept in Hin.
    rewrite Hin, <- Hreq, Hset in Hnone. discriminate.
Qed.

Lemma filterItems_rarity_witness :
  filterItems sampleInventory (Filters.mk (Some "RARE")) = [sampleCapsule]
  /\ (forall item, In item (filterItems sampleInventory (Filters.mk (Some "RARE"))) ->
                   resolvedRarity (itemMeta item) = Some "RARE")
  /\ ~ In sampleBurster (filterItems sampleInventory (Filters.mk (Some "RARE"))).
Proof.
  pose proof (filterItems_rarity sampleInventory (Filters.mk (Some "RARE")) "RARE"
                eq_refl eq_refl) as (Hkept & _ & Hnone).
  split; [reflexivity|]. split; [exact Hkept|].
  apply Hnone. reflexivity.
Defined.

(** ** The grouping engine *)

Section JsMapFacts.
Context {K V : Type} `{EqDecision K}.
Implicit Types (m : list (K * V)) (k : K) (v : V).

Lemma get_set m k k' v :
  JsMap.get k' (JsMap.set k v m) = if decide (k = k') then Some v else JsMap.get k' m.
Proof.
  induction m as [|[k0 v0] m IH]; simpl.
  - repeat case_decide; congruence.
  - destruct (decide (k = k0)) as [->|Hne]; simpl.
    + repeat case_decide; congruence.
    + rewrite IH. repeat case_decide; congruence.
Qed.

Lemma get_update m (f : V -> V) k k' :
  JsMap.get k' (JsMap.update f k m)
  = if decide (k = k') then f <$> JsMap.get k' m else JsMap.get k' m.
Proof.
  induction m as [|[k0 v0] m IH]; simpl.
  - by case_decide.
  - destruct (decide (k = k0)) as [->|Hne]; simpl.
    + repeat case_decide; simplify_eq; reflexivity.
    + rewrite IH. repeat case_decide; simplify_eq; reflexivity.
Qed.

Lemma has_get m k : JsMap.has k m = bool_decide (is_Some (JsMap.get k m)).
Proof.
  unfold JsMap.has. destruct (JsMap.get k m).
  - symmetry. apply bool_decide_eq_true. eauto.
  - symmetry. apply bool_decide_eq_false. by intros [? ?].
Qed.

End JsMapFacts.

(** One step of the grouping loop, seen through [lookupGroup]. *)
Lemma lookupGroup_step (typeBuckets : TypeBuckets) (item : Item)
    (displayType : option string) (groupKey : string) :
  lookupGroup displayType groupKey (groupStep typeBuckets item)
  = if decide (displayTypeOf item = displayType /\ groupKeyOf item = groupKey)
    then Some (match lookupGroup displayType groupKey typeBuckets with
               | Some group => pushItem (groupedItem item) group
               | None => Group.mk [groupedItem item] (newGmeta item)
               end)
    else lookupGroup displayType groupKey typeBuckets.
Proof.
  unfold lookupGroup, groupStep, JsMap.has.
  rewrite get_update.
  destruct (decide (displayTypeOf item = displayType)) as [<-|Hd].
  - destruct (JsMap.get (displayTypeOf item) typeBuckets) as [grouped|] eqn:Hg; simpl.
    + rewrite Hg. simpl. rewrite get_update.
      destruct (JsMap.get (groupKeyOf item) grouped) as [group|] eqn:Hk; simpl.
      * destruct (decide (groupKeyOf item = groupKey)) as [<-|Hne].
        -- rewrite decide_True by done. by rewrite Hk.
        -- rewrite decide_False by tauto. reflexivity.
      * rewrite get_set.
        destruct (decide (groupKeyOf item = groupKey)) as [<-|Hne].
        -- rewrite decide_True by done. by rewrite Hk.
        -- rewrite decide_False by tauto. reflexivity.
    + rewrite get_set, decide_True by done. simpl.
      rewrite (decide_True (P := groupKeyOf item = groupKeyOf item)) by done. simpl.
      repeat case_decide; try reflexivity; exfalso; intuition congruence.
  - rewrite decide_False by tauto.
    destruct (JsMap.get (displayTypeOf item) typeBuckets); simpl; [reflexivity|].
    by rewrite get_set, decide_False.
Qed.

Lemma lookupGroup_fold (items : list Item) (typeBuckets : TypeBuckets)
    (displayType : option string) (groupKey : string) :
  lookupGroup displayType groupKey (fold_left groupStep items typeBuckets)
  = match lookupGroup displayType groupKey typeBuckets,
          membersOf displayType groupKey items with
    | Some group, members =>
        Some (Group.mk (Group.items group ++ (groupedItem <$> members)) (Group.gmeta group))
    | None, [] => None
    | None, first :: rest =>
        Some (Group.mk (groupedItem <$> first :: rest) (newGmeta first))
    end.
Proof.
  revert typeBuckets. induction items as [|item items IH]; intros typeBuckets; simpl.
  - destruct (lookupGroup displayType groupKey typeBuckets) as [[its gm]|]; [|reflexivity].
    simpl. by rewrite app_nil_r.
  - rewrite IH, lookupGroup_step.
    destruct (decide (displayTypeOf item = displayType /\ groupKeyOf item = groupKey))
      as [Hkey|Hkey].
    + rewrite bool_decide_eq_true_2 by done.
      destruct (lookupGroup displayType groupKey typeBuckets) as [[its gm]|]; simpl.
      * by rewrite <- app_assoc.
      * reflexivity.
    + rewrite bool_decide_eq_false_2 by done. reflexivity.
Qed.

Lemma lookupGroup_groupItems (items : list Item) (displayType : option string)
    (groupKey : string) :
  lookupGroup displayType groupKey (groupItems items)
  = match membersOf displayType groupKey items with
    | [] => None
    | first :: rest => Some (Group.mk (groupedItem <$> first :: rest) (newGmeta first))
    end.
Proof. unfold groupItems. by rewrite lookupGroup_fold. Qed.

Lemma membersOf_app (displayType : option string) (groupKey : string)
    (items more : list Item) :
  membersOf displayType groupKey (items ++ more)
  = membersOf displayType groupKey items ++ membersOf displayType groupKey more.
Proof. unfold membersOf. apply List.filter_app. Qed.

Lemma membersOf_In (displayType : option string) (groupKey : string)
    (items : list Item) (item : Item) :
  In item (membersOf displayType groupKey items)
  <-> In item items /\ displayTypeOf item = displayType /\ groupKeyOf item = groupKey.
Proof.
  unfold membersOf. rewrite filter_In, bool_decide_eq_true. reflexivity.
Qed.

Lemma newGmeta_displayType (item : Item) :
  GroupMeta.displayType (newGmeta item) = displayTypeOf item.
Proof.
  destruct item as [[id ts] meta]. unfold newGmeta, displayTypeOf, itemMeta. simpl.
  repeat match goal with |- context [strictEq ?x ?y] => destruct (strictEq x y) end;
    reflexivity.
Qed.

Lemma newGmeta_title (item : Item) :
  GroupMeta.title (newGmeta item) = displayTitle (itemId item) (itemMeta item).
Proof.
  destruct item as [[id ts] meta]. unfold newGmeta, itemId, itemMeta. simpl.
  repeat match goal with |- context [strictEq ?x ?y] => destruct (strictEq x y) end;
    reflexivity.
Qed.

(** C4.  Whatever group [groupItems] builds, its [gmeta] is the object
    made from the first input item that falls under the group's key: the
    display type, the title and the category-specific fields are those of
    that item.  Processing any further items leaves it as it is; the
    later members of the key are only appended to [items]. *)
Theorem groupItems_first_write_wins (filteredItems : list Item)
    (displayType : option string) (groupKey : string) (group : Group.t) :
  lookupGroup displayType groupKey (groupItems filteredItems) = Some group ->
  exists first rest,
    membersOf displayType groupKey filteredItems = first :: rest
    /\ Group.items group = groupedItem <$> first :: rest
    /\ Group.gmeta group = newGmeta first
    /\ GroupMeta.displayType (Group.gmeta group) = displayTypeOf first
    /\ GroupMeta.title (Group.gmeta group) = displayTitle (itemId first) (itemMeta first)
    /\ forall more,
         lookupGroup displayType groupKey (groupItems (filteredItems ++ more))
         = Some (Group.mk
                   (Group.items group ++ (groupedItem <$> membersOf displayType groupKey more))
                   (Group.gmeta group)).
Proof.
  rewrite lookupGroup_groupItems.
  destruct (membersOf displayType groupKey filteredItems) as [|first rest] eqn:Hm;
    [discriminate|].
  intros [= <-]. exists first, rest. simpl.
  split; [reflexivity|]. split; [reflexivity|]. split; [reflexivity|].
  split; [apply newGmeta_displayType|]. split; [apply newGmeta_title|].
  intros more. rewrite lookupGroup_groupItems, membersOf_app, Hm. simpl.
  by rewrite fmap_app.
Qed.

Lemma groupItems_first_write_wins_witness :
  exists group,
    lookupGroup (Some "Weapons") "Depot|EMP_BURSTER" (groupItems sampleTitled) = Some group
    /\ List.length (Group.items group) = 2%nat
    /\ GroupMeta.level (Group.gmeta group) = 3.
Proof.
  eexists. split; [reflexivity|].
  destruct (groupItems_first_write_wins sampleTitled (Some "Weapons") "Depot|EMP_BURSTER"
              _ eq_refl) as (first & rest & Hm & _ & Hg & _).
  split; [reflexivity|].
  injection Hm as <- _. rewrite Hg. reflexivity.
Defined.

Lemma append_inj_l (prefix a b : string) :
  prefix +:+ a = prefix +:+ b -> a = b.
Proof.
  induction prefix as [|c prefix IH]; simpl; [done|].
  intros [= H]. by apply IH.
Qed.

Lemma needsTypeInKey_rawType (rawType : option string) :
  needsTypeInKey (getDisplayType rawType) = true -> exists s, rawType = Some s.
Proof. destruct rawType as [s|]; [eauto|]. vm_compute. discriminate. Qed.

Lemma groupedItem_inj (a b : Item) : groupedItem a = groupedItem b -> a = b.
Proof. unfold groupedItem. by intros [= _ _ _ H]. Qed.

Lemma group_members (items : list Item) (displayType : option string)
    (groupKey : string) (group : Group.t) (item : Item) :
  lookupGroup displayType groupKey (groupItems items) = Some group ->
  In (groupedItem item) (Group.items group) <->
  In item items /\ displayTypeOf item = displayType /\ groupKeyOf item = groupKey.
Proof.
  rewrite lookupGroup_groupItems.
  destruct (membersOf displayType groupKey items) as [|first rest] eqn:Hm; [discriminate|].
  intros Hg.
  assert (Group.items group = map groupedItem (first :: rest)) as ->
    by (by injection Hg as <-).
  rewrite <- Hm, <- membersOf_In, in_map_iff. split.
  - intros (x & Hx & Hin). apply groupedItem_inj in Hx. by subst.
  - intros Hin. eauto.
Qed.

Lemma groupKeyOf_typed (item : Item) :
  needsTypeInKey (displayTypeOf item) = true ->
  groupKeyOf item
  = displayTitle (itemId item) (itemMeta item)
    +:+ "|" +:+ JsString.toString (rawTypeOf (itemMeta item)).
Proof.
  destruct item as [[id ts] meta]. unfold groupKeyOf, displayTypeOf, itemId, itemMeta.
  simpl. by intros ->.
Qed.

Lemma groupKeyOf_plain (item : Item) :
  needsTypeInKey (displayTypeOf item) = false ->
  groupKeyOf item = displayTitle (itemId item) (itemMeta item).
Proof.
  destruct item as [[id ts] meta]. unfold groupKeyOf, displayTypeOf, itemId, itemMeta.
  simpl. by intros ->.
Qed.

Lemma needsTypeInKey_categories (displayType : option string) :
  needsTypeInKey displayType = true
  <-> In displayType [Some "Weapons"; Some "Cubes"; Some "Mods"].
Proof.
  unfold needsTypeInKey, arrayIncludes. destruct displayType as [s|]; simpl.
  - rewrite bool_decide_eq_true, !elem_of_cons, elem_of_nil.
    split; [intros [->|[->|[->|[]]]]; tauto|].
    intros [[= <-]|[[= <-]|[[= <-]|[]]]]; tauto.
  - split; [discriminate|]. intros [H|[H|[H|[]]]]; discriminate H.
Qed.

(** Every item handed to [groupItems] sits in the group of its own
    display type and key. *)
Lemma item_placed (items : list Item) (item : Item) :
  In item items ->
  exists group,
    lookupGroup (displayTypeOf item) (groupKeyOf item) (groupItems items) = Some group
    /\ In (groupedItem item) (Group.items group).
Proof.
  intros Hin.
  destruct (lookupGroup (displayTypeOf item) (groupKeyOf item) (groupItems items))
    as [group|] eqn:Hg.
  - exists group. split; [reflexivity|].
    apply (group_members _ _ _ _ _ Hg). auto.
  - exfalso. rewrite lookupGroup_groupItems in Hg.
    destruct (membersOf (displayTypeOf item) (groupKeyOf item) items) eqn:Hm;
      [|discriminate].
    assert (Hmem : In item (membersOf (displayTypeOf item) (groupKeyOf item) items))
      by by apply membersOf_In.
    by rewrite Hm in Hmem.
Qed.

(** C8.  Two filtered items with the same title and different raw
    types.  When the display category of one is Weapons, Cubes or Mods,
    [groupItems] places each of them in a group, the group of its own
    display type and key, the key of that one is [title|rawType], the two
    places differ, and no group holds both.  When the category is none of
    the three and the two items share it, their keys are the title alone
    and one group, found under that category and title, holds both. *)
Theorem groupItems_same_title (filteredItems : list Item) (a b : Item) :
  In a filteredItems -> In b filteredItems ->
  displayTitle (itemId a) (itemMeta a) = displayTitle (itemId b) (itemMeta b) ->
  rawTypeOf (itemMeta a) <> rawTypeOf (itemMeta b) ->
  let title := displayTitle (itemId a) (itemMeta a) in
  (In (displayTypeOf a) [Some "Weapons"; Some "Cubes"; Some "Mods"] ->
     (exists groupA groupB,
        lookupGroup (displayTypeOf a) (groupKeyOf a) (groupItems filteredItems)
        = Some groupA
        /\ In (groupedItem a) (Group.items groupA)
        /\ lookupGroup (displayTypeOf b) (groupKeyOf b) (groupItems filteredItems)
           = Some groupB
        /\ In (groupedItem b) (Group.items groupB)
        /\ (displayTypeOf a, groupKeyOf a) <> (displayTypeOf b, groupKeyOf b)
        /\ ~ In (groupedItem b) (Group.items groupA)
        /\ ~ In (groupedItem a) (Group.items groupB))
     /\ (exists rawA,
          rawTypeOf (itemMeta a) = Some rawA
          /\ groupKeyOf a = title +:+ "|" +:+ rawA)
     /\ (displayTypeOf a = displayTypeOf b ->
         exists rawB,
           rawTypeOf (itemMeta b) = Some rawB
           /\ groupKeyOf b = title +:+ "|" +:+ rawB)
     /\ forall displayType groupKey group,
          lookupGroup displayType groupKey (groupItems filteredItems) = Some group ->
          In (groupedItem a) (Group.items group) ->
          ~ In (groupedItem b) (Group.items group))
  /\ (~ In (displayTypeOf a) [Some "Weapons"; Some "Cubes"; Some "Mods"] ->
      displayTypeOf a = displayTypeOf b ->
      groupKeyOf a = title
      /\ groupKeyOf b = title
      /\ exists group,
           lookupGroup (displayTypeOf a) title (groupItems filteredItems) = Some group
           /\ In (groupedItem a) (Group.items group)
           /\ In (groupedItem b) (Group.items group)).
Proof.
  intros Ha Hb Htitle Hraw title. split.
  - intros Hneeds. apply needsTypeInKey_categories in Hneeds.
    assert (HkeyA : exists rawA,
               rawTypeOf (itemMeta a) = Some rawA
               /\ groupKeyOf a = title +:+ "|" +:+ rawA).
    { destruct (needsTypeInKey_rawType (rawTypeOf (itemMeta a)) Hneeds) as [sa Hsa].
      exists sa. split; [exact Hsa|].
      rewrite groupKeyOf_typed by exact Hneeds. by rewrite Hsa. }
    assert (HkeyB : displayTypeOf a = displayTypeOf b ->
               exists rawB,
                 rawTypeOf (itemMeta b) = Some rawB
                 /\ groupKeyOf b = title +:+ "|" +:+ rawB).
    { intros Hd. rewrite Hd in Hneeds.
      destruct (needsTypeInKey_rawType (rawTypeOf (itemMeta b)) Hneeds) as [sb Hsb].
      exists sb. split; [exact Hsb|].
      rewrite groupKeyOf_typed by exact Hneeds. unfold title. by rewrite Hsb, Htitle. }
    assert (Hplaces : (displayTypeOf a, groupKeyOf a) <> (displayTypeOf b, groupKeyOf b)).
    { intros [= Hd Hk].
      destruct HkeyA as (sa & Hsa & Hka). destruct (HkeyB Hd) as (sb & Hsb & Hkb).
      rewrite Hka, Hkb in Hk. do 2 apply append_inj_l in Hk.
      congruence. }
    assert (Hapart : forall displayType groupKey group,
               lookupGroup displayType groupKey (groupItems filteredItems) = Some group ->
               In (groupedItem a) (Group.items group) ->
               ~ In (groupedItem b) (Group.items group)).
    { intros displayType groupKey group Hg Hina Hinb.
      apply (group_members _ _ _ _ _ Hg) in Hina as (_ & Hda & Hka).
      apply (group_members _ _ _ _ _ Hg) in Hinb as (_ & Hdb & Hkb).
      apply Hplaces. congruence. }
    split; [|split; [exact HkeyA|split; [exact HkeyB|exact Hapart]]].
    destruct (item_placed filteredItems a Ha) as (groupA & HgA & HinA).
    destruct (item_placed filteredItems b Hb) as (groupB & HgB & HinB).
    exists groupA, groupB.
    split; [exact HgA|]. split; [exact HinA|]. split; [exact HgB|].
    split; [exact HinB|]. split; [exact Hplaces|]. split.
    + by apply (Hapart _ _ _ HgA).
    + intros HinA'. by apply (Hapart _ _ _ HgB HinA').
  - intros Hplain Hd.
    assert (Hplain' : needsTypeInKey (displayTypeOf a) = false).
    { destruct (needsTypeInKey (displayTypeOf a)) eqn:Hn; [|reflexivity].
      exfalso. by apply Hplain, needsTypeInKey_categories. }
    assert (Hka : groupKeyOf a = title) by by apply groupKeyOf_plain.
    assert (Hkb : groupKeyOf b = title).
    { unfold title. rewrite Htitle. apply groupKeyOf_plain. by rewrite <- Hd. }
    split; [exact Hka|]. split; [exact Hkb|].
    destruct (item_placed filteredItems a Ha) as (group & Hg & Hin).
    rewrite Hka in Hg. exists group. split; [exact Hg|]. split; [exact Hin|].
    apply (group_members _ _ _ _ _ Hg). auto.
Qed.

Lemma groupItems_same_title_witness :
  (exists groupA groupB,
     lookupGroup (Some "Mods") "VR|HEATSINK" (groupItems sampleMixed) = Some groupA
     /\ In (groupedItem sampleHeatsink) (Group.items groupA)
     /\ lookupGroup (Some "Mods") "VR|MULTIHACK" (groupItems sampleMixed) = Some groupB
     /\ In (groupedItem sampleMultihack) (Group.items groupB)
     /\ ~ In (groupedItem sampleMultihack) (Group.items groupA)
     /\ ~ In (groupedItem sampleHeatsink) (Group.items groupB))
  /\ (exists group,
        lookupGroup (Some "Powerups") "APEX" (groupItems sampleMixed) = Some group
        /\ In (groupedItem samplePortalPowerup) (Group.items group)
        /\ In (groupedItem samplePlayerPowerup) (Group.items group)).
Proof.
  assert (Hmods : In sampleHeatsink sampleMixed /\ In sampleMultihack sampleMixed)
    by (simpl; tauto).
  assert (Hpowerups : In samplePortalPowerup sampleMixed
                      /\ In samplePlayerPowerup sampleMixed)
    by (simpl; tauto).
  split.
  - destruct (groupItems_same_title sampleMixed sampleHeatsink sampleMultihack
                (proj1 Hmods) (proj2 Hmods) eq_refl) as [Htyped _]; [discriminate|].
    destruct Htyped as ((groupA & groupB & HgA & HinA & HgB & HinB & _ & HnotA & HnotB) & _);
      [right; right; left; reflexivity|].
    exists groupA, groupB. auto 10.
  - destruct (groupItems_same_title sampleMixed samplePortalPowerup samplePlayerPowerup
                (proj1 Hpowerups) (proj2 Hpowerups) eq_refl) as [_ Hplain]; [discriminate|].
    destruct Hplain as (_ & _ & Hgroup); [|reflexivity|exact Hgroup].
    intros [H|[H|[H|[]]]]; discriminate H.
Defined.

(** ** The portal location decoder *)

Lemma roundMagnitude_exact (z : Z) :
  0 <= z < 2 ^ 53 -> JsNum.roundMagnitude z = Fin z.
Proof.
  intros Hz. unfold JsNum.roundMagnitude.
  assert (Z.log2 z + 1 <= 53) as Hbits.
  { destruct (Z.eq_dec z 0) as [->|Hnz]; [simpl; lia|].
    assert (Z.log2 z < 53) by (apply Z.log2_lt_pow2; lia). lia. }
  apply Z.leb_le in Hbits. by rewrite Hbits.
Qed.

(** A finite result of [roundMagnitude] is either below [2^85] or a
    multiple of [2^32], and rounding cannot overflow below [2^1023]. *)
Lemma roundMagnitude_shape (z : Z) :
  0 <= z ->
  match JsNum.roundMagnitude z with
  | Fin v => 0 <= v /\ (v < 2 ^ 85 \/ v mod 2 ^ 32 = 0)
  | PosInf => 2 ^ 1023 <= z
  | _ => False
  end.
Proof.
  intros Hz. unfold JsNum.roundMagnitude.
  destruct (Z.leb_spec (Z.log2 z + 1) 53) as [Hbits|Hbits].
  - split; [lia|]. left.
    destruct (Z.eq_dec z 0) as [->|Hnz]; [lia|].
    assert (z < 2 ^ (Z.succ (Z.log2 z))) by (apply Z.log2_spec; lia).
    assert (2 ^ (Z.succ (Z.log2 z)) <= 2 ^ 53) by (apply Z.pow_le_mono_r; lia).
    assert (2 ^ 53 < 2 ^ 85) by (apply Z.pow_lt_mono_r; lia). lia.
  - set (e := Z.log2 z + 1 - 53).
    assert (He : 0 < e) by (unfold e; lia).
    assert (Hzpos : 0 < z) by (destruct (Z.eq_dec z 0) as [->|]; [simpl in Hbits|]; lia).
    pose proof (Z.log2_spec z Hzpos) as [Hlo Hhi].
    match goal with |- context [Z.shiftl ?q _] => set (q' := q) end.
    assert (Hq' : 0 <= q' <= 2 ^ 53).
    { assert (Hq : 0 <= Z.shiftr z e < 2 ^ 53).
      { rewrite Z.shiftr_div_pow2 by lia. split; [apply Z.div_pos; lia|].
        apply Z.div_lt_upper_bound; [lia|].
        rewrite <- Z.pow_add_r by lia.
        replace (e + 53) with (Z.succ (Z.log2 z)) by (unfold e; lia). exact Hhi. }
      unfold q'. destruct (_ || _); lia. }
    rewrite Z.shiftl_mul_pow2 by lia.
    assert (Hv : q' * 2 ^ e <= 2 ^ (Z.log2 z + 1)).
    { replace (Z.log2 z + 1) with (53 + e) by (unfold e; lia).
      rewrite Z.pow_add_r by lia. apply Z.mul_le_mono_nonneg_r; lia. }
    destruct (Z.leb_spec (2 ^ 1024) (q' * 2 ^ e)) as [Hinf|Hfin].
    + destruct (Z.le_gt_cases (2 ^ 1023) z) as [|Hsmall]; [done|].
      assert (Z.log2 z < 1023) by (apply Z.log2_lt_pow2; lia).
      assert (2 ^ (Z.log2 z + 1) <= 2 ^ 1023) by (apply Z.pow_le_mono_r; lia).
      assert (2 ^ 1023 < 2 ^ 1024) by (apply Z.pow_lt_mono_r; lia). lia.
    + split; [lia|].
      destruct (Z.le_gt_cases 32 e) as [Hbig|Hsmall].
      * right. replace e with (32 + (e - 32)) by lia.
        rewrite Z.pow_add_r by lia.
        rewrite (Z.mul_comm (2 ^ 32)), Z.mul_assoc. apply Z.mod_mul. lia.
      * left. assert (2 ^ (Z.log2 z + 1) < 2 ^ 85) by (apply Z.pow_lt_mono_r; lia). lia.
Qed.

Lemma hexDigit_range (c : ascii) (d : Z) :
  ParseInt.hexDigit c = Some d -> 0 <= d < 16.
Proof.
  unfold ParseInt.hexDigit.
  repeat match goal with
         | |- context [if ?b then _ else _] => destruct b eqn:?
         end; intros [= <-]; lia.
Qed.

Lemma digits_nonneg (s : string) (acc : option Z) (m : Z) :
  0 <= default 0 acc -> ParseInt.digits s acc = Some m -> 0 <= m.
Proof.
  revert acc. induction s as [|c s IH]; intros acc Hacc; simpl.
  - intros ->. exact Hacc.
  - destruct (ParseInt.hexDigit c) as [d|] eqn:Hd.
    + apply IH. simpl. apply hexDigit_range in Hd. lia.
    + intros ->. exact Hacc.
Qed.

(** Every finite value [parseInt] returns is below [2^85] in magnitude
    or a multiple of [2^32]. *)
Lemma parseInt16_shape (s : string) :
  match ParseInt.parseInt16 s with
  | Fin v => - 2 ^ 85 < v < 2 ^ 85 \/ v mod 2 ^ 32 = 0
  | _ => True
  end.
Proof.
  unfold ParseInt.parseInt16.
  destruct (ParseInt.stripSign (ParseInt.trimStart s)) as [negative s1].
  destruct (ParseInt.digits (ParseInt.stripPrefix s1) None) as [m|] eqn:Hm; [|exact I].
  assert (Hpos : 0 <= m) by (eapply digits_nonneg; [|exact Hm]; simpl; lia).
  pose proof (roundMagnitude_shape m Hpos) as Hshape.
  destruct (JsNum.roundMagnitude m) as [v| | |]; destruct negative; simpl; try exact I.
  - destruct Hshape as [Hv [Hsmall|Hmul]]; [left; lia|right].
    by apply Z_mod_zero_opp_full.
  - destruct Hshape as [Hv [Hsmall|Hmul]]; [left; lia|by right].
Qed.

Lemma toInt32_multiple (z : Z) : z mod 2 ^ 32 = 0 -> JsNum.toInt32 z = 0.
Proof. unfold JsNum.toInt32. by intros ->. Qed.

Lemma round_finite (z : Z) :
  - 2 ^ 1023 < z < 2 ^ 1023 -> JsNum.isFinite (JsNum.round z) = true.
Proof.
  intros Hz. unfold JsNum.round.
  destruct (Z.ltb_spec z 0) as [Hneg|Hpos].
  - pose proof (roundMagnitude_shape (- z) ltac:(lia)) as Hshape.
    destruct (JsNum.roundMagnitude (- z)); simpl; try reflexivity; lia.
  - pose proof (roundMagnitude_shape z Hpos) as Hshape.
    destruct (JsNum.roundMagnitude z); simpl; try reflexivity; lia.
Qed.

Lemma toSigned_finite (n : jsnum Z) :
  match n with
  | Fin v => - 2 ^ 85 < v < 2 ^ 85 \/ v mod 2 ^ 32 = 0
  | _ => True
  end ->
  JsNum.isFinite (toSigned n) = JsNum.isFinite n.
Proof.
  destruct n as [v| | |]; try reflexivity.
  intros Hshape. unfold toSigned.
  destruct (JsNum.bitAnd (Fin v) 2147483648 =? 0) eqn:Hand; [reflexivity|].
  simpl negb. cbv iota.
  destruct Hshape as [Hsmall|Hmul].
  - unfold minus2p32. simpl JsNum.minus. cbv iota.
    apply round_finite.
    assert (2 ^ 85 + 4294967296 < 2 ^ 1023) by (vm_compute; reflexivity).
    lia.
  - apply Z.eqb_neq in Hand. exfalso. apply Hand.
    unfold JsNum.bitAnd. by rewrite toInt32_multiple.
Qed.

Lemma decodePortalLocation_None (locationString : string) :
  decodePortalLocation locationString = None
  <-> JsString.includes "," locationString = false
      \/ JsNum.isFinite (ParseInt.parseInt16 (latHexOf locationString)) = false
      \/ JsNum.isFinite (ParseInt.parseInt16 (lonHexOf locationString)) = false.
Proof.
  unfold decodePortalLocation, latHexOf, lonHexOf.
  rewrite !(toSigned_finite _ (parseInt16_shape _)).
  destruct locationString as [|c s]; [simpl; tauto|].
  change (JsString.truthy (Some (String c s))) with true.
  generalize (JsString.split "," (String c s)). intros parts.
  destruct (JsString.includes "," (String c s)); simpl; [|tauto].
  destruct (JsNum.isFinite (ParseInt.parseInt16 (JsString.toString (JsString.part 0 parts)))),
           (JsNum.isFinite (ParseInt.parseInt16 (JsString.toString (JsString.part 1 parts))));
    simpl; split;
    try tauto; try discriminate; intuition discriminate.
Qed.

Ltac by_code_unit c H :=
  destruct c as [[] [] [] [] [] [] [] []]; try reflexivity;
  vm_compute in H; discriminate H.

Lemma trimStart_hex (c : ascii) (s : string) :
  is_Some (ParseInt.hexDigit c) -> ParseInt.trimStart (String c s) = String c s.
Proof. intros [d H]. by_code_unit c H. Qed.

Lemma stripSign_hex (c : ascii) (s : string) :
  is_Some (ParseInt.hexDigit c) -> ParseInt.stripSign (String c s) = (false, String c s).
Proof. intros [d H]. by_code_unit c H. Qed.

Lemma stripPrefix_hex (c : ascii) (s : string) :
  allHexDigits s = true -> ParseInt.stripPrefix (String c s) = String c s.
Proof.
  intros H. destruct s as [|c2 s2].
  - destruct c as [[] [] [] [] [] [] [] []]; reflexivity.
  - simpl in H. apply andb_true_iff in H as [H _].
    apply bool_decide_eq_true in H as [d H].
    destruct c as [[] [] [] [] [] [] [] []]; try reflexivity.
    by_code_unit c2 H.
Qed.

Lemma digits_allHex (s : string) (acc : Z) :
  allHexDigits s = true ->
  ParseInt.digits s (Some acc) = Some (hexValueFrom acc s).
Proof.
  revert acc. induction s as [|c s IH]; intros acc; simpl; [reflexivity|].
  intros H. apply andb_true_iff in H as [Hc Hs].
  apply bool_decide_eq_true in Hc as [d Hd]. rewrite Hd. simpl. by apply IH.
Qed.

Lemma hexValueFrom_bound (s : string) (acc : Z) :
  0 <= acc -> allHexDigits s = true ->
  0 <= hexValueFrom acc s < (acc + 1) * 16 ^ Z.of_nat (String.length s).
Proof.
  revert acc. induction s as [|c s IH]; intros acc Hacc; simpl String.length.
  - simpl. lia.
  - simpl allHexDigits. simpl hexValueFrom. intros H.
    apply andb_true_iff in H as [Hc Hs].
    apply bool_decide_eq_true in Hc as [d Hd]. rewrite Hd. simpl default.
    apply hexDigit_range in Hd.
    destruct (IH (16 * acc + d) ltac:(lia) Hs) as [Hlo Hhi].
    split; [exact Hlo|].
    rewrite Nat2Z.inj_succ, Z.pow_succ_r by lia.
    assert (0 < 16 ^ Z.of_nat (String.length s)) by (apply Z.pow_pos_nonneg; lia).
    nia.
Qed.

Lemma parseInt16_hex (s : string) :
  allHexDigits s = true -> s <> EmptyString ->
  ParseInt.parseInt16 s = JsNum.roundMagnitude (hexValue s).
Proof.
  destruct s as [|c s]; [done|]. intros H _.
  pose proof H as H'. simpl in H'. apply andb_true_iff in H' as [Hc Hs].
  apply bool_decide_eq_true in Hc.
  unfold ParseInt.parseInt16.
  rewrite trimStart_hex, stripSign_hex, stripPrefix_hex by done.
  destruct Hc as [d Hd]. unfold hexValue. simpl. rewrite Hd. simpl.
  by rewrite digits_allHex.
Qed.

Lemma land_sign_bit (x : Z) :
  Z.land x (- 2147483648) = x / 2 ^ 31 * 2 ^ 31.
Proof.
  change (- 2147483648) with (Z.lnot (Z.ones 31)).
  rewrite <- Z.ldiff_land, Z.ldiff_ones_r by lia.
  by rewrite Z.shiftl_mul_pow2, Z.shiftr_div_pow2 by lia.
Qed.

Lemma toSigned_pattern (v : Z) :
  0 <= v < 2 ^ 32 -> toSigned (Fin v) = Fin (signed32 v).
Proof.
  intros Hv. unfold toSigned, signed32, JsNum.bitAnd.
  change (JsNum.toInt32 2147483648) with (- 2147483648).
  rewrite land_sign_bit. unfold JsNum.toInt32.
  rewrite Z.mod_small by lia.
  destruct (Z.leb_spec (2 ^ 31) v) as [Hhigh|Hlow].
  - destruct (Z.ltb_spec v (2 ^ 31)) as [|_]; [lia|].
    replace ((v - 2 ^ 32) / 2 ^ 31) with (- 1)
      by (apply Z.div_unique with (r := v - 2 ^ 31); lia).
    simpl negb. cbv iota. unfold minus2p32. simpl JsNum.minus. cbv iota.
    unfold JsNum.round.
    destruct (Z.ltb_spec (v - 4294967296) 0) as [_|]; [|lia].
    rewrite roundMagnitude_exact by lia. simpl. f_equal. lia.
  - destruct (Z.ltb_spec v (2 ^ 31)) as [_|]; [|lia].
    rewrite Z.div_small by lia. reflexivity.
Qed.

Lemma toSigned_parseInt16_hex (s : string) :
  hexPattern32 s = true ->
  toSigned (ParseInt.parseInt16 s) = Fin (signed32 (hexValue s))
  /\ 0 <= hexValue s < 2 ^ 32
  /\ - 2 ^ 31 <= signed32 (hexValue s) < 2 ^ 31.
Proof.
  unfold hexPattern32. intros H.
  apply andb_true_iff in H as [H Hmax]. apply andb_true_iff in H as [Hhex Hmin].
  apply Z.leb_le in Hmax, Hmin.
  assert (Hne : s <> EmptyString) by (intros ->; simpl in Hmin; lia).
  assert (Hv : 0 <= hexValue s < 2 ^ 32).
  { pose proof (hexValueFrom_bound s 0 ltac:(lia) Hhex) as [Hlo Hhi].
    unfold hexValue. split; [exact Hlo|].
    assert (16 ^ Z.of_nat (String.length s) <= 16 ^ 8) by (apply Z.pow_le_mono_r; lia).
    change (16 ^ 8) with (2 ^ 32) in *. lia. }
  split; [|split; [exact Hv|]].
  - rewrite parseInt16_hex, roundMagnitude_exact by (done || lia).
    by apply toSigned_pattern.
  - unfold signed32. destruct (Z.ltb_spec (hexValue s) (2 ^ 31)); lia.
Qed.

Lemma split_without (sep : ascii) (s : string) :
  JsString.includes sep s = false -> JsString.split sep s = [s].
Proof.
  induction s as [|c s IH]; simpl; [reflexivity|].
  intros H. apply orb_false_iff in H as [Hc Hs].
  rewrite Hc, IH by done. reflexivity.
Qed.

Lemma split_append (sep : ascii) (a b : string) :
  JsString.includes sep a = false ->
  JsString.split sep (a +:+ String sep b) = a :: JsString.split sep b.
Proof.
  induction a as [|c a IH]; simpl.
  - intros _. by rewrite Ascii.eqb_refl.
  - intros H. apply orb_false_iff in H as [Hc Ha].
    rewrite Hc, IH by done. reflexivity.
Qed.

Lemma includes_append (sep : ascii) (a b : string) :
  JsString.includes sep (a +:+ String sep b) = true.
Proof.
  induction a as [|c a IH]; simpl.
  - by rewrite Ascii.eqb_refl.
  - rewrite IH. apply orb_true_r.
Qed.

Lemma allHexDigits_no_comma (s : string) :
  allHexDigits s = true -> JsString.includes "," s = false.
Proof.
  induction s as [|c s IH]; simpl; [reflexivity|].
  intros H. apply andb_true_iff in H as [Hc Hs].
  rewrite IH by done. rewrite orb_false_r.
  apply bool_decide_eq_true in Hc as [d Hd].
  destruct (Ascii.eqb_spec c ",") as [->|]; [|reflexivity].
  vm_compute in Hd. discriminate Hd.
Qed.

Lemma fields_of_pair (latHex lonHex : string) :
  JsString.includes "," latHex = false ->
  JsString.includes "," lonHex = false ->
  latHexOf (latHex +:+ "," +:+ lonHex) = latHex
  /\ lonHexOf (latHex +:+ "," +:+ lonHex) = lonHex.
Proof.
  intros Hlat Hlon. unfold latHexOf, lonHexOf.
  change ("," +:+ lonHex) with (String "," lonHex).
  by rewrite split_append, split_without.
Qed.

(** C6.  [decodePortalLocation] returns null exactly when the string has
    no comma or one of the two fields of the split does not parse to a
    finite number.  The fields of [lat,lon] are the two halves; a half
    that is a 32-bit pattern in hexadecimal decodes to its
    two's-complement value, divided by [1e6]; and
    ["0000000a,fffffff6"] gives [lat = 0.00001], [lon = -0.00001]. *)
Theorem decodePortalLocation_spec :
  (forall locationString,
     decodePortalLocation locationString = None
     <-> JsString.includes "," locationString = false
         \/ JsNum.isFinite (ParseInt.parseInt16 (latHexOf locationString)) = false
         \/ JsNum.isFinite (ParseInt.parseInt16 (lonHexOf locationString)) = false)
  /\ (forall latHex lonHex,
        JsString.includes "," latHex = false ->
        JsString.includes "," lonHex = false ->
        latHexOf (latHex +:+ "," +:+ lonHex) = latHex
        /\ lonHexOf (latHex +:+ "," +:+ lonHex) = lonHex)
  /\ (forall latHex lonHex,
        hexPattern32 latHex = true ->
        hexPattern32 lonHex = true ->
        decodePortalLocation (latHex +:+ "," +:+ lonHex)
        = Some (LatLon.mk (signed32 (hexValue latHex) # 1000000)
                          (signed32 (hexValue lonHex) # 1000000))
        /\ - 2 ^ 31 <= signed32 (hexValue latHex) < 2 ^ 31
        /\ - 2 ^ 31 <= signed32 (hexValue lonHex) < 2 ^ 31)
  /\ decodePortalLocation "0000000a,fffffff6"
     = Some (LatLon.mk (10 # 1000000) (-10 # 1000000))
  /\ Qeq (10 # 1000000) (1 # 100000)
  /\ Qeq (-10 # 1000000) (-1 # 100000).
Proof.
  split; [apply decodePortalLocation_None|].
  split; [apply fields_of_pair|].
  split; [|split; [reflexivity|split; reflexivity]].
  intros latHex lonHex Hlat Hlon.
  destruct (toSigned_parseInt16_hex latHex Hlat) as (Elat & _ & Rlat).
  destruct (toSigned_parseInt16_hex lonHex Hlon) as (Elon & _ & Rlon).
  split; [|split; [exact Rlat|exact Rlon]].
  assert (Hclat : JsString.includes "," latHex = false).
  { apply allHexDigits_no_comma. unfold hexPattern32 in Hlat.
    by repeat (apply andb_true_iff in Hlat as [Hlat _]). }
  assert (Hclon : JsString.includes "," lonHex = false).
  { apply allHexDigits_no_comma. unfold hexPattern32 in Hlon.
    by repeat (apply andb_true_iff in Hlon as [Hlon _]). }
  destruct (fields_of_pair latHex lonHex Hclat Hclon) as [Flat Flon].
  unfold latHexOf in Flat. unfold lonHexOf in Flon.
  unfold decodePortalLocation.
  change ("," +:+ lonHex) with (String "," lonHex) in *.
  rewrite includes_append, Flat, Flon, Elat, Elon.
  destruct latHex as [|c latHex]; [discriminate Hlat|]. reflexivity.
Qed.

Lemma decodePortalLocation_spec_witness :
  hexPattern32 "7fffffff" = true
  /\ hexPattern32 "80000000" = true
  /\ decodePortalLocation "7fffffff,80000000"
     = Some (LatLon.mk (2147483647 # 1000000) (-2147483648 # 1000000)).
Proof.
  split; [reflexivity|]. split; [reflexivity|].
  destruct decodePortalLocation_spec as (_ & _ & Hdecode & _).
  apply (Hdecode "7fffffff" "80000000"); reflexivity.
Defined.

(** ** The distance mode *)

Section DistanceMode.

Variable haversineKm : Q -> Q -> Q -> Q -> jsnum Q.
Variable userLocation : LatLon.t.

Lemma getDistance_range (entry : Entry) :
  getDistance haversineKm userLocation entry = PosInf
  \/ exists km, getDistance haversineKm userLocation entry = Fin km.
Proof.
  unfold getDistance.
  destruct (if JsString.truthy _ then _ else _) as [location|]; [|by left].
  destruct (haversineKm _ _ _ _) as [km| | |]; simpl; eauto.
Qed.

Lemma getDistance_unlocated (entry : Entry) :
  unlocated entry -> getDistance haversineKm userLocation entry = PosInf.
Proof.
  unfold unlocated, getDistance, firstLocationString.
  intros [-> | Hnone]; [reflexivity|].
  destruct (JsString.truthy _); [|reflexivity]. by rewrite Hnone.
Qed.

Lemma positive_minus (a b : jsnum Q) :
  (a = PosInf \/ exists x, a = Fin x) ->
  (b = PosInf \/ exists y, b = Fin y) ->
  JsNum.positiveQ (JsNum.minus Qminus a b) = false <-> distanceLe a b.
Proof.
  intros [->|[x ->]] [->|[y ->]]; simpl; try done.
  unfold Qle. destruct x as [xn xd], y as [yn yd]. simpl.
  rewrite Z.ltb_ge. lia.
Qed.

Lemma distanceLe_trans (a b c : jsnum Q) :
  distanceLe a b -> distanceLe b c -> distanceLe a c.
Proof.
  destruct a, b, c; simpl; try done. apply Qle_trans.
Qed.

Lemma distanceLe_total (a b : jsnum Q) :
  (a = PosInf \/ exists x, a = Fin x) ->
  (b = PosInf \/ exists y, b = Fin y) ->
  ~ distanceLe a b -> distanceLe b a.
Proof.
  intros [->|[x ->]] [->|[y ->]]; simpl; try done.
  intros H. apply Qlt_le_weak, Qnot_le_lt, H.
Qed.

(** The comparator of the distance mode orders by distance, in the
    selected direction. *)
Lemma keysDistanceCompare_order (directions : Directions.t) (a b : Entry) :
  staysBefore JsNum.positiveQ (keysDistanceCompare haversineKm directions userLocation) a b
  <-> if String.eqb (Directions.distance directions) "desc"
      then distanceLe (getDistance haversineKm userLocation b)
                      (getDistance haversineKm userLocation a)
      else distanceLe (getDistance haversineKm userLocation a)
                      (getDistance haversineKm userLocation b).
Proof.
  unfold staysBefore, keysDistanceCompare.
  destruct (String.eqb _ _); apply positive_minus; apply getDistance_range.
Qed.

Lemma distance_sorted (directions : Directions.t) (entries : list Entry) :
  StronglySorted
    (staysBefore JsNum.positiveQ (keysDistanceCompare haversineKm directions userLocation))
    (arraySort JsNum.positiveQ (keysDistanceCompare haversineKm directions userLocation)
       entries).
Proof.
  apply arraySort_sorted.
  - intros a b Hpos. apply keysDistanceCompare_order.
    assert (Hnot : ~ staysBefore JsNum.positiveQ
                     (keysDistanceCompare haversineKm directions userLocation) a b)
      by (unfold staysBefore; by rewrite Hpos).
    rewrite keysDistanceCompare_order in Hnot.
    destruct (String.eqb _ _); apply distanceLe_total; auto using getDistance_range.
  - intros a b c. rewrite !keysDistanceCompare_order.
    destruct (String.eqb _ _); eauto using distanceLe_trans.
Qed.

End DistanceMode.

(** C5.  In the distance mode a group whose first key has no portal
    location, or one that does not decode, gets the distance
    [Infinity].  It is kept in the output, it is the greatest element of
    the comparison in both directions, and so it stands in front of every
    group with a known distance when the direction is descending and
    behind every such group otherwise. *)
Theorem sortKeys_unlocated
    (localeCompare : string -> string -> Z) (haversineKm : Q -> Q -> Q -> Q -> jsnum Q)
    (userLocation : LatLon.t) (directions : Directions.t)
    (entries : list Entry) (entry : Entry) :
  In entry entries ->
  unlocated entry ->
  let sorted :=
    sortKeys localeCompare haversineKm entries (SortConfig.mk "distance" directions)
      (Some userLocation) in
  let compare := keysDistanceCompare haversineKm directions userLocation in
  getDistance haversineKm userLocation entry = PosInf
  /\ sorted ≡ₚ entries
  /\ In entry sorted
  /\ (forall other,
        distanceLe (getDistance haversineKm userLocation other)
                   (getDistance haversineKm userLocation entry))
  /\ (forall other,
        if String.eqb (Directions.distance directions) "desc"
        then staysBefore JsNum.positiveQ compare entry other
        else staysBefore JsNum.positiveQ compare other entry)
  /\ (forall front other back,
        sorted = front ++ other :: back ->
        In entry back ->
        String.eqb (Directions.distance directions) "desc" = true ->
        getDistance haversineKm userLocation other = PosInf)
  /\ (forall front other back,
        sorted = front ++ entry :: back ->
        In other back ->
        String.eqb (Directions.distance directions) "desc" = false ->
        getDistance haversineKm userLocation other = PosInf).
Proof.
  intros Hin Hun sorted compare.
  assert (Hsorted : sorted = arraySort JsNum.positiveQ compare entries) by reflexivity.
  pose proof (getDistance_unlocated haversineKm userLocation entry Hun) as Hinf.
  assert (Hperm : sorted ≡ₚ entries) by (rewrite Hsorted; apply arraySort_perm).
  assert (Hmax : forall other,
             distanceLe (getDistance haversineKm userLocation other)
                        (getDistance haversineKm userLocation entry)).
  { intros other. rewrite Hinf.
    destruct (getDistance_range haversineKm userLocation other) as [->|[km ->]]; exact I. }
  assert (Htop : forall other,
             distanceLe (getDistance haversineKm userLocation entry)
                        (getDistance haversineKm userLocation other) ->
             getDistance haversineKm userLocation other = PosInf).
  { intros other. rewrite Hinf.
    destruct (getDistance_range haversineKm userLocation other) as [->|[km ->]];
      simpl; tauto. }
  pose proof (distance_sorted haversineKm userLocation directions entries) as Hss.
  fold compare in Hss. rewrite <- Hsorted in Hss.
  split; [exact Hinf|]. split; [exact Hperm|].
  split. { apply list_elem_of_In. rewrite Hperm. by apply list_elem_of_In. }
  split; [exact Hmax|].
  split; [|split].
  - intros other. unfold compare.
    destruct (String.eqb (Directions.distance directions) "desc") eqn:Hdir;
      apply keysDistanceCompare_order; rewrite Hdir; apply Hmax.
  - intros front other back Hsplit Hback Hdir. apply Htop.
    rewrite Hsplit in Hss.
    pose proof (StronglySorted_split _ _ _ _ _ Hss Hback) as Hrel.
    unfold compare in Hrel. apply keysDistanceCompare_order in Hrel.
    by rewrite Hdir in Hrel.
  - intros front other back Hsplit Hback Hdir. apply Htop.
    rewrite Hsplit in Hss.
    pose proof (StronglySorted_split _ _ _ _ _ Hss Hback) as Hrel.
    unfold compare in Hrel. apply keysDistanceCompare_order in Hrel.
    by rewrite Hdir in Hrel.
Qed.

Lemma sortKeys_unlocated_witness :
  fst <$> keyEntries = ["Alpha"; "Beta"; "Gamma"]
  /\ keyEntries !! 1%nat = Some betaEntry
  /\ fst <$> sortKeys codeUnitCompare flatKm keyEntries
               (SortConfig.mk "distance" descending) (Some origin)
     = ["Beta"; "Gamma"; "Alpha"]
  /\ getDistance flatKm origin betaEntry = PosInf
  /\ In betaEntry (sortKeys codeUnitCompare flatKm keyEntries
                     (SortConfig.mk "distance" descending) (Some origin)).
Proof.
  split; [reflexivity|]. split; [reflexivity|]. split; [reflexivity|].
  assert (Hin : In betaEntry keyEntries) by (right; left; reflexivity).
  assert (Hun : unlocated betaEntry) by (left; reflexivity).
  destruct (sortKeys_unlocated codeUnitCompare flatKm origin descending
              keyEntries betaEntry Hin Hun) as (Hinf & _ & Hsorted & _).
  split; [exact Hinf|exact Hsorted].
Defined.

(** ** Tie-breaks of the comparators *)

(** C2, amended.  The Weapons, Mods and Powerups comparators end in a
    comparison of titles, and the default comparator and the
    alphabetical key mode are one: once the keys before it are equal the
    result is [localeCompare] on the two titles, the group keys up to the
    first bar.  The Resonators and Cubes comparators and the count, time
    and distance key modes compare nothing after their own keys and do
    not read the group key at all.  No comparator compares the group keys
    themselves: whatever the earlier keys are, the result is the same
    for any two entries with the same titles and groups.  Entries that
    the comparator does not order keep their input order, whatever the
    input: the sort is stable. *)
Theorem comparators_tie_break
    (localeCompare : string -> string -> Z) (a b : Entry) :
  let titles := localeCompare (titleOfKey a.1) (titleOfKey b.1) in
  let levelA := GroupMeta.level (Group.gmeta a.2) in
  let levelB := GroupMeta.level (Group.gmeta b.2) in
  (weaponRank (GroupMeta.weaponType (Group.gmeta a.2))
   = weaponRank (GroupMeta.weaponType (Group.gmeta b.2)) ->
   levelA = levelB ->
   weaponsCompare localeCompare a b = titles)
  /\ (modRank a = modRank b -> rarityRank a = rarityRank b ->
      JsString.orEmpty (GroupMeta.modType (Group.gmeta a.2))
      = JsString.orEmpty (GroupMeta.modType (Group.gmeta b.2)) ->
      modsCompare localeCompare a b = titles)
  /\ (countOf a = countOf b -> powerupsCompare localeCompare a b = titles)
  /\ titleCompare localeCompare a b = titles
  /\ (forall directions,
        keysAlphaCompare localeCompare directions a b
        = if String.eqb (Directions.alpha directions) "desc"
          then localeCompare (titleOfKey b.1) (titleOfKey a.1)
          else titles)
  /\ resonatorsCompare a b = levelB - levelA
  /\ (JsString.orEmpty (GroupMeta.cubeType (Group.gmeta a.2))
      = JsString.orEmpty (GroupMeta.cubeType (Group.gmeta b.2)) ->
      cubesCompare localeCompare a b = levelB - levelA)
  /\ (forall directions,
        keysCountCompare directions a b
        = if String.eqb (Directions.count directions) "desc"
          then countOf b - countOf a else countOf a - countOf b)
  /\ (forall directions,
        keysTimeCompare directions a b
        = if String.eqb (Directions.time directions) "desc"
          then latestOf b - latestOf a else latestOf a - latestOf b)
  /\ (forall haversineKm directions userLocation,
        keysDistanceCompare haversineKm directions userLocation a b
        = if String.eqb (Directions.distance directions) "desc"
          then JsNum.minus Qminus (getDistance haversineKm userLocation b)
                                  (getDistance haversineKm userLocation a)
          else JsNum.minus Qminus (getDistance haversineKm userLocation a)
                                  (getDistance haversineKm userLocation b))
  /\ (forall a' b',
        sameTitleAndGroup a a' -> sameTitleAndGroup b b' ->
        weaponsCompare localeCompare a b = weaponsCompare localeCompare a' b'
        /\ resonatorsCompare a b = resonatorsCompare a' b'
        /\ cubesCompare localeCompare a b = cubesCompare localeCompare a' b'
        /\ modsCompare localeCompare a b = modsCompare localeCompare a' b'
        /\ powerupsCompare localeCompare a b = powerupsCompare localeCompare a' b'
        /\ titleCompare localeCompare a b = titleCompare localeCompare a' b'
        /\ (forall directions,
              keysAlphaCompare localeCompare directions a b
              = keysAlphaCompare localeCompare directions a' b'
              /\ keysCountCompare directions a b = keysCountCompare directions a' b'
              /\ keysTimeCompare directions a b = keysTimeCompare directions a' b')
        /\ (forall haversineKm directions userLocation,
              keysDistanceCompare haversineKm directions userLocation a b
              = keysDistanceCompare haversineKm directions userLocation a' b'))
  /\ (forall keyA keyB,
        resonatorsCompare (keyA, a.2) (keyB, b.2) = resonatorsCompare a b
        /\ cubesCompare localeCompare (keyA, a.2) (keyB, b.2)
           = cubesCompare localeCompare a b
        /\ (forall directions,
              keysCountCompare directions (keyA, a.2) (keyB, b.2)
              = keysCountCompare directions a b
              /\ keysTimeCompare directions (keyA, a.2) (keyB, b.2)
                 = keysTimeCompare directions a b)
        /\ (forall haversineKm directions userLocation,
              keysDistanceCompare haversineKm directions userLocation (keyA, a.2) (keyB, b.2)
              = keysDistanceCompare haversineKm directions userLocation a b))
  /\ (forall (N : Type) (positive : N -> bool) (compare : Entry -> Entry -> N)
             (tied : Entry -> bool) (entries : list Entry),
        (forall x y, tied x = true -> tied y = true -> positive (compare x y) = false) ->
        List.filter tied (arraySort positive compare entries) = List.filter tied entries)
  /\ (forall haversineKm entries sortConfig userLocation level,
        let ofLevel := fun e : Entry => GroupMeta.level (Group.gmeta e.2) =? level in
        List.filter ofLevel
          (sortTypeGroups localeCompare haversineKm entries "Resonators" sortConfig
             userLocation)
        = List.filter ofLevel entries)
  /\ (forall haversineKm entries sortConfig userLocation cubeType level,
        let ofKind := fun e : Entry =>
          String.eqb (cubeTypeOf e) cubeType
          && (GroupMeta.level (Group.gmeta e.2) =? level) in
        List.filter ofKind
          (sortTypeGroups localeCompare haversineKm entries "Cubes" sortConfig userLocation)
        = List.filter ofKind entries)
  /\ (forall haversineKm entries directions userLocation count,
        let ofCount := fun e : Entry => countOf e =? count in
        List.filter ofCount
          (sortKeys localeCompare haversineKm entries (SortConfig.mk "count" directions)
             userLocation)
        = List.filter ofCount entries)
  /\ (forall haversineKm entries directions userLocation time,
        let ofTime := fun e : Entry => latestOf e =? time in
        List.filter ofTime
          (sortKeys localeCompare haversineKm entries (SortConfig.mk "time" directions)
             userLocation)
        = List.filter ofTime entries)
  /\ (forall haversineKm entries directions userLocation,
        List.filter (unknownDistance haversineKm userLocation)
          (sortKeys localeCompare haversineKm entries (SortConfig.mk "distance" directions)
             (Some userLocation))
        = List.filter (unknownDistance haversineKm userLocation) entries)
  /\ (forall (N : Type) (positive : N -> bool) (compare : Entry -> Entry -> N)
             (entries : list Entry),
        StronglySorted (staysBefore positive compare) entries ->
        arraySort positive compare entries = entries).
Proof.
  intros titles levelA levelB.
  split.
  { intros Hrank Hlevel. unfold weaponsCompare.
    rewrite !weaponRank_table, Hrank, Z.eqb_refl. simpl.
    fold levelA levelB. rewrite Hlevel, Z.eqb_refl. reflexivity. }
  split.
  { intros Hrank Hrarity Htype. unfold modsCompare.
    unfold modRank in Hrank. unfold rarityRank in Hrarity.
    rewrite Hrank, Hrarity, Htype, !Z.eqb_refl, String.eqb_refl. reflexivity. }
  split.
  { intros Hcount. unfold powerupsCompare. rewrite Hcount, Z.eqb_refl. reflexivity. }
  split; [reflexivity|]. split; [reflexivity|]. split; [reflexivity|].
  split.
  { intros Htype. unfold cubesCompare. rewrite Htype, String.eqb_refl. reflexivity. }
  split; [reflexivity|]. split; [reflexivity|]. split; [reflexivity|].
  split.
  { intros a' b' [Hta Hga] [Htb Hgb].
    unfold weaponsCompare, resonatorsCompare, cubesCompare, modsCompare, powerupsCompare,
      keysAlphaCompare, keysCountCompare, keysTimeCompare, keysDistanceCompare,
      titleCompare, countOf, latestOf, getDistance.
    rewrite Hta, Htb, Hga, Hgb. repeat split. }
  split.
  { intros keyA keyB. repeat split. }
  split.
  { intros N positive compare tied entries Hties. by apply arraySort_filter. }
  split.
  { intros haversineKm entries sortConfig userLocation level ofLevel.
    change (sortTypeGroups localeCompare haversineKm entries "Resonators" sortConfig
              userLocation)
      with (arraySort JsNum.positiveZ resonatorsCompare entries).
    apply arraySort_filter. intros x y Hx Hy. unfold ofLevel in Hx, Hy.
    apply Z.eqb_eq in Hx, Hy. unfold JsNum.positiveZ, resonatorsCompare.
    apply Z.ltb_ge. lia. }
  split.
  { intros haversineKm entries sortConfig userLocation cubeType level ofKind.
    change (sortTypeGroups localeCompare haversineKm entries "Cubes" sortConfig
              userLocation)
      with (arraySort JsNum.positiveZ (cubesCompare localeCompare) entries).
    apply arraySort_filter. intros x y Hx Hy. unfold ofKind in Hx, Hy.
    apply andb_true_iff in Hx as [Hxt Hxl]. apply andb_true_iff in Hy as [Hyt Hyl].
    apply String.eqb_eq in Hxt, Hyt. apply Z.eqb_eq in Hxl, Hyl.
    unfold cubeTypeOf in Hxt, Hyt.
    unfold JsNum.positiveZ, cubesCompare. rewrite Hxt, Hyt, String.eqb_refl. simpl.
    apply Z.ltb_ge. lia. }
  split.
  { intros haversineKm entries directions userLocation count ofCount.
    change (sortKeys localeCompare haversineKm entries (SortConfig.mk "count" directions)
              userLocation)
      with (arraySort JsNum.positiveZ (keysCountCompare directions) entries).
    apply arraySort_filter. intros x y Hx Hy. unfold ofCount in Hx, Hy.
    apply Z.eqb_eq in Hx, Hy. unfold JsNum.positiveZ, keysCountCompare.
    rewrite Hx, Hy. by destruct (String.eqb _ _); rewrite Z.sub_diag. }
  split.
  { intros haversineKm entries directions userLocation time ofTime.
    change (sortKeys localeCompare haversineKm entries (SortConfig.mk "time" directions)
              userLocation)
      with (arraySort JsNum.positiveZ (keysTimeCompare directions) entries).
    apply arraySort_filter. intros x y Hx Hy. unfold ofTime in Hx, Hy.
    apply Z.eqb_eq in Hx, Hy. unfold JsNum.positiveZ, keysTimeCompare.
    rewrite Hx, Hy. by destruct (String.eqb _ _); rewrite Z.sub_diag. }
  split.
  { intros haversineKm entries directions userLocation.
    change (sortKeys localeCompare haversineKm entries
              (SortConfig.mk "distance" directions) (Some userLocation))
      with (arraySort JsNum.positiveQ
              (keysDistanceCompare haversineKm directions userLocation) entries).
    apply arraySort_filter. intros x y Hx Hy. unfold unknownDistance in Hx, Hy.
    unfold keysDistanceCompare. cbv zeta.
    destruct (getDistance_range haversineKm userLocation x) as [Hdx|[km Hdx]];
      rewrite Hdx in Hx |- *; [|discriminate Hx].
    destruct (getDistance_range haversineKm userLocation y) as [Hdy|[km Hdy]];
      rewrite Hdy in Hy |- *; [|discriminate Hy].
    by destruct (String.eqb _ _). }
  intros N positive compare entries. apply arraySort_fixed.
Qed.

Lemma comparators_tie_break_witness :
  weaponsCompare codeUnitCompare depotEntry arenaEntry = codeUnitCompare "Depot" "Arena"
  /\ weaponsCompare codeUnitCompare depotEntry arenaEntry
     = weaponsCompare codeUnitCompare
         ("Depot|ULTRA_STRIKE", depotEntry.2) ("Arena|FLIP_CARD", arenaEntry.2)
  /\ List.filter (fun e => countOf e =? 1)
       (arraySort JsNum.positiveZ (keysCountCompare sampleDirections)
          [betaEntry; alphaEntry])
     = [betaEntry; alphaEntry]
  /\ arraySort JsNum.positiveZ (keysCountCompare sampleDirections) [betaEntry; alphaEntry]
     = [betaEntry; alphaEntry].
Proof.
  destruct (comparators_tie_break codeUnitCompare depotEntry arenaEntry)
    as (Hweapons & _ & _ & _ & _ & _ & _ & _ & _ & _ & Hsame & _ & Hstable
        & _ & _ & _ & _ & _ & Hfixed).
  split; [apply Hweapons; reflexivity|].
  split; [apply Hsame; split; reflexivity|].
  split.
  - etrans; [apply Hstable|reflexivity].
    intros x y Hx Hy. apply Z.eqb_eq in Hx, Hy.
    unfold JsNum.positiveZ, keysCountCompare. simpl String.eqb. cbv zeta iota.
    rewrite Hx, Hy. reflexivity.
  - apply Hfixed. repeat constructor.
Defined.

(** C2, as stated, fails: in the count mode two key groups of equal size
    compare as equal whatever their titles, and come out in the order
    they went in. *)
Lemma count_mode_ignores_titles :
  keysCountCompare sampleDirections alphaEntry betaEntry = 0
  /\ codeUnitCompare (titleOfKey alphaEntry.1) (titleOfKey betaEntry.1) <> 0
  /\ ~ FallsBackToTitle codeUnitCompare (keysCountCompare sampleDirections)
  /\ sortKeys codeUnitCompare flatKm [alphaEntry; betaEntry] (sampleConfig "count") None
     = [alphaEntry; betaEntry]
  /\ sortKeys codeUnitCompare flatKm [betaEntry; alphaEntry] (sampleConfig "count") None
     = [betaEntry; alphaEntry].
Proof.
  split; [reflexivity|]. split; [by vm_compute|].
  split; [|split; reflexivity].
  intros Hclaim. destruct (Hclaim alphaEntry betaEntry eq_refl) as [Htitle _].
  vm_compute in Htitle. discriminate Htitle.
Qed.

(** * Further properties *)

(** ** The container expander: size, provenance, lookups *)

(** X1.  The expander never loses a triple: the output has the length of
    the input plus the number of synthesized triples. *)
Theorem extractNestedItems_never_shrinks (itemArray : list Item) :
  (List.length itemArray <= List.length (extractNestedItems itemArray))%nat
  /\ List.length (extractNestedItems itemArray)
     = (List.length itemArray + nestedCount (buildItemMap itemArray) itemArray)%nat.
Proof.
  pose proof (extractNestedItems_length itemArray) as H. split; [lia|exact H].
Qed.

Lemma blocks_without_containers (m : gmap string Item) (items : list Item) :
  Forall (fun item => container (itemMeta item) ≫= stackableItems = None) items ->
  concat (blockOf m <$> items) = items.
Proof.
  induction 1 as [|item items Hitem _ IH]; [reflexivity|].
  csimpl. unfold blockOf at 1, nestedOf. rewrite Hitem. simpl.
  f_equal. exact IH.
Qed.

(** X2.  An inventory in which no triple declares stack descriptors comes
    back unchanged. *)
Theorem extractNestedItems_without_containers (itemArray : list Item) :
  Forall (fun item => container (itemMeta item) ≫= stackableItems = None) itemArray ->
  extractNestedItems itemArray = itemArray.
Proof.
  intros Hnone. rewrite extractNestedItems_blocks.
  by apply blocks_without_containers.
Qed.

Lemma extractNestedItems_without_containers_witness :
  extractNestedItems weaponItems = weaponItems.
Proof.
  apply extractNestedItems_without_containers.
  repeat constructor.
Defined.

Lemma enrich_storedIn (id : string) (meta m : Meta) :
  _storedIn (enrich id meta m) = Some (StoredIn.mk id (containerTypeOf meta)).
Proof.
  unfold enrich, containerTypeOf, JsString.orElse, JsString.truthy. simpl.
  destruct (field Resource.resourceType (resource meta)) as [type|]; [|reflexivity].
  by destruct (String.eqb type EmptyString).
Qed.

Lemma nestedOfStack_tagged (m : gmap string Item) (id : string) (meta : Meta)
    (s : StackableItem) (triple : Item) :
  In triple (nestedOfStack m id meta s) ->
  _storedIn (itemMeta triple) = Some (StoredIn.mk id (containerTypeOf meta)).
Proof.
  unfold nestedOfStack.
  destruct (itemGuids s) as [guids|], (exampleGameEntity s) as [[[tid tts] tmeta]|].
  - intros Hin. apply in_map_iff in Hin as (g & <- & _). apply enrich_storedIn.
  - intros Hin. apply list_elem_of_In, list_elem_of_omap in Hin as (g & _ & Hg).
    destruct (m !! g) as [found|]; [|discriminate]. injection Hg as <-.
    apply enrich_storedIn.
  - intros [<-|[]]. apply enrich_storedIn.
  - intros [].
Qed.

Lemma nestedOf_tagged (m : gmap string Item) (item triple : Item) :
  In triple (nestedOf m item) ->
  is_Some (container (itemMeta item) ≫= stackableItems)
  /\ _storedIn (itemMeta triple)
     = Some (StoredIn.mk (itemId item) (containerTypeOf (itemMeta item))).
Proof.
  unfold nestedOf.
  destruct (container (itemMeta item) ≫= stackableItems) as [stack|]; [|intros []].
  intros Hin. split; [eauto|].
  apply in_concat in Hin as (l & Hl & Hin).
  apply in_map_iff in Hl as (s & <- & _).
  by eapply nestedOfStack_tagged.
Qed.

Lemma output_origin (itemArray : list Item) (triple : Item) :
  In triple (extractNestedItems itemArray) ->
  In triple itemArray \/ synthesizedFrom itemArray triple.
Proof.
  rewrite extractNestedItems_blocks. intros Hin.
  apply in_concat in Hin as (l & Hl & Hin).
  apply in_map_iff in Hl as (item & <- & Hitem).
  destruct Hin as [<-|Hin]; [by left|right].
  exists item. apply nestedOf_tagged in Hin as [Hstack Htag]. auto.
Qed.

(** X3.  Every triple of the output is a triple of the input or carries
    the provenance tag of a container of the input: the container's id,
    and the container's own resource type or, when that is absent or
    empty, the literal CONTAINER. *)
Theorem extractNestedItems_provenance (itemArray : list Item) :
  Forall (fun triple => In triple itemArray \/ synthesizedFrom itemArray triple)
         (extractNestedItems itemArray).
Proof. apply List.Forall_forall. apply output_origin. Qed.

Lemma fold_insert_last (items : list Item) (m : gmap string Item) (guid : string) :
  fold_left (fun itemMap item => <[itemId item := item]> itemMap) items m !! guid
  = match lastWithId guid items with
    | Some found => Some found
    | None => m !! guid
    end.
Proof.
  unfold lastWithId. revert m. induction items as [|item items IH]; intros m; simpl.
  - reflexivity.
  - rewrite IH. case_bool_decide as Hid.
    + rewrite last_cons.
      destruct (last (List.filter _ items)); [reflexivity|].
      by rewrite <- Hid, lookup_insert_eq.
    + destruct (last (List.filter _ items)); [reflexivity|].
      by rewrite lookup_insert_ne.
Qed.

(** X4.  The id lookup of the expander holds, for every id, the last
    triple of the input with that id.  A stack descriptor that has only a
    GUID list therefore yields one triple per GUID that is the id of
    some input triple, made from the last such triple, and nothing for a
    GUID that is no id of the input. *)
Theorem guid_lookup_takes_last (itemArray : list Item) :
  (forall guid, buildItemMap itemArray !! guid = lastWithId guid itemArray)
  /\ (forall id meta expandedItems guids,
        expandStackable (buildItemMap itemArray) id meta expandedItems
          (mkStackableItem (Some guids) None)
        = expandedItems
          ++ omap (fun guid =>
                     (fun found : Item =>
                        (itemId found, itemTs found, enrich id meta (itemMeta found)))
                       <$> lastWithId guid itemArray)
                  guids).
Proof.
  assert (Hlast : forall guid, buildItemMap itemArray !! guid = lastWithId guid itemArray).
  { intros guid. unfold buildItemMap. rewrite fold_insert_last, lookup_empty.
    by destruct (lastWithId guid itemArray). }
  split; [exact Hlast|].
  intros id meta expandedItems guids. rewrite expandStackable_spec.
  unfold nestedOfStack. simpl. f_equal.
  induction guids as [|g guids IH]; [reflexivity|].
  csimpl. by rewrite IH, Hlast.
Qed.

Lemma isCapsuled_tagged (meta source : Meta) (id : string) :
  _storedIn meta = Some (StoredIn.mk id (containerTypeOf source)) ->
  isCapsuled meta
  = arrayIncludes CONSTANTS.ITEM_TYPES.CAPSULE_TYPES
      (field Resource.resourceType (resource source)).
Proof.
  unfold isCapsuled, containerTypeOf. intros ->. simpl.
  destruct (field Resource.resourceType (resource source)) as [type|]; [|reflexivity].
  destruct (String.eqb_spec type EmptyString) as [->|Hne]; [reflexivity|].
  simpl. destruct (String.eqb_spec type EmptyString); [done|reflexivity].
Qed.

Lemma isCapsuled_true (meta : Meta) :
  isCapsuled meta = true
  <-> exists tag,
        _storedIn meta = Some tag
        /\ In (StoredIn.containerType tag) CONSTANTS.ITEM_TYPES.CAPSULE_TYPES.
Proof.
  unfold isCapsuled, JsString.truthy.
  destruct (_storedIn meta) as [[id containerType]|]; simpl.
  - destruct (String.eqb_spec containerType EmptyString) as [->|Hne]; simpl.
    + split; [discriminate|]. intros (tag & [= <-] & Hin). exfalso.
      simpl in Hin. intuition discriminate.
    + rewrite bool_decide_eq_true, list_elem_of_In. split.
      * intros Hin. eauto.
      * by intros (tag & [= <-] & Hin).
  - split; [discriminate|]. by intros (tag & Htag & _).
Qed.

(** X5.  [isCapsuled] on the output of the expander.  A triple counts as
    capsuled exactly when it carries a provenance tag whose container
    type is one of the capsule types.  Every triple synthesized from a
    container of the input is in the output, carries the tag of that very
    container (its id and its type), and counts as capsuled exactly when
    that container's own resource type is one of the capsule types; so
    the contents of a container without resource type, tagged CONTAINER,
    do not, and a triple without provenance tag never does. *)
Theorem isCapsuled_after_expansion (itemArray : list Item) :
  Forall (fun triple =>
            In triple itemArray
            \/ exists source,
                 In source itemArray
                 /\ is_Some (container (itemMeta source) ≫= stackableItems)
                 /\ _storedIn (itemMeta triple)
                    = Some (StoredIn.mk (itemId source) (containerTypeOf (itemMeta source)))
                 /\ isCapsuled (itemMeta triple)
                    = arrayIncludes CONSTANTS.ITEM_TYPES.CAPSULE_TYPES
                        (field Resource.resourceType (resource (itemMeta source))))
         (extractNestedItems itemArray)
  /\ (forall source triple,
        In source itemArray ->
        In triple (nestedOf (buildItemMap itemArray) source) ->
        In triple (extractNestedItems itemArray)
        /\ _storedIn (itemMeta triple)
           = Some (StoredIn.mk (itemId source) (containerTypeOf (itemMeta source)))
        /\ isCapsuled (itemMeta triple)
           = arrayIncludes CONSTANTS.ITEM_TYPES.CAPSULE_TYPES
               (field Resource.resourceType (resource (itemMeta source))))
  /\ (forall meta,
        isCapsuled meta = true
        <-> exists tag,
              _storedIn meta = Some tag
              /\ In (StoredIn.containerType tag)
                    ["CAPSULE"; "KEY_CAPSULE"; "KINETIC_CAPSULE";
                     "QUANTUM_CAPSULE"; "INTEREST_CAPSULE"])
  /\ (forall meta, _storedIn meta = None -> isCapsuled meta = false)
  /\ (forall id meta m,
        field Resource.resourceType (resource meta) = None ->
        isCapsuled (enrich id meta m) = false).
Proof.
  split; [|split; [|split; [|split]]].
  - apply List.Forall_forall. intros triple Hin.
    apply output_origin in Hin as [Hin|(source & Hsrc & Hstack & Htag)]; [by left|right].
    exists source. split; [exact Hsrc|]. split; [exact Hstack|]. split; [exact Htag|].
    by eapply isCapsuled_tagged.
  - intros source triple Hsrc Hin. split; [|split].
    + rewrite extractNestedItems_blocks. apply in_concat.
      exists (blockOf (buildItemMap itemArray) source). split.
      * apply in_map_iff. eauto.
      * right. exact Hin.
    + by apply nestedOf_tagged in Hin as [_ Htag].
    + apply nestedOf_tagged in Hin as [_ Htag]. by eapply isCapsuled_tagged.
  - apply isCapsuled_true.
  - intros meta Hnone. unfold isCapsuled. by rewrite Hnone.
  - intros id meta m Hnone.
    rewrite (isCapsuled_tagged _ meta id) by apply enrich_storedIn.
    by rewrite Hnone.
Qed.

Lemma isCapsuled_after_expansion_witness :
  isCapsuled (keyMeta "Town Hall" None) = false
  /\ isCapsuled (enrich "c" noMeta (keyMeta "Town Hall" None)) = false
  /\ (exists triple,
        nestedOf (buildItemMap sampleInventory) sampleCapsule = [triple]
        /\ In triple (extractNestedItems sampleInventory)
        /\ _storedIn (itemMeta triple) = Some (StoredIn.mk "capsule-1" "CAPSULE")
        /\ isCapsuled (itemMeta triple) = true).
Proof.
  destruct (isCapsuled_after_expansion sampleInventory)
    as (_ & Hnested & _ & Hplain & Hfallback).
  split; [by apply Hplain|]. split; [by apply Hfallback|].
  eexists. split; [reflexivity|].
  apply (Hnested sampleCapsule); left; reflexivity.
Defined.

(** ** The classifier *)

Lemma getDisplayType_cases (resourceType : option string) :
  In (getDisplayType resourceType) namedCategories
  \/ getDisplayType resourceType = resourceType.
Proof.
  unfold getDisplayType.
  repeat match goal with
         | |- context [if ?b then _ else _] => destruct b
         end;
    try (left; simpl; tauto).
  by right.
Qed.

(** X6.  [getDisplayType] answers one of the eight named categories or
    hands its argument back, and classifying its own answer changes
    nothing: no category name is itself a raw type of another
    category. *)
Theorem getDisplayType_idempotent (resourceType : option string) :
  (In (getDisplayType resourceType) namedCategories
   \/ getDisplayType resourceType = resourceType)
  /\ getDisplayType (getDisplayType resourceType) = getDisplayType resourceType.
Proof.
  split; [apply getDisplayType_cases|].
  destruct (getDisplayType_cases resourceType) as [Hin|Hsame].
  - simpl in Hin.
    repeat (destruct Hin as [<-|Hin]; [reflexivity|]). destruct Hin.
  - by rewrite !Hsame.
Qed.

(** ** The item filter and the filter options *)

Lemma keepItem_not_drone (filters : Filters.t) (item : Item) :
  keepItem filters item = true -> isDrone item = false.
Proof.
  destruct item as [[id ts] meta]. unfold keepItem, isDrone, itemMeta. simpl.
  by destruct (strictEq (resolvedResourceType meta) "DRONE").
Qed.

(** X7.  [filterItems] never returns a drone, whatever the filter; it
    returns a sublist of its input, in input order; and without a rarity
    filter the drones are all it removes. *)
Theorem filterItems_drops_drones (items : list Item) (filters : Filters.t) :
  Forall (fun item => isDrone item = false) (filterItems items filters)
  /\ filterItems items filters `sublist_of` items
  /\ (JsString.truthy (Filters.rarity filters) = false ->
      filterItems items filters = List.filter (fun item => negb (isDrone item)) items).
Proof.
  split; [|split].
  - apply List.Forall_forall. intros item Hin.
    apply filter_In in Hin as [_ Hkeep]. by eapply keepItem_not_drone.
  - unfold filterItems. induction items as [|item items IH]; simpl; [constructor|].
    destruct (keepItem filters item); by constructor.
  - intros Hoff. unfold filterItems. apply filter_ext. intros [[id ts] meta].
    unfold keepItem, isDrone, itemMeta. simpl. rewrite Hoff. simpl.
    by destruct (strictEq (resolvedResourceType meta) "DRONE").
Qed.

Lemma filterItems_drops_drones_witness :
  filterItems sampleWithDrone (Filters.mk (Some EmptyString))
  = [sampleHeatsink; sampleCapsule].
Proof.
  destruct (filterItems_drops_drones sampleWithDrone (Filters.mk (Some EmptyString)))
    as (_ & _ & Hoff).
  rewrite Hoff; reflexivity.
Defined.

Section JsSetFacts.
Context {A : Type} `{EqDecision A}.
Implicit Types (x y : A) (s : list A).

Lemma elem_of_add x y s : y ∈ JsSet.add x s <-> y = x \/ y ∈ s.
Proof.
  unfold JsSet.add. case_bool_decide as Hx.
  - split; [by right|]. by intros [->|].
  - rewrite elem_of_app, list_elem_of_singleton. tauto.
Qed.

Lemma NoDup_add x s : NoDup s -> NoDup (JsSet.add x s).
Proof.
  intros Hs. unfold JsSet.add. case_bool_decide as Hx; [exact Hs|].
  apply NoDup_app. split; [exact Hs|]. split; [|apply NoDup_singleton].
  intros y Hy Hy'. apply list_elem_of_singleton in Hy' as ->. by apply Hx.
Qed.
End JsSetFacts.

Lemma truthy_Some (o : option string) :
  JsString.truthy o = true ->
  o = Some (JsString.orEmpty o) /\ JsString.orEmpty o <> EmptyString.
Proof.
  destruct o as [s|]; [|discriminate]. simpl.
  destruct (String.eqb_spec s EmptyString); [discriminate|]. by intros _.
Qed.

Lemma elem_of_addIfTruthy (value : option string) (s : list string) (r : string) :
  r ∈ addIfTruthy value s
  <-> (JsString.truthy value = true /\ value = Some r) \/ r ∈ s.
Proof.
  unfold addIfTruthy. destruct (JsString.truthy value) eqn:Ht.
  - rewrite elem_of_add. apply truthy_Some in Ht as [Hv _].
    split; [intros [->|]; [left|right]; auto|].
    intros [[_ ->]|]; [by left|by right].
  - split; [by right|]. by intros [[? _]|].
Qed.

Lemma NoDup_addIfTruthy (value : option string) (s : list string) :
  NoDup s -> NoDup (addIfTruthy value s).
Proof. unfold addIfTruthy. destruct (JsString.truthy value); [apply NoDup_add|done]. Qed.

Lemma populateStep_drone (options : FilterOptions.t) (item : Item) :
  isDrone item = true -> populateStep options item = options.
Proof.
  unfold populateStep, isDrone. intros Hd. rewrite Hd.
  assert (JsString.truthy (resolvedResourceType (itemMeta item)) = true) as ->;
    [|reflexivity].
  unfold strictEq in Hd. apply bool_decide_eq_true in Hd. by rewrite Hd.
Qed.

Lemma populateStep_rarities (options : FilterOptions.t) (item : Item) (r : string) :
  isDrone item = false ->
  r ∈ FilterOptions.rarities (populateStep options item)
  <-> r ∈ FilterOptions.rarities options
      \/ (JsString.truthy (resourceLevelRarity (itemMeta item)) = true
          /\ resourceLevelRarity (itemMeta item) = Some r)
      \/ (JsString.truthy (field ModResource.rarity (modResource (itemMeta item))) = true
          /\ field ModResource.rarity (modResource (itemMeta item)) = Some r).
Proof.
  unfold populateStep, isDrone. intros ->. rewrite andb_false_r. simpl.
  rewrite !elem_of_addIfTruthy. tauto.
Qed.

Lemma populateStep_from (seen : list Item) (options : FilterOptions.t) (item : Item) :
  optionsFrom seen options -> optionsFrom (seen ++ [item]) (populateStep options item).
Proof.
  intros (Ht & Hr & Htypes & Hrarities).
  assert (Hold : forall x, In x seen -> In x (seen ++ [item]))
    by (intros x Hx; apply in_or_app; by left).
  assert (Hnew : In item (seen ++ [item]))
    by (apply in_or_app; right; by left).
  destruct (isDrone item) eqn:Hd.
  { rewrite populateStep_drone by done.
    split; [exact Ht|]. split; [exact Hr|]. split.
    - intros type Hin. destruct (Htypes type Hin) as (x & Hx & Hrest). eauto.
    - intros r Hin. destruct (Hrarities r Hin) as (x & Hx & Hrest). eauto. }
  split; [|split; [|split]].
  - unfold populateStep. fold (isDrone item). rewrite Hd, andb_false_r. simpl.
    destruct (JsString.truthy _); [by apply NoDup_add|exact Ht].
  - unfold populateStep. fold (isDrone item). rewrite Hd, andb_false_r. simpl.
    by do 2 apply NoDup_addIfTruthy.
  - intros type. unfold populateStep. fold (isDrone item).
    rewrite Hd, andb_false_r. simpl.
    destruct (JsString.truthy (resolvedResourceType (itemMeta item))) eqn:Htr.
    + rewrite elem_of_add. intros [->|Hin]; [eauto 6|].
      destruct (Htypes type Hin) as (x & Hx & Hrest). eauto.
    + intros Hin. destruct (Htypes type Hin) as (x & Hx & Hrest). eauto.
  - intros r. rewrite populateStep_rarities by done.
    intros [Hin|[[Htr Hv]|[Htr Hv]]].
    + destruct (Hrarities r Hin) as (x & Hx & Hrest). eauto.
    + exists item. apply truthy_Some in Htr as [Hs Hne]. rewrite Hv in Hne. eauto 6.
    + exists item. apply truthy_Some in Htr as [Hs Hne]. rewrite Hv in Hne. eauto 6.
Qed.

Lemma populate_fold_from (items seen : list Item) (options : FilterOptions.t) :
  optionsFrom seen options ->
  optionsFrom (seen ++ items) (fold_left populateStep items options).
Proof.
  revert seen options. induction items as [|item items IH]; intros seen options H; simpl.
  - by rewrite app_nil_r.
  - replace (seen ++ item :: items) with ((seen ++ [item]) ++ items)
      by (by rewrite <- app_assoc).
    apply IH. by apply populateStep_from.
Qed.

Lemma getDisplayType_DRONE (resourceType : option string) :
  getDisplayType resourceType = Some "DRONE" -> resourceType = Some "DRONE".
Proof.
  destruct (getDisplayType_cases resourceType) as [Hin|Hsame]; [|congruence].
  intros H. rewrite H in Hin. simpl in Hin.
  repeat (destruct Hin as [Hin|Hin]; [discriminate Hin|]). destruct Hin.
Qed.

(** X8.  The filter options behave as sets and never offer what the
    filter always hides: no type and no rarity is listed twice, every
    type is the category of some triple that is no drone, every rarity
    is the non-empty resource or mod rarity of such a triple, and the
    category DRONE is never among the types. *)
Theorem populateFilterOptions_sets (expandedData : list Item) :
  optionsFrom expandedData (populateFilterOptions expandedData)
  /\ (Some "DRONE" ∉ FilterOptions.types (populateFilterOptions expandedData))
  /\ (None ∉ FilterOptions.types (populateFilterOptions expandedData))
  /\ (EmptyString ∉ FilterOptions.rarities (populateFilterOptions expandedData)).
Proof.
  assert (H : optionsFrom expandedData (populateFilterOptions expandedData)).
  { apply (populate_fold_from expandedData [] (FilterOptions.mk [] [])).
    split; [constructor|]. split; [constructor|].
    split; intros x Hx; by apply elem_of_nil in Hx. }
  split; [exact H|]. destruct H as (_ & _ & Htypes & Hrarities).
  split; [|split].
  - intros Hin. destruct (Htypes _ Hin) as (item & _ & Hd & _ & Heq).
    symmetry in Heq. apply getDisplayType_DRONE in Heq.
    unfold isDrone, strictEq in Hd. by rewrite Heq in Hd.
  - intros Hin. destruct (Htypes _ Hin) as (item & _ & _ & Htr & Heq).
    destruct (resolvedResourceType (itemMeta item)) as [s|]; [|discriminate].
    destruct (getDisplayType_cases (Some s)) as [Hc|Hc]; rewrite <- Heq in Hc.
    + simpl in Hc. repeat (destruct Hc as [Hc|Hc]; [discriminate Hc|]). destruct Hc.
    + discriminate.
  - intros Hin. destruct (Hrarities _ Hin) as (item & _ & _ & Hne & _). done.
Qed.

Lemma populate_fold_keeps (items : list Item) (options : FilterOptions.t) (r : string) :
  r ∈ FilterOptions.rarities options ->
  r ∈ FilterOptions.rarities (fold_left populateStep items options).
Proof.
  revert options. induction items as [|item items IH]; intros options Hin; [exact Hin|].
  simpl. apply IH. destruct (isDrone item) eqn:Hd.
  - by rewrite populateStep_drone.
  - apply populateStep_rarities; auto.
Qed.

Lemma populate_fold_adds (items : list Item) (options : FilterOptions.t) (item : Item) :
  In item items -> isDrone item = false ->
  JsString.truthy (resolvedRarity (itemMeta item)) = true ->
  JsString.orEmpty (resolvedRarity (itemMeta item))
    ∈ FilterOptions.rarities (fold_left populateStep items options).
Proof.
  intros Hin Hd Htr. revert options.
  induction items as [|x items IH]; intros options; [destruct Hin|].
  simpl. destruct Hin as [->|Hin]; [|by apply IH].
  apply populate_fold_keeps, populateStep_rarities; [exact Hd|]. right.
  unfold resolvedRarity, JsString.orElse in *.
  destruct (JsString.truthy (resourceLevelRarity (itemMeta item))) eqn:Hres.
  - left. split; [reflexivity|]. by apply truthy_Some.
  - right. split; [exact Htr|]. by apply truthy_Some.
Qed.

(** X9.  The filter and its options agree: whenever a rarity filter
    keeps at least one triple, that rarity is among the rarities
    [populateFilterOptions] lists for the same data. *)
Theorem kept_rarity_is_offered (items : list Item) (filters : Filters.t) (item : Item) :
  JsString.truthy (Filters.rarity filters) = true ->
  In item (filterItems items filters) ->
  JsString.orEmpty (Filters.rarity filters)
    ∈ FilterOptions.rarities (populateFilterOptions items).
Proof.
  intros Hset Hin. apply filter_In in Hin as [Hin Hkeep].
  pose proof (keepItem_rarity filters item Hset Hkeep) as Hr.
  rewrite <- Hr. apply populate_fold_adds; [exact Hin| |by rewrite Hr].
  by eapply keepItem_not_drone.
Qed.

Lemma kept_rarity_is_offered_witness :
  FilterOptions.rarities (populateFilterOptions sampleWithDrone) = ["VERY_RARE"; "RARE"]
  /\ FilterOptions.types (populateFilterOptions sampleWithDrone)
     = [Some "Mods"; Some "Capsules"]
  /\ "RARE" ∈ FilterOptions.rarities (populateFilterOptions sampleWithDrone).
Proof.
  split; [reflexivity|]. split; [reflexivity|].
  apply (kept_rarity_is_offered sampleWithDrone (Filters.mk (Some "RARE")) sampleCapsule).
  - reflexivity.
  - vm_compute. left. reflexivity.
Defined.

(** ** The grouping engine: keys, order, counts *)

Section JsMapKeys.
Context {K V : Type} `{EqDecision K}.
Implicit Types (m : list (K * V)) (k : K) (v : V).

Lemma get_None_keys m k : JsMap.get k m = None <-> k ∉ m.*1.
Proof.
  induction m as [|[k0 v0] m IH]; simpl.
  - split; [intros _; apply not_elem_of_nil|done].
  - rewrite not_elem_of_cons. case_decide; [|tauto].
    split; [discriminate|]. by intros [? _].
Qed.

Lemma has_keys m k : JsMap.has k m = bool_decide (k ∈ m.*1).
Proof.
  unfold JsMap.has. destruct (JsMap.get k m) eqn:Hg.
  - symmetry. apply bool_decide_eq_true. destruct (decide (k ∈ m.*1)); [done|].
    apply get_None_keys in n. congruence.
  - symmetry. apply bool_decide_eq_false. by apply get_None_keys.
Qed.

Lemma keys_set m k v : (JsMap.set k v m).*1 = JsSet.add k m.*1.
Proof.
  unfold JsSet.add. induction m as [|[k0 v0] m IH]; [reflexivity|].
  change ((JsMap.set k v ((k0, v0) :: m)).*1)
    with ((if decide (k = k0) then (k, v) :: m else (k0, v0) :: JsMap.set k v m).*1).
  change (((k0, v0) :: m).*1) with (k0 :: m.*1).
  destruct (decide (k = k0)) as [->|Hne].
  - rewrite bool_decide_eq_true_2 by (by left). reflexivity.
  - change (((k0, v0) :: JsMap.set k v m).*1) with (k0 :: (JsMap.set k v m).*1).
    rewrite IH. destruct (decide (k ∈ m.*1)) as [Hin|Hin].
    + rewrite !bool_decide_eq_true_2; [reflexivity|by right|done].
    + rewrite !bool_decide_eq_false_2; [reflexivity| |done].
      rewrite not_elem_of_cons. tauto.
Qed.

Lemma keys_update m (f : V -> V) k : (JsMap.update f k m).*1 = m.*1.
Proof.
  induction m as [|[k0 v0] m IH]; simpl; [reflexivity|].
  case_decide; simpl; [reflexivity|]. f_equal. exact IH.
Qed.

Variable size : V -> nat.

Lemma size_set_new m k v :
  k ∉ m.*1 ->
  sum_list (size ∘ snd <$> JsMap.set k v m) = (sum_list (size ∘ snd <$> m) + size v)%nat.
Proof.
  induction m as [|[k0 v0] m IH]; csimpl; [lia|].
  rewrite not_elem_of_cons. intros [Hne Hin].
  rewrite decide_False by done. csimpl. rewrite IH by done. lia.
Qed.

Lemma size_update m (f : V -> V) k :
  (forall v, size (f v) = S (size v)) ->
  k ∈ m.*1 ->
  sum_list (size ∘ snd <$> JsMap.update f k m) = S (sum_list (size ∘ snd <$> m)).
Proof.
  intros Hf. induction m as [|[k0 v0] m IH]; csimpl.
  - intros Hin. by apply elem_of_nil in Hin.
  - intros Hin. destruct (decide (k = k0)) as [->|Hne]; csimpl.
    + rewrite Hf. lia.
    + apply elem_of_cons in Hin as [|Hin]; [done|]. rewrite IH by done. lia.
Qed.

End JsMapKeys.

Lemma add_present {A} `{EqDecision A} (x : A) (s : list A) :
  x ∈ s -> JsSet.add x s = s.
Proof. intros H. unfold JsSet.add. by rewrite bool_decide_eq_true_2. Qed.

Lemma groupStep_keys (typeBuckets : TypeBuckets) (item : Item) :
  (groupStep typeBuckets item).*1 = JsSet.add (displayTypeOf item) typeBuckets.*1.
Proof.
  unfold groupStep. rewrite keys_update, has_keys.
  case_bool_decide as Hin; simpl.
  - by rewrite add_present.
  - apply keys_set.
Qed.

Lemma groupStep_get (typeBuckets : TypeBuckets) (item : Item) (displayType : option string) :
  JsMap.get displayType (groupStep typeBuckets item)
  = if decide (displayTypeOf item = displayType)
    then
      let grouped := default [] (JsMap.get displayType typeBuckets) in
      Some (JsMap.update (pushItem (groupedItem item)) (groupKeyOf item)
              (if negb (JsMap.has (groupKeyOf item) grouped)
               then JsMap.set (groupKeyOf item) (Group.mk [] (newGmeta item)) grouped
               else grouped))
    else JsMap.get displayType typeBuckets.
Proof.
  unfold groupStep. rewrite get_update.
  destruct (decide (displayTypeOf item = displayType)) as [<-|Hne].
  - unfold JsMap.has.
    destruct (JsMap.get (displayTypeOf item) typeBuckets) as [grouped|] eqn:Hg; simpl.
    + by rewrite Hg.
    + by rewrite get_set, decide_True.
  - destruct (JsMap.has (displayTypeOf item) typeBuckets); simpl; [reflexivity|].
    by rewrite get_set, decide_False.
Qed.

Lemma groupStep_inner_keys (typeBuckets : TypeBuckets) (item : Item)
    (displayType : option string) :
  (default [] (JsMap.get displayType (groupStep typeBuckets item))).*1
  = if decide (displayTypeOf item = displayType)
    then JsSet.add (groupKeyOf item) (default [] (JsMap.get displayType typeBuckets)).*1
    else (default [] (JsMap.get displayType typeBuckets)).*1.
Proof.
  rewrite groupStep_get. case_decide; [|reflexivity].
  cbv zeta. simpl default at 1. rewrite keys_update, has_keys.
  case_bool_decide as Hin; simpl.
  - by rewrite add_present.
  - apply keys_set.
Qed.

Lemma fold_left_filter {A B} (P : A -> bool) (g : B -> A -> B) (l : list A) (b : B) :
  fold_left (fun acc x => if P x then g acc x else acc) l b
  = fold_left g (List.filter P l) b.
Proof.
  revert b. induction l as [|x l IH]; intros b; simpl; [reflexivity|].
  rewrite IH. by destruct (P x).
Qed.

Lemma fold_left_fmap {A B C} (f : A -> B) (g : C -> B -> C) (l : list A) (c : C) :
  fold_left g (f <$> l) c = fold_left (fun acc x => g acc (f x)) l c.
Proof. revert c. induction l as [|x l IH]; intros c; csimpl; [reflexivity|apply IH]. Qed.

Lemma fold_add_NoDup {A} `{EqDecision A} (l s : list A) :
  NoDup s -> NoDup (fold_left (fun seen x => JsSet.add x seen) l s).
Proof.
  revert s. induction l as [|x l IH]; intros s Hs; simpl; [exact Hs|].
  by apply IH, NoDup_add.
Qed.

Lemma fold_groupStep_keys (items : list Item) (typeBuckets : TypeBuckets) :
  (fold_left groupStep items typeBuckets).*1
  = fold_left (fun seen item => JsSet.add (displayTypeOf item) seen) items typeBuckets.*1.
Proof.
  revert typeBuckets. induction items as [|item items IH]; intros tb; simpl; [reflexivity|].
  by rewrite IH, groupStep_keys.
Qed.

Lemma fold_groupStep_inner_keys (items : list Item) (typeBuckets : TypeBuckets)
    (displayType : option string) :
  (default [] (JsMap.get displayType (fold_left groupStep items typeBuckets))).*1
  = fold_left
      (fun seen item =>
         if bool_decide (displayTypeOf item = displayType)
         then JsSet.add (groupKeyOf item) seen else seen)
      items (default [] (JsMap.get displayType typeBuckets)).*1.
Proof.
  revert typeBuckets. induction items as [|item items IH]; intros tb; simpl; [reflexivity|].
  rewrite IH, groupStep_inner_keys.
  case_decide; [by rewrite bool_decide_eq_true_2|by rewrite bool_decide_eq_false_2].
Qed.

Lemma groupItems_keys (items : list Item) :
  (groupItems items).*1 = firstSeen (displayTypeOf <$> items).
Proof.
  unfold groupItems, firstSeen. by rewrite fold_left_fmap, fold_groupStep_keys.
Qed.

Lemma groupItems_inner_keys (items : list Item) (displayType : option string) :
  (default [] (JsMap.get displayType (groupItems items))).*1
  = firstSeen (groupKeyOf <$> itemsOfType displayType items).
Proof.
  unfold groupItems, firstSeen, itemsOfType.
  rewrite fold_left_fmap, <- fold_left_filter. by rewrite fold_groupStep_inner_keys.
Qed.

(** X10.  The maps that [groupItems] builds keep first-appearance order:
    the display types come in the order in which the input first shows
    them, and within a display type the group keys come in the order in
    which the items of that type first show them; no display type and no
    key occurs twice. *)
Theorem groupItems_insertion_order (filteredItems : list Item) :
  (groupItems filteredItems).*1 = firstSeen (displayTypeOf <$> filteredItems)
  /\ NoDup (groupItems filteredItems).*1
  /\ (forall displayType,
        (default [] (JsMap.get displayType (groupItems filteredItems))).*1
        = firstSeen (groupKeyOf <$> itemsOfType displayType filteredItems)
        /\ NoDup (default [] (JsMap.get displayType (groupItems filteredItems))).*1).
Proof.
  split; [apply groupItems_keys|]. split.
  - rewrite groupItems_keys. apply fold_add_NoDup. constructor.
  - intros displayType. rewrite groupItems_inner_keys.
    split; [reflexivity|]. apply fold_add_NoDup. constructor.
Qed.

Lemma sectionCount_alt (entries : list Entry) :
  sectionCount entries
  = sum_list ((fun group => List.length (Group.items group)) ∘ snd <$> entries).
Proof. reflexivity. Qed.

Lemma groupedCount_alt (typeBuckets : TypeBuckets) :
  groupedCount typeBuckets = sum_list (sectionCount ∘ snd <$> typeBuckets).
Proof. reflexivity. Qed.

Lemma pushItem_length (member : GroupedItem.t) (group : Group.t) :
  List.length (Group.items (pushItem member group)) = S (List.length (Group.items group)).
Proof. unfold pushItem. simpl. rewrite length_app. simpl. lia. Qed.

(** Pushing one item into a bucket, as [groupStep] does, adds one to its
    count. *)
Lemma bucket_push_count (item : Item) (grouped : Grouped) :
  sectionCount
    (JsMap.update (pushItem (groupedItem item)) (groupKeyOf item)
       (if negb (JsMap.has (groupKeyOf item) grouped)
        then JsMap.set (groupKeyOf item) (Group.mk [] (newGmeta item)) grouped
        else grouped))
  = S (sectionCount grouped).
Proof.
  rewrite !sectionCount_alt, has_keys.
  case_bool_decide as Hin; simpl negb; cbv iota.
  - apply size_update; [|exact Hin].
    intros group. apply pushItem_length.
  - rewrite size_update.
    + rewrite size_set_new by exact Hin. simpl. lia.
    + intros group. apply pushItem_length.
    + rewrite keys_set. apply elem_of_add. by left.
Qed.

Lemma groupStep_count (typeBuckets : TypeBuckets) (item : Item) :
  groupedCount (groupStep typeBuckets item) = S (groupedCount typeBuckets).
Proof.
  unfold groupStep. rewrite !groupedCount_alt, has_keys.
  case_bool_decide as Hin; simpl negb; cbv iota.
  - apply size_update; [|exact Hin]. intros grouped. apply bucket_push_count.
  - rewrite size_update.
    + rewrite size_set_new by exact Hin.
      change (sectionCount []) with 0%nat. by rewrite Nat.add_0_r.
    + intros grouped. apply bucket_push_count.
    + rewrite keys_set. apply elem_of_add. by left.
Qed.

Lemma groupStep_section_count (typeBuckets : TypeBuckets) (item : Item)
    (displayType : option string) :
  sectionCount (default [] (JsMap.get displayType (groupStep typeBuckets item)))
  = if bool_decide (displayTypeOf item = displayType)
    then S (sectionCount (default [] (JsMap.get displayType typeBuckets)))
    else sectionCount (default [] (JsMap.get displayType typeBuckets)).
Proof.
  rewrite groupStep_get. case_decide.
  - rewrite bool_decide_eq_true_2 by done. cbv zeta. simpl default at 1.
    apply bucket_push_count.
  - by rewrite bool_decide_eq_false_2.
Qed.

Lemma fold_groupStep_count (items : list Item) (typeBuckets : TypeBuckets) :
  groupedCount (fold_left groupStep items typeBuckets)
  = (List.length items + groupedCount typeBuckets)%nat.
Proof.
  revert typeBuckets. induction items as [|item items IH]; intros tb; simpl; [reflexivity|].
  rewrite IH, groupStep_count. lia.
Qed.

Lemma fold_groupStep_section_count (items : list Item) (typeBuckets : TypeBuckets)
    (displayType : option string) :
  sectionCount (default [] (JsMap.get displayType (fold_left groupStep items typeBuckets)))
  = (List.length (itemsOfType displayType items)
     + sectionCount (default [] (JsMap.get displayType typeBuckets)))%nat.
Proof.
  unfold itemsOfType. revert typeBuckets.
  induction items as [|item items IH]; intros tb; simpl; [reflexivity|].
  rewrite IH, groupStep_section_count.
  destruct (bool_decide (displayTypeOf item = displayType)); simpl; lia.
Qed.

(** X11.  Grouping neither loses nor duplicates an item: the group sizes
    add up to the number of filtered items, and the count that heads the
    section of a display type is the number of filtered items of that
    type. *)
Theorem groupItems_counts (filteredItems : list Item) :
  groupedCount (groupItems filteredItems) = List.length filteredItems
  /\ (forall displayType,
        sectionCount (entriesOf displayType (groupItems filteredItems))
        = List.length (itemsOfType (Some displayType) filteredItems)).
Proof.
  split.
  - unfold groupItems. rewrite fold_groupStep_count.
    change (groupedCount []) with 0%nat. by rewrite Nat.add_0_r.
  - intros displayType. unfold entriesOf, groupItems.
    rewrite fold_groupStep_section_count.
    change (sectionCount (default [] (JsMap.get (Some displayType) []))) with 0%nat.
    by rewrite Nat.add_0_r.
Qed.

(** X12.  Every filtered item sits in the group found under its own
    display type and group key, and a group holds nothing else: its
    members are input items of that display type and key, it is never
    empty, and its [gmeta] names the display type it is stored under. *)
Theorem groupItems_partition (filteredItems : list Item) :
  (forall item,
     In item filteredItems ->
     exists group,
       lookupGroup (displayTypeOf item) (groupKeyOf item) (groupItems filteredItems)
       = Some group
       /\ In (groupedItem item) (Group.items group))
  /\ (forall displayType groupKey group,
        lookupGroup displayType groupKey (groupItems filteredItems) = Some group ->
        Group.items group <> []
        /\ GroupMeta.displayType (Group.gmeta group) = displayType
        /\ Forall (fun member =>
                     member = groupedItem (GroupedItem.item member)
                     /\ In (GroupedItem.item member) filteredItems
                     /\ displayTypeOf (GroupedItem.item member) = displayType
                     /\ groupKeyOf (GroupedItem.item member) = groupKey)
                  (Group.items group)).
Proof.
  split.
  - intros item Hin.
    assert (Hm : In item (membersOf (displayTypeOf item) (groupKeyOf item) filteredItems))
      by by apply membersOf_In.
    destruct (lookupGroup (displayTypeOf item) (groupKeyOf item) (groupItems filteredItems))
      as [group|] eqn:Hg.
    + exists group. split; [reflexivity|]. by apply (group_members _ _ _ _ _ Hg).
    + rewrite lookupGroup_groupItems in Hg.
      destruct (membersOf _ _ filteredItems); [destruct Hm|discriminate].
  - intros displayType groupKey group Hg.
    pose proof Hg as Hg'. rewrite lookupGroup_groupItems in Hg'.
    destruct (membersOf displayType groupKey filteredItems) as [|first rest] eqn:Hm;
      [discriminate|].
    assert (Hfirst : In first (membersOf displayType groupKey filteredItems))
      by (rewrite Hm; by left).
    apply membersOf_In in Hfirst as (_ & Hd & _).
    assert (Hitems : Group.items group = map groupedItem (first :: rest))
      by (by injection Hg' as <-).
    assert (Hmeta : Group.gmeta group = newGmeta first)
      by (by injection Hg' as <-).
    rewrite Hitems, Hmeta. split; [discriminate|]. split.
    + by rewrite newGmeta_displayType.
    + apply List.Forall_forall. intros member Hin. rewrite <- Hm in Hin.
      apply in_map_iff in Hin as (item & <- & Hitem).
      apply membersOf_In in Hitem as (Hin & Hd' & Hk). simpl. auto.
Qed.

Lemma groupItems_partition_witness :
  exists group,
    lookupGroup (Some "Mods") "VR|HEATSINK" (groupItems sampleMixed) = Some group
    /\ In (groupedItem sampleHeatsink) (Group.items group)
    /\ Group.items group <> [].
Proof.
  destruct (groupItems_partition sampleMixed) as [Hin Hgroup].
  destruct (Hin sampleHeatsink) as (group & Hg & Hmember); [by left|].
  exists group. split; [exact Hg|]. split; [exact Hmember|].
  by destruct (Hgroup _ _ _ Hg) as [Hne _].
Defined.

(** ** Group keys and titles *)

Lemma split_head_append (sep : ascii) (a b : string) :
  JsString.part 0 (JsString.split sep (a +:+ String sep b))
  = JsString.part 0 (JsString.split sep a).
Proof.
  unfold JsString.part. induction a as [|c a IH].
  - change (EmptyString +:+ String sep b) with (String sep b). simpl.
    by rewrite Ascii.eqb_refl.
  - change (String c a +:+ String sep b) with (String c (a +:+ String sep b)).
    simpl. destruct (Ascii.eqb c sep); [reflexivity|].
    destruct (JsString.split sep (a +:+ String sep b)) as [|w ws],
             (JsString.split sep a) as [|w' ws']; simpl in *; congruence.
Qed.

(** X13.  The title that the comparators read back from a group key is
    the display title up to its first bar: it is the display title itself
    whenever that contains no bar, in the categories whose key carries the
    raw type as well as in the others. *)
Theorem titleOfKey_groupKeyOf (item : Item) :
  titleOfKey (groupKeyOf item) = titleOfKey (displayTitle (itemId item) (itemMeta item))
  /\ (JsString.includes "|" (displayTitle (itemId item) (itemMeta item)) = false ->
      titleOfKey (groupKeyOf item) = displayTitle (itemId item) (itemMeta item)).
Proof.
  assert (H : titleOfKey (groupKeyOf item)
              = titleOfKey (displayTitle (itemId item) (itemMeta item))).
  { destruct item as [[id ts] meta]. unfold groupKeyOf, titleOfKey, itemId, itemMeta. simpl.
    destruct (needsTypeInKey _); [|reflexivity].
    change ("|" +:+ JsString.toString (rawTypeOf meta))
      with (String "|" (JsString.toString (rawTypeOf meta))).
    by rewrite split_head_append. }
  split; [exact H|]. intros Hbar. rewrite H. unfold titleOfKey.
  by rewrite split_without.
Qed.

Lemma titleOfKey_groupKeyOf_witness :
  titleOfKey (groupKeyOf sampleHeatsink) = "VR"
  /\ groupKeyOf sampleHeatsink = "VR|HEATSINK".
Proof.
  split; [|reflexivity].
  destruct (titleOfKey_groupKeyOf sampleHeatsink) as [_ H].
  rewrite H; reflexivity.
Defined.

(** ** The sort engine: every category *)

(** X14.  Sorting loses nothing: for every display type, sort
    configuration and user location, [sortTypeGroups] returns a
    permutation of the entries it was given, so the number of groups and
    the count that heads the section are unchanged. *)
Theorem sortTypeGroups_permutation
    (localeCompare : string -> string -> Z) (haversineKm : Q -> Q -> Q -> Q -> jsnum Q)
    (entries : list Entry) (displayType : string)
    (sortConfig : SortConfig.t) (userLocation : option LatLon.t) :
  let sorted :=
    sortTypeGroups localeCompare haversineKm entries displayType sortConfig userLocation in
  sorted ≡ₚ entries
  /\ List.length sorted = List.length entries
  /\ sectionCount sorted = sectionCount entries.
Proof.
  intros sorted.
  assert (Hperm : sorted ≡ₚ entries).
  { unfold sorted, sortTypeGroups, sortKeys.
    repeat match goal with
           | |- context [if ?b then _ else _] => destruct b
           | |- context [match ?o with Some _ => _ | None => _ end] => destruct o
           end; apply arraySort_perm. }
  split; [exact Hperm|]. split.
  - by apply Permutation_length.
  - unfold sectionCount. by rewrite Hperm.
Qed.

Lemma sorted_by {A N : Type} (positive : N -> bool) (comparefn : A -> A -> N)
    (R : A -> A -> Prop) (l : list A) :
  (forall a b, staysBefore positive comparefn a b <-> R a b) ->
  (forall a b, ~ R a b -> R b a) ->
  (forall a b c, R a b -> R b c -> R a c) ->
  StronglySorted R (arraySort positive comparefn l).
Proof.
  intros Hiff Htotal Htrans.
  eapply StronglySorted_weaken; [intros a b; apply Hiff|].
  apply arraySort_sorted.
  - intros a b Hpos. apply Hiff, Htotal. rewrite <- Hiff. unfold staysBefore.
    by rewrite Hpos.
  - intros a b c. rewrite !Hiff. apply Htrans.
Qed.

Lemma positiveZ_false (z : Z) : JsNum.positiveZ z = false <-> z <= 0.
Proof. unfold JsNum.positiveZ. apply Z.ltb_ge. Qed.

(** X15.  Resonator groups come out by level, highest first, and groups
    of one level keep the order they had in the input. *)
Theorem sortTypeGroups_resonators
    (localeCompare : string -> string -> Z) (haversineKm : Q -> Q -> Q -> Q -> jsnum Q)
    (entries : list Entry) (sortConfig : SortConfig.t) (userLocation : option LatLon.t) :
  let sorted :=
    sortTypeGroups localeCompare haversineKm entries "Resonators" sortConfig userLocation in
  StronglySorted levelDescending sorted
  /\ (forall level,
        List.filter (fun e => GroupMeta.level (Group.gmeta e.2) =? level) sorted
        = List.filter (fun e => GroupMeta.level (Group.gmeta e.2) =? level) entries).
Proof.
  intros sorted.
  assert (Hs : sorted = arraySort JsNum.positiveZ resonatorsCompare entries) by reflexivity.
  rewrite Hs. split.
  - apply sorted_by.
    + intros a b. unfold staysBefore, resonatorsCompare, levelDescending.
      rewrite positiveZ_false. lia.
    + unfold levelDescending. intros a b. lia.
    + unfold levelDescending. intros a b c. lia.
  - intros level. apply arraySort_filter. intros a b Ha Hb.
    apply Z.eqb_eq in Ha, Hb. apply positiveZ_false.
    unfold resonatorsCompare. lia.
Qed.

(** X16.  Powerup groups come out by size, largest first, and groups of
    one size by title. *)
Theorem sortTypeGroups_powerups
    (localeCompare : string -> string -> Z) (haversineKm : Q -> Q -> Q -> Q -> jsnum Q)
    (entries : list Entry) (sortConfig : SortConfig.t) (userLocation : option LatLon.t) :
  ConsistentCompare localeCompare ->
  StronglySorted (powerupsOrder localeCompare)
    (sortTypeGroups localeCompare haversineKm entries "Powerups" sortConfig userLocation).
Proof.
  intros [Htotal Htrans].
  change (sortTypeGroups localeCompare haversineKm entries "Powerups" sortConfig userLocation)
    with (arraySort JsNum.positiveZ (powerupsCompare localeCompare) entries).
  apply sorted_by.
  - intros a b. unfold staysBefore, powerupsCompare, powerupsOrder, titleOrder, titleCompare.
    rewrite positiveZ_false. destruct (Z.eqb_spec (countOf a) (countOf b)); simpl; lia.
  - unfold powerupsOrder, titleOrder. intros a b.
    pose proof (Htotal (titleOfKey a.1) (titleOfKey b.1)). lia.
  - unfold powerupsOrder, titleOrder. intros a b c.
    pose proof (Htrans (titleOfKey a.1) (titleOfKey b.1) (titleOfKey c.1)). lia.
Qed.

Lemma sortTypeGroups_powerups_witness :
  ConsistentCompare codeUnitCompare
  /\ StronglySorted (powerupsOrder codeUnitCompare)
       (sortTypeGroups codeUnitCompare flatKm
          (entriesOf "Powerups" (groupItems sampleMixed)) "Powerups"
          (sampleConfig "alpha") None).
Proof.
  split; [exact codeUnitCompare_consistent|].
  apply sortTypeGroups_powerups. exact codeUnitCompare_consistent.
Defined.

(** X17.  Every display type without a comparator of its own, Capsules
    and Media among them, is sorted by title alone. *)
Theorem sortTypeGroups_default
    (localeCompare : string -> string -> Z) (haversineKm : Q -> Q -> Q -> Q -> jsnum Q)
    (entries : list Entry) (displayType : string)
    (sortConfig : SortConfig.t) (userLocation : option LatLon.t) :
  ConsistentCompare localeCompare ->
  displayType ∉ specialTypes ->
  sortTypeGroups localeCompare haversineKm entries displayType sortConfig userLocation
  = arraySort JsNum.positiveZ (titleCompare localeCompare) entries
  /\ StronglySorted (titleOrder localeCompare)
       (sortTypeGroups localeCompare haversineKm entries displayType sortConfig userLocation).
Proof.
  intros [Htotal Htrans] Hnot.
  assert (Hs : sortTypeGroups localeCompare haversineKm entries displayType sortConfig
                 userLocation
               = arraySort JsNum.positiveZ (titleCompare localeCompare) entries).
  { unfold sortTypeGroups.
    repeat match goal with
           | |- context [String.eqb displayType ?s] =>
               destruct (String.eqb_spec displayType s) as [->|_];
               [exfalso; apply Hnot; unfold specialTypes; set_solver|]
           end.
    reflexivity. }
  split; [exact Hs|]. rewrite Hs. apply sorted_by.
  - intros a b. unfold staysBefore, titleCompare, titleOrder. apply positiveZ_false.
  - unfold titleOrder. intros a b.
    pose proof (Htotal (titleOfKey a.1) (titleOfKey b.1)). lia.
  - unfold titleOrder. intros a b c. apply Htrans.
Qed.

Lemma sortTypeGroups_default_witness :
  ConsistentCompare codeUnitCompare
  /\ ("Capsules" ∉ specialTypes)
  /\ StronglySorted (titleOrder codeUnitCompare)
       (sortTypeGroups codeUnitCompare flatKm keyEntries "Capsules"
          (sampleConfig "alpha") None).
Proof.
  assert (Hnot : "Capsules" ∉ specialTypes).
  { intros H. repeat (apply elem_of_cons in H as [H|H]; [discriminate H|]).
    by apply elem_of_nil in H. }
  split; [exact codeUnitCompare_consistent|]. split; [exact Hnot|].
  apply sortTypeGroups_default; [exact codeUnitCompare_consistent|exact Hnot].
Defined.

Lemma directed_sorted (direction : string) (key : Entry -> Z)
    (compare : Entry -> Entry -> Z) (entries : list Entry) :
  (forall a b,
     compare a b = if String.eqb direction "desc" then key b - key a else key a - key b) ->
  StronglySorted (directed direction key) (arraySort JsNum.positiveZ compare entries).
Proof.
  intros Hcmp. apply sorted_by.
  - intros a b. unfold staysBefore, directed. rewrite positiveZ_false, Hcmp.
    destruct (String.eqb direction "desc"); lia.
  - intros a b. unfold directed. destruct (String.eqb direction "desc"); lia.
  - intros a b c. unfold directed. destruct (String.eqb direction "desc"); lia.
Qed.

(** X18.  The key modes: by count and by time the groups come out in
    the selected direction of the group size and of the latest timestamp
    of the group; a mode that is none of count, time and distance is the
    alphabetical mode, which orders by title in the direction of
    [directions.alpha]. *)
Theorem sortKeys_modes
    (localeCompare : string -> string -> Z) (haversineKm : Q -> Q -> Q -> Q -> jsnum Q)
    (entries : list Entry) (directions : Directions.t) (userLocation : option LatLon.t) :
  ConsistentCompare localeCompare ->
  let sort := fun mode =>
    sortKeys localeCompare haversineKm entries (SortConfig.mk mode directions) userLocation in
  StronglySorted (directed (Directions.count directions) countOf) (sort "count")
  /\ StronglySorted (directed (Directions.time directions) latestOf) (sort "time")
  /\ (forall mode, mode ∉ ["count"; "time"; "distance"] -> sort mode = sort "alpha")
  /\ StronglySorted
       (fun a b =>
          if String.eqb (Directions.alpha directions) "desc"
          then titleOrder localeCompare b a else titleOrder localeCompare a b)
       (sort "alpha").
Proof.
  intros [Htotal Htrans] sort. split; [|split; [|split]].
  - change (sort "count")
      with (arraySort JsNum.positiveZ (keysCountCompare directions) entries).
    by apply directed_sorted.
  - change (sort "time")
      with (arraySort JsNum.positiveZ (keysTimeCompare directions) entries).
    by apply directed_sorted.
  - intros mode Hnot. unfold sort, sortKeys. simpl SortConfig.mode.
    assert (Hc : String.eqb mode "count" = false)
      by (apply String.eqb_neq; intros ->; apply Hnot; set_solver).
    assert (Ht : String.eqb mode "time" = false)
      by (apply String.eqb_neq; intros ->; apply Hnot; set_solver).
    assert (Hd : String.eqb mode "distance" = false)
      by (apply String.eqb_neq; intros ->; apply Hnot; set_solver).
    rewrite Hc, Ht, Hd. simpl. by destruct userLocation.
  - assert (Hs : sort "alpha"
                 = arraySort JsNum.positiveZ (keysAlphaCompare localeCompare directions) entries)
      by (unfold sort, sortKeys; simpl; by destruct userLocation).
    rewrite Hs. apply sorted_by.
    + intros a b. unfold staysBefore, keysAlphaCompare, titleOrder.
      rewrite positiveZ_false. by destruct (String.eqb _ _).
    + intros a b. unfold titleOrder.
      pose proof (Htotal (titleOfKey a.1) (titleOfKey b.1)).
      pose proof (Htotal (titleOfKey b.1) (titleOfKey a.1)).
      destruct (String.eqb _ _); lia.
    + intros a b c. unfold titleOrder.
      pose proof (Htrans (titleOfKey a.1) (titleOfKey b.1) (titleOfKey c.1)).
      pose proof (Htrans (titleOfKey c.1) (titleOfKey b.1) (titleOfKey a.1)).
      destruct (String.eqb _ _); lia.
Qed.

Lemma sortKeys_modes_witness :
  ConsistentCompare codeUnitCompare
  /\ StronglySorted (directed "asc" countOf)
       (sortKeys codeUnitCompare flatKm keyEntries (sampleConfig "count") (Some origin))
  /\ sortKeys codeUnitCompare flatKm keyEntries (sampleConfig "newest") (Some origin)
     = sortKeys codeUnitCompare flatKm keyEntries (sampleConfig "alpha") (Some origin).
Proof.
  destruct (sortKeys_modes codeUnitCompare flatKm keyEntries sampleDirections (Some origin)
              codeUnitCompare_consistent) as (Hcount & _ & Hother & _).
  split; [exact codeUnitCompare_consistent|]. split; [exact Hcount|].
  apply Hother. intros H.
  repeat (apply elem_of_cons in H as [H|H]; [discriminate H|]).
  by apply elem_of_nil in H.
Defined.

(** X19.  In the distance mode with a user location the groups come out
    by distance, nearest first, or farthest first when the direction is
    descending, [Infinity] counting as the greatest distance. *)
Theorem sortKeys_distance_sorted
    (localeCompare : string -> string -> Z) (haversineKm : Q -> Q -> Q -> Q -> jsnum Q)
    (entries : list Entry) (directions : Directions.t) (userLocation : LatLon.t) :
  StronglySorted
    (fun a b =>
       if String.eqb (Directions.distance directions) "desc"
       then distanceLe (getDistance haversineKm userLocation b)
                       (getDistance haversineKm userLocation a)
       else distanceLe (getDistance haversineKm userLocation a)
                       (getDistance haversineKm userLocation b))
    (sortKeys localeCompare haversineKm entries (SortConfig.mk "distance" directions)
       (Some userLocation)).
Proof.
  eapply StronglySorted_weaken; [|apply (distance_sorted haversineKm userLocation directions)].
  intros a b. apply keysDistanceCompare_order.
Qed.

Lemma codeUnitCompare_eq (a b : string) : codeUnitCompare a b = 0 -> a = b.
Proof.
  revert b. induction a as [|x a IH]; intros [|y b]; simpl; try done.
  destruct (Z.eqb_spec (Z.of_N (N_of_ascii x) - Z.of_N (N_of_ascii y)) 0) as [Hd|Hd];
    [|done].
  intros H. f_equal; [|by apply IH].
  assert (Hxy : N_of_ascii x = N_of_ascii y) by lia.
  rewrite <- (ascii_N_embedding x), <- (ascii_N_embedding y). by rewrite Hxy.
Qed.

Lemma codeUnitCompare_strict : StrictCompare codeUnitCompare.
Proof.
  split; [exact codeUnitCompare_consistent|].
  intros a b Hab Hba. apply codeUnitCompare_eq.
  rewrite (codeUnitCompare_antisym a b) in Hba. lia.
Qed.

Section ModsAndCubes.

Variable localeCompare : string -> string -> Z.
Hypothesis strict : StrictCompare localeCompare.

Lemma modsCompare_ranks (a b : Entry) :
  modsCompare localeCompare a b
  = if negb (modRank a =? modRank b) then modRank a - modRank b
    else if negb (rarityRank b =? rarityRank a) then rarityRank b - rarityRank a
    else if negb (String.eqb (modTypeOf a) (modTypeOf b))
    then localeCompare (modTypeOf a) (modTypeOf b)
    else localeCompare (titleOfKey a.1) (titleOfKey b.1).
Proof. reflexivity. Qed.

Lemma modsCompare_order (a b : Entry) :
  staysBefore JsNum.positiveZ (modsCompare localeCompare) a b
  <-> modsOrder localeCompare a b.
Proof.
  unfold staysBefore, modsOrder, titleOrder.
  rewrite positiveZ_false, modsCompare_ranks.
  destruct (Z.eqb_spec (modRank a) (modRank b)) as [Hr|Hr]; simpl; [|lia].
  destruct (Z.eqb_spec (rarityRank b) (rarityRank a)) as [Hq|Hq]; simpl; [|lia].
  destruct (String.eqb_spec (modTypeOf a) (modTypeOf b)) as [Ht|Ht]; simpl;
    case_decide; try done; lia.
Qed.

Lemma modsOrder_total (a b : Entry) :
  ~ modsOrder localeCompare a b -> modsOrder localeCompare b a.
Proof.
  destruct strict as [[Htotal _] _]. unfold modsOrder, titleOrder.
  pose proof (Htotal (titleOfKey a.1) (titleOfKey b.1)).
  pose proof (Htotal (modTypeOf a) (modTypeOf b)).
  repeat case_decide; try congruence; lia.
Qed.

Lemma modsOrder_trans (a b c : Entry) :
  modsOrder localeCompare a b -> modsOrder localeCompare b c ->
  modsOrder localeCompare a c.
Proof.
  destruct strict as [[_ Htrans] Hstrict]. unfold modsOrder, titleOrder.
  pose proof (Htrans (titleOfKey a.1) (titleOfKey b.1) (titleOfKey c.1)).
  pose proof (Htrans (modTypeOf a) (modTypeOf b) (modTypeOf c)).
  generalize dependent (modTypeOf c). generalize dependent (modTypeOf b).
  generalize dependent (modTypeOf a). intros ta tb tc Htypes.
  assert (Hs : ta = tb \/ ~ (localeCompare ta tb <= 0 /\ localeCompare tb ta <= 0)).
  { destruct (decide (ta = tb)); [by left|right]. intros [? ?]. by auto. }
  destruct Hs as [->|Hs]; repeat case_decide; subst; try done; lia.
Qed.

Lemma cubesCompare_order (a b : Entry) :
  staysBefore JsNum.positiveZ (cubesCompare localeCompare) a b
  <-> cubesOrder localeCompare a b.
Proof.
  unfold staysBefore, cubesCompare, cubesOrder, levelDescending.
  fold (cubeTypeOf a) (cubeTypeOf b). rewrite positiveZ_false.
  destruct (String.eqb_spec (cubeTypeOf a) (cubeTypeOf b)) as [Ht|Ht]; simpl;
    case_decide; try done; lia.
Qed.

Lemma cubesOrder_total (a b : Entry) :
  ~ cubesOrder localeCompare a b -> cubesOrder localeCompare b a.
Proof.
  destruct strict as [[Htotal _] _]. unfold cubesOrder, levelDescending.
  pose proof (Htotal (cubeTypeOf a) (cubeTypeOf b)).
  repeat case_decide; try congruence; lia.
Qed.

Lemma cubesOrder_trans (a b c : Entry) :
  cubesOrder localeCompare a b -> cubesOrder localeCompare b c ->
  cubesOrder localeCompare a c.
Proof.
  destruct strict as [[_ Htrans] Hstrict]. unfold cubesOrder, levelDescending.
  pose proof (Htrans (cubeTypeOf a) (cubeTypeOf b) (cubeTypeOf c)).
  generalize dependent (cubeTypeOf c). generalize dependent (cubeTypeOf b).
  generalize dependent (cubeTypeOf a). intros ta tb tc Htypes.
  assert (Hs : ta = tb \/ ~ (localeCompare ta tb <= 0 /\ localeCompare tb ta <= 0)).
  { destruct (decide (ta = tb)); [by left|right]. intros [? ?]. by auto. }
  destruct Hs as [->|Hs]; repeat case_decide; subst; try done; lia.
Qed.

End ModsAndCubes.

(** X20.  Mod groups come out by the rank of the mod type in the fixed
    table (9 outside it), then by rarity with the rarer first, then by
    mod type, then by title.  The comparator reads the two rarity ranks
    into crossed names; the order that results is still rarity
    descending. *)
Theorem sortTypeGroups_mods
    (localeCompare : string -> string -> Z) (haversineKm : Q -> Q -> Q -> Q -> jsnum Q)
    (entries : list Entry) (sortConfig : SortConfig.t) (userLocation : option LatLon.t) :
  StrictCompare localeCompare ->
  StronglySorted (modsOrder localeCompare)
    (sortTypeGroups localeCompare haversineKm entries "Mods" sortConfig userLocation).
Proof.
  intros Hstrict.
  change (sortTypeGroups localeCompare haversineKm entries "Mods" sortConfig userLocation)
    with (arraySort JsNum.positiveZ (modsCompare localeCompare) entries).
  apply sorted_by.
  - by apply modsCompare_order.
  - by apply modsOrder_total.
  - by apply modsOrder_trans.
Qed.

Lemma sortTypeGroups_mods_witness :
  StrictCompare codeUnitCompare
  /\ fst <$> modEntries = ["VR|HEATSINK"; "VR|MULTIHACK"]
  /\ StronglySorted (modsOrder codeUnitCompare)
       (sortTypeGroups codeUnitCompare flatKm modEntries "Mods" (sampleConfig "alpha") None).
Proof.
  split; [exact codeUnitCompare_strict|]. split; [reflexivity|].
  apply sortTypeGroups_mods. exact codeUnitCompare_strict.
Defined.

(** X21.  Cube groups come out by cube type and, within one type, by
    level with the highest first. *)
Theorem sortTypeGroups_cubes
    (localeCompare : string -> string -> Z) (haversineKm : Q -> Q -> Q -> Q -> jsnum Q)
    (entries : list Entry) (sortConfig : SortConfig.t) (userLocation : option LatLon.t) :
  StrictCompare localeCompare ->
  StronglySorted (cubesOrder localeCompare)
    (sortTypeGroups localeCompare haversineKm entries "Cubes" sortConfig userLocation).
Proof.
  intros Hstrict.
  change (sortTypeGroups localeCompare haversineKm entries "Cubes" sortConfig userLocation)
    with (arraySort JsNum.positiveZ (cubesCompare localeCompare) entries).
  apply sorted_by.
  - by apply cubesCompare_order.
  - by apply cubesOrder_total.
  - by apply cubesOrder_trans.
Qed.

Lemma sortTypeGroups_cubes_witness :
  StrictCompare codeUnitCompare
  /\ StronglySorted (cubesOrder codeUnitCompare)
       (sortTypeGroups codeUnitCompare flatKm cubeEntries "Cubes"
          (sampleConfig "alpha") None)
  /\ fst <$> sortTypeGroups codeUnitCompare flatKm cubeEntries "Cubes"
               (sampleConfig "alpha") None
     = ["L7|POWER_CUBE"; "L3|POWER_CUBE"].
Proof.
  split; [exact codeUnitCompare_strict|]. split; [|reflexivity].
  apply sortTypeGroups_cubes. exact codeUnitCompare_strict.
Defined.

(** ** The JSON cleaner *)

Lemma append_snoc (a : string) (c : ascii) (b : string) :
  (a +:+ String c EmptyString) +:+ b = a +:+ String c b.
Proof.
  induction a as [|x a IH]; [reflexivity|].
  change (String x a +:+ String c EmptyString) with (String x (a +:+ String c EmptyString)).
  change (String x (a +:+ String c EmptyString) +:+ b)
    with (String x ((a +:+ String c EmptyString) +:+ b)).
  change (String x a +:+ String c b) with (String x (a +:+ String c b)).
  by rewrite IH.
Qed.

Lemma append_empty (a : string) : a +:+ EmptyString = a.
Proof.
  induction a as [|x a IH]; [reflexivity|].
  change (String x a +:+ EmptyString) with (String x (a +:+ EmptyString)).
  by rewrite IH.
Qed.

Lemma append_length (a b : string) :
  String.length (a +:+ b) = (String.length a + String.length b)%nat.
Proof.
  induction a as [|x a IH]; [reflexivity|].
  change (String x a +:+ b) with (String x (a +:+ b)). simpl. by rewrite IH.
Qed.

Lemma keepsChar_allowedCode (c : ascii) : keepsChar c = allowedCode c.
Proof. destruct c as [[] [] [] [] [] [] [] []]; reflexivity. Qed.

Lemma cleanJsonScan_spec (rest cleaned : string) (removedCount : Z) :
  cleanJsonScan rest cleaned removedCount
  = (cleaned +:+ keptChars rest, removedCount + droppedCount rest).
Proof.
  revert cleaned removedCount. induction rest as [|c rest IH]; intros cleaned n; simpl.
  - by rewrite append_empty, Z.add_0_r.
  - rewrite keepsChar_allowedCode. destruct (allowedCode c); rewrite IH.
    + by rewrite append_snoc.
    + f_equal. lia.
Qed.

Lemma keptChars_allKept (s : string) : allKept (keptChars s) = true.
Proof.
  induction s as [|c s IH]; simpl; [reflexivity|].
  destruct (allowedCode c) eqn:Hc; simpl; [by rewrite Hc|exact IH].
Qed.

Lemma keptChars_clean (s : string) : allKept s = true -> keptChars s = s.
Proof.
  induction s as [|c s IH]; simpl; [reflexivity|].
  intros H. apply andb_true_iff in H as [Hc Hs]. rewrite Hc. by rewrite IH.
Qed.

Lemma keptChars_length (s : string) :
  Z.of_nat (String.length (keptChars s)) + droppedCount s = Z.of_nat (String.length s).
Proof.
  induction s as [|c s IH]; simpl; [reflexivity|].
  destruct (allowedCode c); simpl String.length; lia.
Qed.

Lemma keptChars_filter (s : string) :
  String.list_ascii_of_string (keptChars s)
  = List.filter allowedCode (String.list_ascii_of_string s).
Proof.
  induction s as [|c s IH]; simpl; [reflexivity|].
  destruct (allowedCode c); simpl; by rewrite IH.
Qed.

Lemma allowedCode_codes (c : ascii) :
  allowedCode c = true
  <-> (32 <= N_of_ascii c \/ N_of_ascii c = 9 \/ N_of_ascii c = 10 \/ N_of_ascii c = 13)%N.
Proof.
  unfold allowedCode. cbv zeta.
  rewrite !orb_true_iff, N.leb_le, !N.eqb_eq. tauto.
Qed.

(** X22.  [cleanJsonString] keeps, in order, exactly the characters with
    a code of 32 or more and the tab (9), line feed (10) and carriage
    return (13), and drops every other character; the characters kept
    and the characters counted as removed add up to the input; a string
    that is clean already comes back unchanged, so cleaning twice is
    cleaning once. *)
Theorem cleanJsonString_spec (jsonString : string) :
  String.list_ascii_of_string (cleanJsonString jsonString)
  = List.filter
      (fun c => let code := N_of_ascii c in
                ((32 <=? code) || (code =? 9) || (code =? 10) || (code =? 13))%N)
      (String.list_ascii_of_string jsonString)
  /\ cleanJsonString jsonString = keptChars jsonString
  /\ Forall (fun c => (32 <= N_of_ascii c \/ N_of_ascii c = 9
                       \/ N_of_ascii c = 10 \/ N_of_ascii c = 13)%N)
            (String.list_ascii_of_string (cleanJsonString jsonString))
  /\ (forall c, keepsChar c = true
                <-> (32 <= N_of_ascii c \/ N_of_ascii c = 9
                     \/ N_of_ascii c = 10 \/ N_of_ascii c = 13)%N)
  /\ allKept (cleanJsonString jsonString) = true
  /\ Z.of_nat (String.length (cleanJsonString jsonString))
     + (cleanJsonScan jsonString EmptyString 0).2
     = Z.of_nat (String.length jsonString)
  /\ (cleanJsonScan jsonString EmptyString 0).2 = droppedCount jsonString
  /\ (allKept jsonString = true -> cleanJsonString jsonString = jsonString)
  /\ cleanJsonString (cleanJsonString jsonString) = cleanJsonString jsonString.
Proof.
  assert (H : cleanJsonString jsonString = keptChars jsonString)
    by (unfold cleanJsonString; by rewrite cleanJsonScan_spec).
  split; [rewrite H; apply keptChars_filter|].
  split; [exact H|].
  split.
  { rewrite H, keptChars_filter. apply List.Forall_forall. intros c Hc.
    apply filter_In in Hc as [_ Hc]. by apply allowedCode_codes. }
  split; [intros c; rewrite keepsChar_allowedCode; apply allowedCode_codes|].
  split; [rewrite H; apply keptChars_allKept|].
  split; [|split; [|split]].
  - rewrite H, cleanJsonScan_spec. simpl. apply keptChars_length.
  - by rewrite cleanJsonScan_spec.
  - intros Hclean. rewrite H. by apply keptChars_clean.
  - rewrite H. unfold cleanJsonString. rewrite cleanJsonScan_spec. simpl.
    apply keptChars_clean, keptChars_allKept.
Qed.

Lemma cleanJsonString_spec_witness :
  String.length dirtyJson = 8%nat
  /\ cleanJsonString dirtyJson = cleanedJson
  /\ (cleanJsonScan dirtyJson EmptyString 0).2 = 2
  /\ allKept dirtyJson = false
  /\ allKept cleanedJson = true
  /\ cleanJsonString cleanedJson = cleanedJson.
Proof.
  destruct (cleanJsonString_spec dirtyJson) as (_ & Hkept & _ & _ & _ & _ & Hcount & _ & _).
  destruct (cleanJsonString_spec cleanedJson) as (_ & _ & _ & _ & _ & _ & _ & Hclean & _).
  split; [reflexivity|].
  split; [rewrite Hkept; reflexivity|].
  split; [rewrite Hcount; reflexivity|].
  split; [reflexivity|]. split; [reflexivity|].
  by apply Hclean.
Defined.

(** ** The decoder: surplus fields *)

(** X23.  [decodePortalLocation] reads the first two fields of the
    split and nothing else: whatever follows a second comma does not
    change the result. *)
Theorem decodePortalLocation_surplus (latHex lonHex surplus : string) :
  JsString.includes "," latHex = false ->
  JsString.includes "," lonHex = false ->
  decodePortalLocation (latHex +:+ "," +:+ lonHex +:+ "," +:+ surplus)
  = decodePortalLocation (latHex +:+ "," +:+ lonHex).
Proof.
  intros Hlat Hlon. unfold decodePortalLocation.
  change ("," +:+ lonHex +:+ "," +:+ surplus)
    with (String "," (lonHex +:+ String "," surplus)).
  change ("," +:+ lonHex) with (String "," lonHex).
  rewrite !includes_append.
  rewrite (split_append "," latHex (lonHex +:+ String "," surplus)) by done.
  rewrite (split_append "," lonHex surplus) by done.
  rewrite (split_append "," latHex lonHex) by done.
  rewrite (split_without "," lonHex) by done.
  destruct latHex; reflexivity.
Qed.

Lemma decodePortalLocation_surplus_witness :
  decodePortalLocation "0000000a,fffffff6,ignored"
  = Some (LatLon.mk (10 # 1000000) (-10 # 1000000)).
Proof.
  etrans;
    [exact (decodePortalLocation_surplus "0000000a" "fffffff6" "ignored" eq_refl eq_refl)
    |reflexivity].
Defined.

(** ** Filter and grouping together *)

Lemma elem_of_fold_add {A} `{EqDecision A} (l s : list A) (x : A) :
  x ∈ fold_left (fun seen y => JsSet.add y seen) l s <-> x ∈ s \/ x ∈ l.
Proof.
  revert s. induction l as [|y l IH]; intros s; simpl.
  - rewrite elem_of_nil. tauto.
  - rewrite IH, elem_of_add, elem_of_cons. tauto.
Qed.

Lemma rawType_DRONE (meta : Meta) :
  singleResource meta ->
  rawTypeOf meta = Some "DRONE" -> resolvedResourceType meta = Some "DRONE".
Proof.
  unfold singleResource, rawTypeOf, resolvedResourceType, JsString.orElse.
  destruct (resource meta) as [r|], (resourceWithLevels meta) as [rl|],
           (modResource meta) as [mr|]; simpl; try done;
    repeat match goal with
           | |- context [JsString.truthy ?o] => destruct (JsString.truthy o)
           end; done.
Qed.

(** X24.  For items that populate at most one of the three resource
    sub-records, no section DRONE survives the filter: after
    [filterItems], [groupItems] builds no bucket of display type
    DRONE. *)
Theorem no_drone_section (items : list Item) (filters : Filters.t) :
  Forall (fun item => singleResource (itemMeta item)) items ->
  Some "DRONE" ∉ (groupItems (filterItems items filters)).*1.
Proof.
  intros Hsingle Hin. rewrite groupItems_keys in Hin.
  unfold firstSeen in Hin. apply elem_of_fold_add in Hin as [Hin|Hin];
    [by apply elem_of_nil in Hin|].
  apply list_elem_of_fmap in Hin as (item & Hd & Hitem).
  apply list_elem_of_In, filter_In in Hitem as [Hitem Hkeep].
  apply keepItem_not_drone in Hkeep.
  rewrite List.Forall_forall in Hsingle. specialize (Hsingle item Hitem).
  symmetry in Hd. apply getDisplayType_DRONE, rawType_DRONE in Hd; [|exact Hsingle].
  unfold isDrone, strictEq in Hkeep. by rewrite Hd in Hkeep.
Qed.

Lemma no_drone_section_witness :
  (groupItems (filterItems sampleWithDrone (Filters.mk None))).*1
  = [Some "Mods"; Some "Capsules"]
  /\ (Some "DRONE" ∉ (groupItems (filterItems sampleWithDrone (Filters.mk None))).*1).
Proof.
  split; [reflexivity|].
  apply no_drone_section. repeat constructor.
Defined.
